(* ===== verification/_CoqProject ===== *)
-Q . S2P
Prelude.v
Stats.v
TurnQueue.v
QueueSpec.v
World.v
Spatial.v
Command.v
Novel.v
Floor.v
Shop.v
Turn.v
Engine.v
Rendering.v
Scenes.v
SceneDraw.v
