(* ===== verification/Prelude.v ===== *)
(** * A verification development of the simulation core of [tower]

    [tower] (src/src/core) is the rule engine of a turn-based tactical RPG.
    All game state lives in one registry, [Game] (src/src/core/game.rs): a
    set of HashMaps keyed by i32 ids (characters, actions, commands,
    character_actions, items, tiles, teleportations, sprite animations,
    areas) and the singleton subsystems [TurnSystem], [NovelSystem],
    [ShopSystem], [FloorSystem] and [Camera].  Every operation takes the
    registry by [&mut] and mutates it in place; no component owns a copy.

    The components call each other re-entrantly:
    - the turn scheduler (turn.rs) steps a six-state machine, creating,
      starting and ending commands (command.rs);
    - ending a command resolves its effect (damage, crowd control, drain,
      recovery, movement, talk); a Talk opens a dialogue (novel.rs), a Move
      goes through [Game::character_set_position], which may cross a
      teleporter and call [FloorSystem::next] (floor.rs), which may open a
      dialogue, and always runs the area triggers (area.rs);
    - the dialogue interpreter [NovelSystem::run] walks a script tree; its
      directives issue Move commands, relocate characters (again through
      [character_set_position]), open the shop (shop.rs) and pause or resume
      the scheduler.

    ** Layout of the development

    The files, in dependency order (the [_CoqProject] order):
    - [Prelude] (this file): the result monad [res] that models Rust's
      panics ([unwrap], [panic!], out-of-range [Vec::remove]) as [Panic]
      and fuel exhaustion as [OutOfFuel]; fresh ids [fresh_key]
      ([1 + keys().max().unwrap_or(0)]); the cursor helper [bump_last];
      the stable sort [sort_by_key] of [slice::sort_by_key]; i32
      wrap-around [wrap32]; the hint database [tower], the rewrite
      database [tower_rw], the tactics [res_inv] and [not_oof], and the
      generic lemmas on lists, sorting and machine integers.
    - [Stats]: [Attribute], [Position], [Position::distance] (also in i32
      arithmetic), the crowd-control counters and [turn_end], the
      [Character] record and its levelling ([set_experience]).
    - [TurnQueue]: [Game::add_turn], the pop of [TurnSystem::empty] and
      the [retain] of [take_damage] on the [Vec<Turn>]; [QueueSpec]: the
      contract of that queue (an abstract stable priority queue over
      absolute times) and the refinement of the code into it.
    - [World]: every record and enum of the registry and [Game] itself,
      the accessors of game.rs and the factories [new_player_character],
      [new_enemy].
    - [Spatial]: effect origins, the target expansion of each effect kind
      and the area triggers (action.rs, area.rs).
    - [Command]: the command lifecycle (command.rs) with [take_damage],
      and the [Hooks] record, the interface (not a translation) through
      which it calls the dialogue ([Game::start_novel]) and the relocation
      entry point ([Game::character_set_position]), with the law
      [hooks_keep] that a hook keeps an invariant.
    - [Novel]: the dialogue interpreter (novel.rs) with its cursor.
    - [Floor]: [FloorSystem] (floor.rs) and [Game::character_set_position].
    - [Shop]: [ShopSystem] (shop.rs) and its [Game] wrappers.
    - [Turn]: the six-state scheduler [TurnSystem] (turn.rs) with the AI
      controllers.
    - [Engine]: [hooks_at], which ties the re-entrant knot (commands open
      dialogues, dialogues relocate characters, relocations advance the
      floor, floors open dialogues) to a nesting depth; [Game::update];
      the entry points as the constructors of [Input], and [reachable].
    - [Rendering]: the frame as the list of [graphics::draw] calls since
      the last clear, the image cache of data.rs, the [render] monad that
      threads both (with a file that does not load and a panic as its
      failures), the camera transform and culling of rendering.rs,
      [RenderingParam::draw_image], the stats panel of ui/stats.rs, and the
      hint database [draw] of the lemmas that say what a draw keeps.
    - [Scenes]: the scene stack (scene.rs) and the [update] and
      [key_down_event] handlers of the seven scenes, which decide which
      entry point runs on each frame and key; the menus keep the ids and
      the texts of their entries as [ActionScene::new] and
      [SelectAbilityScene::new] build them.
    - [SceneDraw]: the [draw] of every scene, the stack's draw (bottom
      first), the tables only the draws read ([Assets]: tile sheets,
      sprite sheets, sprite sequences), [MainState::new] from the loaded
      registry, and the loop ggez runs over [MainState] (the keys that
      arrived, then [update], then [draw]).

    ** What the theorems show

    - The turn queue (TurnQueue, QueueSpec, Engine): insertion is the
      stable sorted insertion (FIFO among equal times); every queue
      operation keeps the queue sorted with times in [0, 1]; the code's
      relative-time queue refines an abstract priority queue over absolute
      times; and the invariant holds in every registry reachable through
      the entry points.
    - The scheduler (Turn): the pause flag is checked before every step; a
      player's turn stops the frame waiting for input; the enemy targets
      the nearest human and chases one unit closer; and, in every registry
      whose only queued turn is that of a non-player character that can act
      and stands off the camera's map, a frame never returns (a livelock
      for every fuel, proved by the invariant of the six-state cycle).
    - The dialogue (Novel, Scenes): termination within a computed bound
      for scripts without [Restart]; divergence on a [Restart] loop;
      out-of-range answers skip the question, but the dialogue scene never
      sends one.  The specification's example traversal is checked as a
      concrete run.
    - Damage, floors and the shop (Command, Floor, Shop): [take_damage]
      on every branch; the floor table and its gap above floor 50; the
      floor reward, which for every levelled character keeps the level
      and breaks the level table's agreement whenever the point crosses a
      band; buying without price or stock; the new player's level 20,
      which no experience gives and the first experience change undoes.
    - The presentation layer (Scenes, SceneDraw): the level scene stays at
      the bottom of the scene stack; the menus keep their cursors in range,
      and the entry at each position is an action whose text is the one
      shown there; for every registry whose dialogue asks a character
      without actions to forget one, the empty ability menu still calls
      [select_ability] and panics; after every frame of the loop, a
      dialogue that offers no choice has its scenes' cursors back at 0,
      since the draw, not the key handler, resets them.
    - Drawing (Rendering, SceneDraw): every image of the level scene lies
      inside the square the border outlines; the level scene's draw does
      not panic on a registry whose sprites and animations are complete;
      the image cache only holds the images of the files asked for; the
      shop shows one more copy of an item after buying it.
    - Bounds: [Position::distance] in i32 is exact for coordinates below
      [2^29] and wraps beyond.

    ** Fuel

    [Game::update], [NovelSystem::run] and the re-entrant calls recurse or
    loop without a bound in the code, so they take fuel: [turn_update]
    (one unit per scheduler step), [run] and [clear_command] (one unit per
    self-call), and [hooks_at n] (nesting depth [n]; depth 0 runs out).
    [Engine] uses one [fuel] for all of them.  No theorem assumes that
    fuel suffices: the termination theorem [run_terminates] gives the
    amount ([cursor_measure]) that does, the scheduler theorem gives three
    steps, and the divergence theorems hold for every fuel.  Concrete runs
    (witnesses and the examples that back the findings) use fuel 4 to
    1000, enough for the nesting they exercise, which [vm_compute]
    confirms by not returning [OutOfFuel].

    ** Modelling conventions

    - Rust [i32] values are [Z]; the development states where a value stays
      within the i32 range (turn times stay in [0,1]).  [f32] values
      (elapsed time, durations, offsets, percentages) are exact rationals
      [Q]: rounding is not modelled.
    - A [HashMap<i32, T>] is a [gmap Z T].  Rust leaves the iteration order
      of a HashMap unspecified; the model iterates in [map_to_list] order,
      and every theorem whose statement could depend on that order is
      stated independently of it (membership, minimality).
    - A panic ([unwrap] on [None], [panic!()], [Vec::remove] out of range)
      is the value [Panic]; logging calls ([log::warn!], [log::error!]) are
      no-ops.
    - Recursion that the code does not bound (the dialogue interpreter's
      self-calls, the re-entrant knot between commands, floors and
      dialogues, and the scheduler's frame loop) takes a [nat] fuel and
      returns [OutOfFuel] when it is exhausted; termination theorems state
      how much fuel suffices, and non-termination findings are proved for
      every fuel.

    - A draw is the list of [graphics::draw] calls it makes, each a
      drawable (an image by its path, a rectangle mesh, a text, the stats
      canvas by its text) with its [DrawParam] (source rectangle,
      destination, scale).  Mesh and canvas construction and
      [graphics::draw] itself, which fail only on a graphics-backend
      error, are taken to succeed; loading an image fails exactly when the
      resource directory (the section variable [files]) has no image under
      its path.

    ** Not modelled

    The pixels ggez renders from the calls of a frame and the windowing
    and logging set-up of main.rs; the reading and parsing of the RON
    files in [MainState::new] (I/O; [main_state_new] starts from the
    loaded registry) and serialisation (serde derives); src/src/core/mod.rs,
    which only declares modules and re-exports them; f32 rounding (times,
    offsets and screen coordinates are exact rationals), which also means
    that a division by zero in [draw_image] gives 0 rather than an
    infinity.  The three rendering tables of [Game] are the separate record
    [Assets] because no operation of the core reads or writes them. *)

From Stdlib Require Export QArith Qminmax ZArith Lia.
From stdpp Require Export base gmap strings list sorting pretty.
From coqutil Require Export Datatypes.RecordSettersUsingExistingGetters.

(** A field set to a constant ([x <| f := v |>]) reduces with [simpl] and
    [cbn]. *)
Arguments RecordSettersUsingExistingGetters.const {E} _ _ /.

Declare Scope tower_scope.
Delimit Scope tower_scope with tower.
Open Scope Z_scope.

Create HintDb tower discriminated.
Create Rewrite HintDb tower_rw.

(** ** The result monad: success, panic, or exhausted fuel *)

Inductive res (A : Type) : Type :=
| Ok (a : A)
| Panic
| OutOfFuel.
Arguments Ok {A} a.
Arguments Panic {A}.
Arguments OutOfFuel {A}.

#[export] Instance res_ret : MRet res := λ A a, Ok a.
#[export] Instance res_bind : MBind res := λ A B f m,
  match m with
  | Ok a => f a
  | Panic => Panic
  | OutOfFuel => OutOfFuel
  end.

(** [Option::unwrap]: a missing registry entry panics. *)
Definition unwrap {A} (o : option A) : res A :=
  match o with
  | Some a => Ok a
  | None => Panic
  end.

(** A computation that did not run out of fuel. *)
Definition finished {A} (r : res A) : bool :=
  match r with
  | OutOfFuel => false
  | _ => true
  end.

(** ** i32 constants *)

Definition i32_max : Z := 2 ^ 31 - 1.

(** Two's-complement wrap-around of an [i32] result (the release-mode
    behaviour of [+], [-] and [abs]). *)
Definition wrap32 (z : Z) : Z := (z + 2 ^ 31) mod 2 ^ 32 - 2 ^ 31.

(** ** Fresh ids: [1 + *map.keys().max().unwrap_or(&0)] *)

Definition max_key {V} (m : gmap Z V) : option Z :=
  foldr (λ k acc, Some (match acc with Some a => Z.max k a | None => k end))
    None (map_to_list m).*1.

Definition fresh_key {V} (m : gmap Z V) : Z := 1 + default 0 (max_key m).

(** ** Iterators *)

(** [Iterator::find]: the first element satisfying [P]. *)
Definition iter_find {A} (P : A → Prop) `{∀ x, Decision (P x)} (l : list A) : option A :=
  snd <$> list_find P l.

(** [slice::sort_by_key], a stable sort: each element goes after the
    elements already placed whose key is not greater than its own. *)
Fixpoint insert_by {A} (key : A → Z) (x : A) (l : list A) : list A :=
  match l with
  | [] => [x]
  | y :: l' => if decide (key x < key y) then x :: y :: l' else y :: insert_by key x l'
  end.

Definition sort_by_key {A} (key : A → Z) (l : list A) : list A :=
  foldl (λ acc x, insert_by key x acc) [] l.

(** ** Vectors used as cursors and lists *)

(** [if let Some(i) = p.last_mut() { *i += 1 }] *)
Fixpoint bump_last (p : list nat) : list nat :=
  match p with
  | [] => []
  | [i] => [S i]
  | i :: r => i :: bump_last r
  end.

(** [Vec::remove(index)], which panics when [index >= len]. *)
Definition vec_remove {A} (i : nat) (l : list A) : res (list A) :=
  if decide (i < length l)%nat then Ok (take i l ++ drop (S i) l) else Panic.

(** [v.get(z as usize)] for an i32 index: a negative index becomes a huge
    usize, so the lookup fails. *)
Definition get_i32 {A} (l : list A) (z : Z) : option A :=
  if z <? 0 then None else l !! Z.to_nat z.

(** ** Strings *)

(** The line break of Rust's ["\n"]. *)
Definition nl : string := String (Ascii.ascii_of_nat 10) EmptyString.

(** ** Generic lemmas *)

Lemma bind_Ok {A B} (a : A) (f : A → res B) : (Ok a ≫= f) = f a.
Proof. reflexivity. Qed.

Lemma bind_Panic {A B} (f : A → res B) : ((Panic : res A) ≫= f) = Panic.
Proof. reflexivity. Qed.

Lemma bind_OutOfFuel {A B} (f : A → res B) : ((OutOfFuel : res A) ≫= f) = OutOfFuel.
Proof. reflexivity. Qed.

#[export] Hint Rewrite @bind_Ok @bind_Panic @bind_OutOfFuel : tower_rw.

Lemma bind_eq_Ok {A B} (m : res A) (f : A → res B) b :
  (m ≫= f) = Ok b ↔ ∃ a, m = Ok a ∧ f a = Ok b.
Proof.
  destruct m as [a| |]; simpl; split; intros H;
    try destruct H as (? & H1 & ?); try discriminate; eauto.
  by injection H1 as ->.
Qed.

Lemma bind_finished {A B} (m : res A) (f : A → res B) :
  finished (m ≫= f) = true →
  finished m = true ∧ (∀ a, m = Ok a → finished (f a) = true).
Proof. destruct m; simpl; split; congruence. Qed.

Lemma unwrap_Ok {A} (o : option A) a : unwrap o = Ok a ↔ o = Some a.
Proof. destruct o; simpl; split; congruence. Qed.

Lemma max_key_upper {V} (m : gmap Z V) k v :
  m !! k = Some v → ∃ a, max_key m = Some a ∧ k ≤ a.
Proof.
  intros Hk. apply elem_of_map_to_list in Hk.
  assert (Hin : k ∈ (map_to_list m).*1)
    by (apply list_elem_of_fmap; exists (k, v); auto).
  unfold max_key. revert Hin. generalize (map_to_list m).*1 as l.
  induction l as [|k' l IH]; intros Hin; [by apply elem_of_nil in Hin|].
  simpl. apply elem_of_cons in Hin as [->|Hin].
  - destruct (foldr _ None l); eexists; split; eauto; lia.
  - destruct (IH Hin) as (a & -> & Ha). eexists; split; eauto; lia.
Qed.

(** The allocated id never collides with an existing key. *)
Lemma fresh_key_fresh {V} (m : gmap Z V) : m !! fresh_key m = None.
Proof.
  destruct (m !! fresh_key m) as [v|] eqn:E; [|done].
  destruct (max_key_upper m _ v E) as (a & Ha & Hle).
  unfold fresh_key in Hle. rewrite Ha in Hle. simpl in Hle. lia.
Qed.

Lemma bump_last_length p : length (bump_last p) = length p.
Proof. induction p as [|i [|j r] IH]; simpl in *; auto. Qed.

Lemma bump_last_app p i : bump_last (p ++ [i]) = p ++ [S i].
Proof. induction p as [|j [|k r] IH]; simpl in *; auto. by rewrite IH. Qed.

#[export] Hint Resolve fresh_key_fresh : tower.

(** A computation built from steps that never exhaust fuel does not. *)
Lemma bind_not_oof {A B} (m : res A) (f : A → res B) :
  m ≠ OutOfFuel → (∀ a, f a ≠ OutOfFuel) → m ≫= f ≠ OutOfFuel.
Proof. destruct m; simpl; auto; discriminate. Qed.

Lemma unwrap_not_oof {A} (o : option A) : unwrap o ≠ OutOfFuel.
Proof. by destruct o. Qed.

Lemma Ok_not_oof {A} (a : A) : Ok a ≠ OutOfFuel.
Proof. discriminate. Qed.

Lemma Panic_not_oof {A} : (Panic : res A) ≠ OutOfFuel.
Proof. discriminate. Qed.

Lemma vec_remove_not_oof {A} i (l : list A) : vec_remove i l ≠ OutOfFuel.
Proof. unfold vec_remove. by case_decide. Qed.

#[export] Hint Resolve bind_not_oof unwrap_not_oof Ok_not_oof Panic_not_oof
  vec_remove_not_oof : tower.

(** Simplify binds of known results everywhere. *)
Ltac res_simpl := autorewrite with tower_rw in *; simpl in *.

(** Discharge [_ ≠ OutOfFuel] for straight-line code. *)
Ltac not_oof :=
  repeat first [solve [eauto with tower] | apply bind_not_oof; [|intros ?]
               | progress case_match].

(** Invert a successful computation into the equations of its steps. *)
Ltac res_inv :=
  repeat match goal with
  | H : (_ ≫= _) = Ok _ |- _ => apply bind_eq_Ok in H as (? & ? & H)
  | H : unwrap _ = Ok _ |- _ => apply unwrap_Ok in H
  | H : Ok _ = Ok _ |- _ => injection H as H
  | H : Panic = Ok _ |- _ => discriminate H
  | H : OutOfFuel = Ok _ |- _ => discriminate H
  | H : (match ?x with _ => _ end) = Ok _ |- _ => destruct x eqn:?
  | H : (_, _) = (_, _) |- _ => injection H as H
  | p : (_ * _)%type |- _ => destruct p
  | H : _ = Ok _ |- _ => progress (cbv beta iota in H)
  end; subst.

Lemma bump_last_last p : last (bump_last p) = S <$> last p.
Proof. induction p as [|i [|j r] IH]; simpl in *; auto. destruct r; simpl in *; auto. Qed.
#[export] Hint Rewrite bump_last_app : tower_rw.

Section FilterLemmas.
Context {A : Type} (P : A → Prop) `{∀ x, Decision (P x)}.

Lemma Forall_filter_keep (Q : A → Prop) (l : list A) :
  Forall Q l → Forall Q (filter P l).
Proof.
  induction 1; rewrite ?filter_cons; [constructor|]. case_decide; auto.
Qed.

Lemma filter_all_true (l : list A) : Forall P l → filter P l = l.
Proof.
  induction 1; rewrite ?filter_cons; [done|]. rewrite decide_True; congruence.
Qed.

Lemma filter_all_false (l : list A) : Forall (λ x, ¬ P x) l → filter P l = [].
Proof.
  induction 1; rewrite ?filter_cons; [done|]. by rewrite decide_False.
Qed.
End FilterLemmas.

Lemma iter_find_Some {A} (P : A → Prop) `{∀ x, Decision (P x)} (l : list A) a :
  iter_find P l = Some a → a ∈ l ∧ P a.
Proof.
  unfold iter_find. destruct (list_find P l) as [[i b]|] eqn:E; [|done].
  simpl. intros [= ->]. apply list_find_Some in E as (Hi & HP & _).
  split; [by eapply list_elem_of_lookup_2|done].
Qed.

Lemma iter_find_None {A} (P : A → Prop) `{∀ x, Decision (P x)} (l : list A) :
  iter_find P l = None ↔ Forall (λ x, ¬ P x) l.
Proof.
  unfold iter_find. split.
  - intros Hn. apply (list_find_None P l). destruct (list_find P l); [discriminate|done].
  - intros Hn%(list_find_None P l). by rewrite Hn.
Qed.

Lemma forallb_lookup {A} (f : A → bool) l i x :
  forallb f l = true → l !! i = Some x → f x = true.
Proof.
  intros Hl Hi. eapply forallb_forall; [exact Hl|].
  by eapply list_elem_of_In, list_elem_of_lookup_2.
Qed.

Lemma last_cons_Some {A} (j : A) l x : last l = Some x → last (j :: l) = Some x.
Proof. by destruct l. Qed.

Lemma delete_app_l {A} (l k : list A) i : (i < length l)%nat → delete i (l ++ k) = delete i l ++ k.
Proof.
  intros Hi. rewrite !delete_take_drop, take_app_le, drop_app_le by lia. by rewrite app_assoc.
Qed.

Section SortByKey.
Context {A : Type} (key : A → Z).

Lemma insert_by_perm x l : insert_by key x l ≡ₚ x :: l.
Proof.
  induction l as [|y l IH]; simpl; [done|].
  case_decide; [done|]. rewrite IH. constructor.
Qed.

Lemma insert_by_sorted x l :
  Sorted (λ a b, key a ≤ key b) l → Sorted (λ a b, key a ≤ key b) (insert_by key x l).
Proof.
  induction 1 as [|y l Hs IH Hhd]; simpl; [by repeat constructor|].
  case_decide.
  - constructor; [by constructor|]. constructor. lia.
  - constructor; [done|]. destruct l as [|z l]; simpl.
    + constructor. lia.
    + inversion Hhd; subst. case_decide; constructor; lia.
Qed.

Lemma sort_by_key_perm l : sort_by_key key l ≡ₚ l.
Proof.
  unfold sort_by_key. rewrite <-(app_nil_l l) at 2. generalize (@nil A) as acc.
  induction l as [|x l IH]; intros acc; simpl; [by rewrite app_nil_r|].
  rewrite IH, insert_by_perm. simpl. apply Permutation_middle.
Qed.

Lemma sort_by_key_sorted l : Sorted (λ a b, key a ≤ key b) (sort_by_key key l).
Proof.
  unfold sort_by_key. assert (Hnil : Sorted (λ a b : A, key a ≤ key b) []) by constructor.
  revert Hnil. generalize (@nil A) as acc.
  induction l as [|x l IH]; intros acc Hacc; simpl; [done|].
  by apply IH, insert_by_sorted.
Qed.

(** The head of the sorted list has the smallest key of the input. *)
Lemma sort_by_key_head l x rest :
  sort_by_key key l = x :: rest → x ∈ l ∧ Forall (λ y, key x ≤ key y) l.
Proof.
  intros Hl. pose proof (sort_by_key_perm l) as Hp. pose proof (sort_by_key_sorted l) as Hs.
  rewrite Hl in Hp, Hs. split; [rewrite <-Hp; left|].
  apply Sorted_StronglySorted in Hs; [|intros ???; lia].
  inversion Hs as [|?? _ Hall]; subst. rewrite <-Hp. constructor; [lia|done].
Qed.
Lemma sort_by_key_snoc l x : sort_by_key key (l ++ [x]) = insert_by key x (sort_by_key key l).
Proof. unfold sort_by_key. by rewrite foldl_app. Qed.

Lemma insert_by_front x l : Forall (λ y, key x < key y) l → insert_by key x l = x :: l.
Proof. destruct 1; simpl; [done|]. by rewrite decide_True. Qed.

(** The stable sort starts with the first element of least key, followed
    by the sort of the others. *)
Lemma sort_by_key_pick l i x :
  list_find (λ x, Forall (λ y, key x ≤ key y) l) l = Some (i, x) →
  sort_by_key key l = x :: sort_by_key key (delete i l).
Proof.
  induction l as [|y l IH] using rev_ind; [done|].
  rewrite list_find_Some, sort_by_key_snoc, Forall_app, Forall_singleton.
  intros (Hi & [Hmin Hy] & Hfirst).
  destruct (decide (i < length l)%nat) as [Hlt|Hge].
  - rewrite lookup_app_l in Hi by done.
    rewrite IH; cycle 1.
    { apply list_find_Some. split_and!; [done..|]. intros j z Hj Hji Hz.
      apply (Hfirst j z); [by rewrite lookup_app_l by (apply lookup_lt_Some in Hj; lia)|done|].
      rewrite Forall_app, Forall_singleton. split; [done|].
      rewrite Forall_forall in Hz. pose proof (Hz x (list_elem_of_lookup_2 _ _ _ Hi)). lia. }
    simpl. rewrite decide_False by lia. f_equal.
    by rewrite delete_app_l, sort_by_key_snoc.
  - rewrite lookup_app_r, list_lookup_singleton_Some in Hi by lia. destruct Hi as [Hi <-].
    replace i with (length l) by lia. rewrite delete_middle, app_nil_r.
    apply insert_by_front. destruct (sort_by_key key l) as [|m r] eqn:Hs; [done|].
    pose proof (sort_by_key_head l m r Hs) as [Hm Hall]. rewrite <-(sort_by_key_perm l), Hs in Hall.
    apply list_elem_of_lookup_1 in Hm as [j Hj].
    destruct (decide (key y < key m)) as [Hym|Hym].
    + eapply Forall_impl; [exact Hall|]. simpl. lia.
    + exfalso. apply (Hfirst j m); [by rewrite lookup_app_l by (apply lookup_lt_Some in Hj; lia)
                                    |apply lookup_lt_Some in Hj; lia|].
      rewrite Forall_app, Forall_singleton. split; [|lia].
      by rewrite <-(sort_by_key_perm l), Hs.
Qed.
End SortByKey.

(** ** Machine integers *)

Lemma wrap32_id z : - 2 ^ 31 ≤ z ≤ i32_max → wrap32 z = z.
Proof.
  unfold wrap32, i32_max. intros Hz. rewrite Z.mod_small by lia. lia.
Qed.

Lemma wrap32_range z : - 2 ^ 31 ≤ wrap32 z ≤ i32_max.
Proof. unfold wrap32, i32_max. pose proof (Z.mod_pos_bound (z + 2 ^ 31) (2 ^ 32)). lia. Qed.

(** A fold whose step leaves a projection alone leaves it alone. *)
Lemma foldl_proj {A B C} (proj : A → C) (f : A → B → A) a l :
  (∀ a b, proj (f a b) = proj a) → proj (foldl f a l) = proj a.
Proof. intros Hf. revert a. induction l as [|b l IH]; intros a; simpl; [done|]. by rewrite IH. Qed.

(** ** Loops over lists in the result monad *)

(** [for x in l { body }] where the body may panic or run out of fuel. *)
Fixpoint fold_res {A B} (f : A → B → res A) (a : A) (l : list B) : res A :=
  match l with
  | [] => Ok a
  | b :: l => a' ← f a b; fold_res f a' l
  end.

Lemma fold_res_app {A B} (f : A → B → res A) a l1 l2 :
  fold_res f a (l1 ++ l2) = (a' ← fold_res f a l1; fold_res f a' l2).
Proof.
  revert a. induction l1 as [|b l1 IH]; intros a; simpl; [done|].
  destruct (f a b); simpl; auto.
Qed.

(** A loop whose body keeps an invariant keeps it. *)
Lemma fold_res_invariant {A B} (I : A → Prop) (f : A → B → res A) a l a' :
  (∀ x b x', I x → b ∈ l → f x b = Ok x' → I x') →
  I a → fold_res f a l = Ok a' → I a'.
Proof.
  revert a. induction l as [|b l IH]; intros a Hf Ha; simpl; [congruence|].
  destruct (f a b) as [x| |] eqn:E; simpl; try discriminate.
  apply IH; [|eapply Hf; eauto; left].
  intros ????? . eapply Hf; eauto. by right.
Qed.

(** Two [filter_map]s over the same list that keep the same elements have
    the same length. *)
Lemma omap_length_eq {A B C} (f : A → option B) (h : A → option C) l :
  (∀ x, is_Some (f x) ↔ is_Some (h x)) → length (omap f l) = length (omap h l).
Proof.
  intros Hfh. induction l as [|x l IH]; [done|]. simpl.
  pose proof (Hfh x) as Hx.
  destruct (f x), (h x); simpl.
  - by f_equal.
  - exfalso. destruct Hx as [H1 _]. by apply (is_Some_None (A:=C)), H1.
  - exfalso. destruct Hx as [_ H2]. by apply (is_Some_None (A:=B)), H2.
  - done.
Qed.
