(* ===== verification/Stats.v ===== *)
(** * Stats: per-character data and its pure operations

    Models src/src/core/attribute.rs ([Attribute::current], [Attribute::max]),
    position.rs ([Position::distance]) and the parts of character.rs that
    touch one character only: the crowd-control counters and their decay
    [CharacterCrowdControl::turn_end], the [Character] record, and the
    levelling functions [set_experience], [gain_exp], [kill_experience].
    Each Rust struct is a Module holding a Record [t], so that field names
    shared by several structs ([id], [position], [items], ...) stay apart.
    [Position.distance_i32] is the distance computed in wrapping i32
    arithmetic; the theorems relate it to the exact one. *)

From S2P Require Import Prelude.

Module Attribute.
Record t := mk {
  base : Z;
  drain : Z;
  damage : Z;
  modifier : Z;
}.

(** attribute.rs:12-14 *)
Definition current (a : t) : Z := base a - damage a - drain a + modifier a.

(** attribute.rs:16-18 *)
Definition max (a : t) : Z := base a - drain a + modifier a.
End Attribute.

(** attribute.rs:21-28; declared and re-exported, read by no operation. *)
Inductive AttributeKind := Hp | Mp | Attack | Defence | Sanity.

Module Position.
Record t := mk {
  map_id : Z;
  x : Z;
  y : Z;
}.

#[global] Instance eq_dec : EqDecision t.
Proof. solve_decision. Defined.

(** position.rs:11-17: Manhattan distance on one map, [i32::MAX] across
    maps. *)
Definition distance (a b : t) : Z :=
  if decide (map_id a = map_id b)
  then Z.abs (x a - x b) + Z.abs (y a - y b)
  else i32_max.

(** The same computed in [i32] arithmetic: each subtraction, [abs] and the
    sum wraps around. *)
Definition distance_i32 (a b : t) : Z :=
  if decide (map_id a = map_id b)
  then wrap32 (wrap32 (Z.abs (wrap32 (x a - x b))) + wrap32 (Z.abs (wrap32 (y a - y b))))
  else i32_max.
End Position.

Module CrowdControl.
Record t := mk {
  stun : Z;
  charm : Z;
  shock : Z;
  shocked : bool;
  poison : Z;
  sleep : Z;
  root : Z;
  silent : Z;
}.

(** One counter's decay, [(v - 1).max(0)]. *)
Definition dec (v : Z) : Z := Z.max (v - 1) 0.

(** character.rs:142-150 *)
Definition turn_end (cc : t) : t :=
  { cc with stun ::= dec; charm ::= dec; shock ::= dec; poison ::= dec;
        sleep ::= dec; root ::= dec; silent ::= dec }.

(** All counters non-negative: the form every counter has once it has
    been decayed or raised to a duration. *)
Definition nonneg (cc : t) : Prop :=
  0 ≤ stun cc ∧ 0 ≤ charm cc ∧ 0 ≤ shock cc ∧ 0 ≤ poison cc ∧
  0 ≤ sleep cc ∧ 0 ≤ root cc ∧ 0 ≤ silent cc.

Definition none : t := mk 0 0 0 false 0 0 0 0.
End CrowdControl.

Inductive Race := Human | Elf | Orc | Demon.

#[export] Instance Race_eq_dec : EqDecision Race.
Proof. solve_decision. Defined.

Inductive Controller :=
| Player
| Enemy
| NPC
| Boss (waiting : bool).

Module CharacterAction.
Record t := mk {
  action_id : Z;
  cooldown : Z;
  exp : Z;
}.

(** character.rs:176-182 *)
Definition new (action_id : Z) : t := mk action_id 0 0.
End CharacterAction.

Module CharacterItem.
Record t := mk { item_id : Z; quantity : Z }.
End CharacterItem.

Inductive ItemKind :=
| Potion
| ActionBook (action_id : Z).

Module Item.
Record t := mk {
  id : Z;
  name : string;
  description : string;
  item_kind : ItemKind;
}.
End Item.

Module ShopItem.
Record t := mk { item_id : Z; stock : option Z }.
End ShopItem.

Module Shop.
Record t := mk { id : Z; items : list ShopItem.t }.
End Shop.

Module Character.
Record t := mk {
  id : Z;
  crowd_controls : CrowdControl.t;
  position : Position.t;
  controller : Controller;
  items : list CharacterItem.t;
  character_action_ids : list Z;
  race : Race;
  character_sprite_id : Z;
  offset_x : Q;
  offset_y : Q;
  defeated : bool;
  dead : bool;
  experience : Z;
  level : Z;
  hp : Attribute.t;
  mp : Attribute.t;
  attack : Attribute.t;
  defence : Attribute.t;
  sanity : Attribute.t;
  hidden : bool;
  command_id : option Z;
  talk_id : Z;
  shop : option Shop.t;
  gold : Z;
  wood : Z;
}.

(** The level table of character.rs:71-77. *)
Definition level_of (exp : Z) : Z :=
  if exp <=? 4 then 1
  else if exp <=? 14 then 2
  else if exp <=? 29 then 3
  else if exp <=? 49 then 4
  else 5.

(** character.rs:67-83 *)
Definition set_experience (exp : Z) (c : t) : t :=
  let c := { c with experience := exp } in
  let lvl := level_of exp in
  if decide (lvl ≠ level c) then
    { c with level := lvl;
         hp ::= (λ a, { a with Attribute.base := 100 + lvl * 10 });
         mp ::= (λ a, { a with Attribute.base := 100 + lvl * 10 }) }
  else c.

(** character.rs:64-66 *)
Definition gain_exp (exp : Z) (c : t) : t := set_experience (experience c + exp) c.

(** character.rs:85-88 *)
Definition kill_experience (c : t) : Z := 1.

(** The relation [set_experience] establishes between the experience, the
    level and the hp/mp bases. *)
Definition level_consistent (c : t) : Prop :=
  level c = level_of (experience c) ∧
  Attribute.base (hp c) = 100 + level c * 10 ∧
  Attribute.base (mp c) = 100 + level c * 10.
End Character.

(** ** Theorems *)

Section CrowdControlDecay.
Import CrowdControl.

Lemma turn_end_nonneg cc : nonneg (turn_end cc).
Proof. unfold nonneg; cbn; unfold dec. split_and!; lia. Qed.

Lemma dec_iter (n : nat) v : Nat.iter (S n) dec v = Z.max (v - Z.of_nat (S n)) 0.
Proof.
  induction n as [|n IH]; [done|].
  rewrite Nat.iter_succ, IH. unfold dec. clear IH. lia.
Qed.

(** [n] turn ends act field by field. *)
Lemma turn_end_iter_fields (n : nat) cc :
  Nat.iter n turn_end cc =
  mk (Nat.iter n dec (stun cc)) (Nat.iter n dec (charm cc))
     (Nat.iter n dec (shock cc)) (shocked cc) (Nat.iter n dec (poison cc))
     (Nat.iter n dec (sleep cc)) (Nat.iter n dec (root cc))
     (Nat.iter n dec (silent cc)).
Proof. induction n as [|n IH]; [by destruct cc|]. rewrite !Nat.iter_succ, IH. done. Qed.

(** C32: after [n >= 1] turn ends every counter is [max(old - n, 0)] and
    the [shocked] toggle is untouched. *)
Theorem turn_end_iter (n : nat) (cc : t) :
  let cc' := Nat.iter (S n) turn_end cc in
  let k := Z.of_nat (S n) in
  stun cc' = Z.max (stun cc - k) 0 ∧ charm cc' = Z.max (charm cc - k) 0 ∧
  shock cc' = Z.max (shock cc - k) 0 ∧ poison cc' = Z.max (poison cc - k) 0 ∧
  sleep cc' = Z.max (sleep cc - k) 0 ∧ root cc' = Z.max (root cc - k) 0 ∧
  silent cc' = Z.max (silent cc - k) 0 ∧ shocked cc' = shocked cc.
Proof. cbv zeta. rewrite turn_end_iter_fields, !dec_iter. done. Qed.

Lemma turn_end_none : turn_end none = none.
Proof. reflexivity. Qed.
End CrowdControlDecay.

Section Levelling.
Import Character.

Lemma level_of_range e : 1 ≤ level_of e ≤ 5.
Proof. unfold level_of; repeat case_match; lia. Qed.

Lemma level_of_mono e1 e2 : e1 ≤ e2 → level_of e1 ≤ level_of e2.
Proof. unfold level_of; intros; repeat case_match; lia. Qed.

(** C33: [set_experience] stores the experience, sets the level by the
    table (exp in [5,14] gives 2, exp at least 50 gives 5), and when the
    level changes recomputes hp.base = mp.base = 100 + 10 * level;
    otherwise the hp and mp attributes are untouched. *)
Theorem set_experience_spec e c :
  let c' := set_experience e c in
  experience c' = e ∧ level c' = level_of e ∧
  (5 ≤ e ≤ 14 → level c' = 2) ∧ (50 ≤ e → level c' = 5) ∧
  (level_of e ≠ level c →
     Attribute.base (hp c') = 100 + 10 * level_of e ∧
     Attribute.base (mp c') = 100 + 10 * level_of e) ∧
  (level_of e = level c → hp c' = hp c ∧ mp c' = mp c).
Proof.
  cbv zeta. unfold set_experience; cbn.
  assert (Hl : (5 ≤ e ≤ 14 → level_of e = 2) ∧ (50 ≤ e → level_of e = 5))
    by (unfold level_of; split; intros; repeat case_match; lia).
  case_decide; cbn; split_and!; intros; try done; try lia; exfalso; lia.
Qed.

Lemma set_experience_consistent e c :
  level_of e ≠ level c ∨ level_consistent c →
  level_consistent (set_experience e c).
Proof.
  unfold level_consistent, set_experience. cbn.
  case_decide as Hne; cbn; [intros _; split_and!; lia|].
  intros [?|(_ & Hhp & Hmp)]; [done|]. split_and!; congruence.
Qed.

End Levelling.

(** ** Theorems: the i32 distance *)

Section Distance.

(** Coordinates less than [2^29] away from the origin. *)
Definition coords_small (p : Position.t) : Prop :=
  Z.abs (Position.x p) < 2 ^ 29 ∧ Z.abs (Position.y p) < 2 ^ 29.

(** C36: on positions whose coordinates lie less than [2^29] away from
    the origin the [i32] computation of [Position::distance] never wraps: it is the
    Manhattan distance, and on one map it stays below [i32::MAX], the value
    that marks another map, so [distance < i32::MAX] decides "same map". *)
Theorem distance_i32_exact a b :
  coords_small a → coords_small b →
  Position.distance_i32 a b = Position.distance a b ∧
  (Position.distance a b < i32_max ↔ Position.map_id a = Position.map_id b).
Proof.
  unfold coords_small, Position.distance_i32, Position.distance, i32_max.
  intros [Hax Hay] [Hbx Hby]. case_decide; [|split; [done|split; [lia|done]]].
  rewrite (wrap32_id (Position.x a - _)), (wrap32_id (Position.y a - _)) by (unfold i32_max; lia).
  rewrite (wrap32_id (Z.abs (Position.x a - _))), (wrap32_id (Z.abs (Position.y a - _)))
    by (unfold i32_max; lia).
  rewrite (wrap32_id (Z.abs _ + Z.abs _)) by (unfold i32_max; lia).
  split; [done|split; [done|lia]].
Qed.

(** Beyond that range the wrap-around shows: two positions of one map
    [2^31] apart on both axes are at [i32] distance 0. *)
Example distance_i32_wraps :
  Position.distance_i32 (Position.mk 0 (2 ^ 30) (2 ^ 30)) (Position.mk 0 (- 2 ^ 30) (- 2 ^ 30)) =
  0 ∧
  Position.distance (Position.mk 0 (2 ^ 30) (2 ^ 30)) (Position.mk 0 (- 2 ^ 30) (- 2 ^ 30)) = 2 ^ 32.
Proof. split; reflexivity. Qed.

Lemma distance_i32_exact_witness :
  Position.distance_i32 (Position.mk 0 3 4) (Position.mk 0 (-2) 1) = 8 ∧
  (Position.distance (Position.mk 0 3 4) (Position.mk 1 0 0) < i32_max ↔ 0 = 1).
Proof.
  split.
  - refine (eq_trans (proj1 (distance_i32_exact (Position.mk 0 3 4) (Position.mk 0 (-2) 1) _ _)) _);
      [split; simpl; lia..|reflexivity].
  - apply (distance_i32_exact (Position.mk 0 3 4) (Position.mk 1 0 0)); split; simpl; lia.
Defined.
End Distance.
