(* ===== verification/TurnQueue.v ===== *)
(** * TurnQueue: the time-ordered turn queue of the scheduler

    Models [Turn] and [TurnKind] (src/src/core/turn.rs), the insertion
    [Game::add_turn] (game.rs:44-58), the pop-and-renormalise step of
    [TurnSystem::empty] (turn.rs:40-54) and the [retain] that
    [Character::take_damage] runs on the queue (character.rs:105-108).
    The queue is a [list Turn.t]; the theorems show that insertion is the
    stable sorted insertion (FIFO among equal times), that every queue
    operation keeps the queue sorted, and that the times the scheduler ever
    stores stay within [0, 1], so the i32 subtraction of the
    renormalisation never overflows. *)

From S2P Require Import Prelude.

Module TurnKind.
Inductive t :=
| Character (character_id : Z)
| Respawn (character_id : Z).

#[global] Instance eq_dec : EqDecision t.
Proof. solve_decision. Defined.
End TurnKind.

Module Turn.
Record t := mk { time : Z; kind : TurnKind.t }.
End Turn.

Abbreviation turn_le := (λ a b : Turn.t, Turn.time a ≤ Turn.time b).

(** game.rs:44-58: the index of the first turn whose time exceeds the new
    turn's time ([len] when there is none), then [Vec::insert] there. *)
Definition add_turn (turn : Turn.t) (q : list Turn.t) : list Turn.t :=
  let index := from_option fst (length q)
                 (list_find (λ t, Turn.time turn < Turn.time t) q) in
  take index q ++ turn :: drop index q.

(** turn.rs:42-48: [turn_queue.remove(0)]; when its time is positive it is
    subtracted from every remaining turn; the popped turn gets time 0. *)
Definition pop_turn (q : list Turn.t) : option (Turn.t * list Turn.t) :=
  match q with
  | [] => None
  | t :: rest =>
      let rest' := if decide (0 < Turn.time t)
                   then (λ u, { u with Turn.time ::= λ v, v - Turn.time t }) <$> rest
                   else rest in
      Some ({ t with Turn.time := 0 }, rest')
  end.

(** character.rs:105-108: keep every turn but the [Character] turns of
    [target_id]. *)
Definition keep_turn (target_id : Z) (t : Turn.t) : bool :=
  match Turn.kind t with
  | TurnKind.Character character_id => bool_decide (character_id ≠ target_id)
  | TurnKind.Respawn _ => true
  end.

Definition retain_not_character (target_id : Z) (q : list Turn.t) : list Turn.t :=
  filter (λ t, keep_turn target_id t = true) q.

(** The reference definition: stable insertion into a sorted list, placed
    after every turn of equal or smaller time. *)
Fixpoint insert_turn (turn : Turn.t) (q : list Turn.t) : list Turn.t :=
  match q with
  | [] => [turn]
  | t :: rest =>
      if decide (Turn.time turn < Turn.time t) then turn :: t :: rest
      else t :: insert_turn turn rest
  end.

(** The queue invariant: sorted by time, every time within [0, 1]. *)
Definition queue_ok (q : list Turn.t) : Prop :=
  Sorted turn_le q ∧ Forall (λ t, 0 ≤ Turn.time t ≤ 1) q.

(** ** Theorems *)

Lemma add_turn_cons turn t rest :
  add_turn turn (t :: rest) =
  if decide (Turn.time turn < Turn.time t) then turn :: t :: rest
  else t :: add_turn turn rest.
Proof.
  unfold add_turn. simpl. case_decide; [done|].
  destruct (list_find _ rest) as [[i u]|]; reflexivity.
Qed.

(** The code's index search followed by [Vec::insert] is the stable
    sorted insertion. *)
Lemma add_turn_insert turn q : add_turn turn q = insert_turn turn q.
Proof.
  induction q as [|t rest IH]; [done|].
  rewrite add_turn_cons. simpl. case_decide; congruence.
Qed.

Lemma insert_turn_perm turn q : insert_turn turn q ≡ₚ turn :: q.
Proof.
  induction q as [|t rest IH]; simpl; [done|].
  case_decide; [done|]. rewrite IH. constructor.
Qed.

Lemma insert_turn_sorted turn q :
  Sorted turn_le q → Sorted turn_le (insert_turn turn q).
Proof.
  induction 1 as [|t rest Hs IH Hhd]; simpl; [by repeat constructor|].
  case_decide.
  - constructor; [by constructor|]. constructor. lia.
  - constructor; [done|]. destruct rest as [|u rest]; simpl.
    + constructor. lia.
    + inversion Hhd; subst. case_decide; constructor; simpl; lia.
Qed.

(** C1: inserting keeps the queue sorted and only adds the new turn. *)
Theorem add_turn_sorted turn q :
  Sorted turn_le q →
  Sorted turn_le (add_turn turn q) ∧ add_turn turn q ≡ₚ turn :: q.
Proof.
  rewrite add_turn_insert. split; [by apply insert_turn_sorted|].
  apply insert_turn_perm.
Qed.

(** In a sorted queue every turn is at least as late as the head. *)
Lemma sorted_head_le t rest :
  Sorted turn_le (t :: rest) → Forall (λ u, Turn.time t ≤ Turn.time u) rest.
Proof.
  intros Hs. apply Sorted_StronglySorted in Hs; [|intros ???; lia].
  by inversion Hs.
Qed.

(** Inserting into a sorted queue appends the new turn to the turns of its
    own time and leaves the turns of any other time in place. *)
Lemma insert_turn_filter_time c turn q :
  Sorted turn_le q →
  filter (λ t, Turn.time t = c) (insert_turn turn q) =
  filter (λ t, Turn.time t = c) q ++ (if decide (Turn.time turn = c) then [turn] else []).
Proof.
  induction 1 as [|t rest Hs IH Hhd]; [simpl; by rewrite filter_cons|].
  pose proof (sorted_head_le t rest (Sorted_cons Hs Hhd)) as Hall.
  simpl. destruct (decide (Turn.time turn < Turn.time t)) as [Hlt|Hlt];
    rewrite !filter_cons; [|rewrite IH; by destruct (decide (Turn.time t = c))].
  assert (Hnone : Turn.time turn = c → filter (λ u, Turn.time u = c) rest = []).
  { intros Hc. apply filter_all_false. eapply Forall_impl; [exact Hall|]. simpl. lia. }
  repeat case_decide; rewrite ?app_nil_r; try lia; [by rewrite Hnone|done..].
Qed.

Lemma sorted_filter_le_all (P : Turn.t → Prop) `{∀ t, Decision (P t)} q :
  Sorted turn_le q → Sorted turn_le (filter P q).
Proof.
  intros Hs. apply Sorted_StronglySorted in Hs; [|intros ???; lia].
  apply StronglySorted_Sorted. induction Hs as [|t rest Hs IH Hall]; simpl.
  - constructor.
  - rewrite filter_cons. case_decide; [|done]. constructor; [done|].
    by apply Forall_filter_keep.
Qed.

(** C2: on a sorted queue, insertion places the new turn after every turn
    with a time not greater than its own and before every later one: ties
    are served first-in first-out. *)
Theorem add_turn_fifo turn q :
  Sorted turn_le q →
  add_turn turn q =
  filter (λ t, Turn.time t ≤ Turn.time turn) q ++
  turn :: filter (λ t, Turn.time turn < Turn.time t) q.
Proof.
  rewrite add_turn_insert.
  induction 1 as [|t rest Hs IH Hhd]; [done|].
  simpl. rewrite !filter_cons.
  destruct (decide (Turn.time turn < Turn.time t)) as [Hlt|Hlt].
  - rewrite decide_False by lia.
    assert (Hall : Forall (λ u, Turn.time t ≤ Turn.time u) rest).
    { apply Sorted_StronglySorted in Hs; [|intros ???; lia].
      clear IH. destruct rest as [|u rest]; [done|].
      inversion Hhd; subst. constructor; [done|].
      inversion Hs; subst. eapply Forall_impl; [done|]. simpl. lia. }
    rewrite filter_all_false, filter_all_true; [done| |].
    + eapply Forall_impl; [done|]. simpl. lia.
    + eapply Forall_impl; [done|]. simpl. lia.
  - rewrite decide_True by lia. simpl. by f_equal.
Qed.

(** C3: the queue built by successive [add_turn] calls is the stable sort
    of the calls by time: it is sorted, holds exactly the inserted turns,
    and the turns of any one time come out in call order. *)
Theorem add_turns_stable l :
  let q := foldl (λ q t, add_turn t q) [] l in
  Sorted turn_le q ∧ q ≡ₚ l ∧
  ∀ c, filter (λ t, Turn.time t = c) q = filter (λ t, Turn.time t = c) l.
Proof.
  induction l as [|x l IH] using rev_ind; cbv zeta in *; [done|].
  destruct IH as (Hs & Hp & Hf). rewrite foldl_app. simpl. rewrite add_turn_insert.
  split_and!.
  - by apply insert_turn_sorted.
  - rewrite insert_turn_perm, Hp. apply Permutation_cons_append.
  - intros c. by rewrite insert_turn_filter_time, filter_app, Hf, filter_cons.
Qed.

Lemma retain_sorted target_id q :
  Sorted turn_le q → Sorted turn_le (retain_not_character target_id q).
Proof.
  apply sorted_filter_le_all.
Qed.

Lemma pop_turn_sorted_rest t0 rest :
  Sorted turn_le (t0 :: rest) → Forall (λ t, 0 ≤ Turn.time t ≤ 1) (t0 :: rest) →
  0 < Turn.time t0 → Forall (λ t, Turn.time t = 1) rest.
Proof.
  intros Hs Hb Hpos. apply Sorted_StronglySorted in Hs; [|intros ???; lia].
  inversion Hs as [|?? _ Hle]; subst. inversion Hb as [|?? Ht0 Hrest]; subst.
  apply Forall_forall. intros u Hu.
  rewrite Forall_forall in Hle, Hrest. specialize (Hle u Hu). specialize (Hrest u Hu).
  simpl in *. lia.
Qed.

Lemma sorted_const_time c q : Forall (λ t, Turn.time t = c) q → Sorted turn_le q.
Proof.
  intros Hc. apply StronglySorted_Sorted.
  induction Hc as [|u l Hu Hl IH]; constructor; [done|].
  eapply Forall_impl; [exact Hl|]. intros v Hv. unfold Turn.time in *. lia.
Qed.

Lemma queue_ok_add_turn turn q :
  queue_ok q → 0 ≤ Turn.time turn ≤ 1 → queue_ok (add_turn turn q).
Proof.
  intros [Hs Hb] Hturn. rewrite add_turn_insert.
  split; [by apply insert_turn_sorted|]. rewrite insert_turn_perm. by constructor.
Qed.

(** Popping a positive head subtracts it from the rest: every remaining
    time becomes 0. *)
Lemma queue_ok_pop_turn q t rest :
  queue_ok q → pop_turn q = Some (t, rest) → Turn.time t = 0 ∧ queue_ok rest.
Proof.
  intros [Hs Hb] Hpop. destruct q as [|t0 q]; [done|]. simpl in Hpop.
  injection Hpop as <- <-. split; [done|].
  pose proof (Sorted_inv Hs) as [Hs' _].
  case_decide as Hpos; [|split; [done|by inversion Hb]].
  pose proof (pop_turn_sorted_rest t0 q Hs Hb Hpos) as Hone.
  assert (Hzero : Forall (λ t, Turn.time t = 0)
            (fmap (λ u, { u with Turn.time ::= λ v, v - Turn.time t0 }) q)).
  { apply Forall_fmap. eapply Forall_impl; [exact Hone|]. simpl.
    inversion Hb; subst. intros u Hu. unfold Turn.time in *. lia. }
  split; [by eapply sorted_const_time|].
  eapply Forall_impl; [exact Hzero|]. simpl. lia.
Qed.

Lemma queue_ok_retain_not_character target_id q :
  queue_ok q → queue_ok (retain_not_character target_id q).
Proof.
  intros [Hs Hb]. split; [by apply retain_sorted|]. by apply Forall_filter_keep.
Qed.

(** C4: the scheduler's queue operations keep the queue sorted with every
    time in [0, 1]: inserting a turn of time 0 or 1 (the only times the
    code inserts), popping the head (which renormalises the rest and
    returns a head of time 0) and removing a defeated character's turns. *)
Theorem queue_ok_preserved q :
  queue_ok q →
  (∀ turn, 0 ≤ Turn.time turn ≤ 1 → queue_ok (add_turn turn q)) ∧
  (∀ t rest, pop_turn q = Some (t, rest) → Turn.time t = 0 ∧ queue_ok rest) ∧
  (∀ target_id, queue_ok (retain_not_character target_id q)).
Proof.
  intros Hq. split_and!; intros.
  - by apply queue_ok_add_turn.
  - by eapply queue_ok_pop_turn.
  - by apply queue_ok_retain_not_character.
Qed.

(** ** Concrete queues *)

Definition char_turn (time character_id : Z) : Turn.t :=
  Turn.mk time (TurnKind.Character character_id).

(** The scenario of the specification: inserting times 5, 2, 8, 2 into an
    empty queue gives 2, 2, 5, 8 with the two 2s in call order. *)
Example add_turn_spec_order :
  foldl (λ q t, add_turn t q) [] [char_turn 5 1; char_turn 2 2; char_turn 8 3; char_turn 2 4] =
  [char_turn 2 2; char_turn 2 4; char_turn 5 1; char_turn 8 3].
Proof. reflexivity. Qed.

Lemma add_turn_sorted_witness :
  Sorted turn_le [char_turn 2 2; char_turn 5 1] ∧
  Sorted turn_le (add_turn (char_turn 2 4) [char_turn 2 2; char_turn 5 1]).
Proof.
  assert (Hs : Sorted turn_le [char_turn 2 2; char_turn 5 1])
    by (repeat constructor; simpl; lia).
  split; [exact Hs|]. exact (proj1 (add_turn_sorted _ _ Hs)).
Defined.

Lemma add_turn_fifo_witness :
  Sorted turn_le [char_turn 2 2; char_turn 5 1; char_turn 8 3] ∧
  add_turn (char_turn 2 4) [char_turn 2 2; char_turn 5 1; char_turn 8 3] =
  [char_turn 2 2; char_turn 2 4; char_turn 5 1; char_turn 8 3].
Proof.
  assert (Hs : Sorted turn_le [char_turn 2 2; char_turn 5 1; char_turn 8 3])
    by (repeat constructor; simpl; lia).
  split; [exact Hs|]. rewrite (add_turn_fifo _ _ Hs). reflexivity.
Defined.

Lemma queue_ok_preserved_witness :
  queue_ok [char_turn 1 1; char_turn 1 2] ∧
  queue_ok (add_turn (char_turn 1 3) [char_turn 1 1; char_turn 1 2]) ∧
  pop_turn [char_turn 1 1; char_turn 1 2] = Some (char_turn 0 1, [char_turn 0 2]).
Proof.
  assert (Hq : queue_ok [char_turn 1 1; char_turn 1 2])
    by (split; repeat constructor; simpl; lia).
  split_and!; [exact Hq| |reflexivity].
  apply (proj1 (queue_ok_preserved _ Hq)). simpl. lia.
Defined.

Lemma retain_not_character_spec target_id q t :
  t ∈ retain_not_character target_id q ↔
  t ∈ q ∧ Turn.kind t ≠ TurnKind.Character target_id.
Proof.
  unfold retain_not_character. rewrite list_elem_of_filter. unfold keep_turn.
  destruct (Turn.kind t) as [c|c]; [rewrite bool_decide_eq_true|];
    split; intros [H1 H2]; split; try done; congruence.
Qed.
