(* ===== verification/QueueSpec.v ===== *)
(** * QueueSpec: what the turn queue promises, and that the code keeps it

    The scheduler stores relative times: [Game::add_turn] (game.rs:44-58)
    inserts a turn [delay] time units after the current one, and
    [TurnSystem::empty] (turn.rs:40-54) pops the head and subtracts its time
    from every remaining turn.  The specification asks for a stable
    time-ordered queue.  [AbsQueue] states that contract over absolute
    times: a clock and the pending turns in the order they were added; a
    push stamps the turn with [clock + delay], a pop takes the first pending
    turn whose time no other pending turn undercuts and moves the clock to
    it.  [abs_rel] relates a concrete queue to an abstract one (the
    concrete queue is the stable sort of the pending turns by time, read
    relative to the clock), and the theorems show that [add_turn] and
    [pop_turn] simulate [push] and [pop], hence that every sequence of
    queue operations pops the same turns in both. *)

From S2P Require Import Prelude TurnQueue.

Module AbsQueue.
Record t := mk { clock : Z; pending : list (Z * TurnKind.t) }.

(** A pending turn that no other pending turn precedes in time. *)
Definition earliest (l : list (Z * TurnKind.t)) (x : Z * TurnKind.t) : Prop :=
  Forall (λ y, x.1 ≤ y.1) l.

Definition push (delay : Z) (k : TurnKind.t) (a : t) : t :=
  mk (clock a) (pending a ++ [(clock a + delay, k)]).

Definition pop (a : t) : option (TurnKind.t * t) :=
  match list_find (earliest (pending a)) (pending a) with
  | Some (i, x) => Some (x.2, mk x.1 (delete i (pending a)))
  | None => None
  end.

(** The time of every pending turn is not before the clock. *)
Definition wf (a : t) : Prop := Forall (λ x, clock a ≤ x.1) (pending a).
End AbsQueue.

(** A pending turn read relative to the clock [c]. *)
Definition shift (c : Z) (x : Z * TurnKind.t) : Turn.t := Turn.mk (x.1 - c) x.2.

(** The refinement relation. *)
Definition abs_rel (q : list Turn.t) (a : AbsQueue.t) : Prop :=
  q = shift (AbsQueue.clock a) <$> sort_by_key fst (AbsQueue.pending a) ∧ AbsQueue.wf a.

(** The operations of the scheduler on its queue. *)
Inductive queue_op :=
| Push (delay : Z) (k : TurnKind.t)
| Pop.

(** The kinds popped by a sequence of operations on the concrete queue. *)
Fixpoint run_queue (ops : list queue_op) (q : list Turn.t) : list (option TurnKind.t) :=
  match ops with
  | [] => []
  | Push d k :: ops => run_queue ops (add_turn (Turn.mk d k) q)
  | Pop :: ops =>
      match pop_turn q with
      | Some (t, q) => Some (Turn.kind t) :: run_queue ops q
      | None => None :: run_queue ops q
      end
  end.

(** The same on the abstract queue. *)
Fixpoint run_abs (ops : list queue_op) (a : AbsQueue.t) : list (option TurnKind.t) :=
  match ops with
  | [] => []
  | Push d k :: ops => run_abs ops (AbsQueue.push d k a)
  | Pop :: ops =>
      match AbsQueue.pop a with
      | Some (k, a) => Some k :: run_abs ops a
      | None => None :: run_abs ops a
      end
  end.

(** ** Theorems *)

Lemma insert_turn_shift c x l :
  insert_turn (shift c x) (shift c <$> l) = shift c <$> insert_by fst x l.
Proof.
  induction l as [|y l IH]; [done|]. cbn [fmap list_fmap insert_turn insert_by].
  destruct (decide (x.1 < y.1)).
  - rewrite decide_True by (unfold shift; simpl; lia). done.
  - rewrite decide_False by (unfold shift; simpl; lia). by rewrite IH.
Qed.

Lemma add_turn_shift c x l :
  add_turn (shift c x) (shift c <$> l) = shift c <$> insert_by fst x l.
Proof. rewrite add_turn_insert. apply insert_turn_shift. Qed.

Lemma push_wf d k a : 0 ≤ d → AbsQueue.wf a → AbsQueue.wf (AbsQueue.push d k a).
Proof.
  unfold AbsQueue.wf, AbsQueue.push. cbn. intros Hd Ha.
  rewrite Forall_app, Forall_singleton. simpl. split; [done|lia].
Qed.

(** [add_turn] with a delay that is not negative implements [push]. *)
Lemma push_refines q a d k :
  abs_rel q a → 0 ≤ d → abs_rel (add_turn (Turn.mk d k) q) (AbsQueue.push d k a).
Proof.
  intros [-> Ha] Hd. split; [|by apply push_wf].
  change (AbsQueue.pending (AbsQueue.push d k a))
    with (AbsQueue.pending a ++ [(AbsQueue.clock a + d, k)]).
  change (AbsQueue.clock (AbsQueue.push d k a)) with (AbsQueue.clock a).
  rewrite sort_by_key_snoc, <-add_turn_shift. unfold shift at 2. simpl.
  do 2 f_equal. lia.
Qed.

(** [pop_turn] implements [pop]: both are empty together, and otherwise
    they take the same turn and keep related queues. *)
Lemma pop_refines q a :
  abs_rel q a →
  match pop_turn q, AbsQueue.pop a with
  | None, None => True
  | Some (t, q'), Some (k, a') => t = Turn.mk 0 k ∧ abs_rel q' a'
  | _, _ => False
  end.
Proof.
  intros [-> Ha]. unfold AbsQueue.pop.
  destruct (list_find _ _) as [[i x]|] eqn:Hf.
  - rewrite (sort_by_key_pick fst _ i x Hf). cbn.
    apply list_find_Some in Hf as (Hi & Hmin & _).
    assert (Hc : AbsQueue.clock a ≤ x.1)
      by (unfold AbsQueue.wf in Ha; rewrite Forall_forall in Ha;
          exact (Ha x (list_elem_of_lookup_2 _ _ _ Hi))).
    split; [done|]. split.
    + case_decide; [|replace x.1 with (AbsQueue.clock a) by lia].
      * rewrite <-list_fmap_compose. apply list_fmap_ext. intros _ y _.
        unfold shift. cbn.
        transitivity (Turn.mk (y.1 - AbsQueue.clock a - (x.1 - AbsQueue.clock a)) y.2);
          [reflexivity|f_equal; lia].
      * apply list_fmap_ext. intros _ y _. done.
    + unfold AbsQueue.wf. cbn. by apply Forall_delete.
  - apply list_find_None in Hf. destruct (sort_by_key fst _) as [|y l] eqn:Hs; [done|].
    exfalso. pose proof (sort_by_key_head fst _ y l Hs) as [Hy Hall].
    rewrite Forall_forall in Hf. exact (Hf y Hy Hall).
Qed.

Lemma pop_wf a k a' : AbsQueue.wf a → AbsQueue.pop a = Some (k, a') → AbsQueue.wf a'.
Proof.
  unfold AbsQueue.pop. destruct (list_find _ _) as [[i x]|] eqn:Hf; [|done].
  intros _ [= _ <-]. apply list_find_Some in Hf as (_ & Hmin & _).
  unfold AbsQueue.wf. cbn. by apply Forall_delete.
Qed.

(** From related queues, every sequence of pushes with delays that are not
    negative and of pops returns the same turns on the code's relative-time
    queue as on the abstract queue. *)
Lemma queue_refines_gen ops q a :
  abs_rel q a → Forall (λ o, match o with Push d _ => 0 ≤ d | Pop => True end) ops →
  run_queue ops q = run_abs ops a.
Proof.
  intros Hr Hops. revert q a Hr. induction Hops as [|o ops Ho Hops IH]; intros q a Hr; [done|].
  destruct o as [d k|]; simpl.
  - apply IH. by apply push_refines.
  - pose proof (pop_refines q a Hr) as Hp.
    destruct (pop_turn q) as [[t q']|], (AbsQueue.pop a) as [[k a']|]; try done;
      [destruct Hp as [-> Hr']|]; f_equal; by apply IH.
Qed.

Lemma strongly_sorted_before {A} (R : A → A → Prop) acc x l :
  StronglySorted R (acc ++ x :: l) → Forall (λ y, R y x) acc.
Proof.
  induction acc as [|y acc IH]; simpl; intros Hs; [done|].
  inversion Hs as [|? ? Hs' Hall]; subst. constructor; [|by apply IH].
  rewrite Forall_app, Forall_cons in Hall. by destruct Hall as (_ & ? & _).
Qed.

Lemma insert_by_back {A} (key : A → Z) x l :
  Forall (λ y, key y ≤ key x) l → insert_by key x l = l ++ [x].
Proof. induction 1; simpl; [done|]. rewrite decide_False by lia. by f_equal. Qed.

(** Sorting a sorted list changes nothing. *)
Lemma sort_by_key_sorted_id {A} (key : A → Z) l :
  Sorted (λ a b, key a ≤ key b) l → sort_by_key key l = l.
Proof.
  intros Hs. apply Sorted_StronglySorted in Hs; [|intros ???; lia].
  unfold sort_by_key. change l with ([] ++ l) in Hs |- * at 2. revert Hs.
  generalize (@nil A) as acc. induction l as [|x l IH]; intros acc Hs; simpl; [by rewrite app_nil_r|].
  rewrite insert_by_back by exact (strongly_sorted_before (λ a b, key a ≤ key b) acc x l Hs).
  rewrite IH; [by rewrite <-app_assoc|]. by rewrite <-app_assoc.
Qed.

(** A queue read at clock 0. *)
Definition unshift (t : Turn.t) : Z * TurnKind.t := (Turn.time t, Turn.kind t).

Lemma sorted_unshift q : Sorted turn_le q → Sorted (λ a b, fst a ≤ fst b) (unshift <$> q).
Proof.
  induction 1 as [|t q Hs IH Hhd]; simpl; constructor; [done|].
  destruct Hhd; constructor. done.
Qed.

(** Every queue that satisfies the scheduler's invariant [queue_ok] is
    related to the abstract queue of its own turns at clock 0. *)
Lemma queue_ok_abs_rel q : queue_ok q → abs_rel q (AbsQueue.mk 0 (unshift <$> q)).
Proof.
  intros [Hs Ht]. split; cbn [AbsQueue.pending AbsQueue.clock].
  - rewrite sort_by_key_sorted_id by (by apply sorted_unshift).
    rewrite <-list_fmap_compose, <-(list_fmap_id q) at 1. apply list_fmap_ext.
    intros _ [tm k] _. unfold shift. cbn. f_equal. lia.
  - unfold AbsQueue.wf. cbn. apply Forall_fmap. eapply Forall_impl; [exact Ht|]. simpl. lia.
Qed.

(** C5: every queue the scheduler can hold (sorted, times in [0, 1]) pops,
    under any sequence of pushes with delays that are not negative and of
    pops, exactly the turns the abstract stable priority queue of its own
    turns pops. *)
Theorem queue_ok_refines q ops :
  queue_ok q → Forall (λ o, match o with Push d _ => 0 ≤ d | Pop => True end) ops →
  run_queue ops q = run_abs ops (AbsQueue.mk 0 (unshift <$> q)).
Proof. intros Hq Hops. apply queue_refines_gen; [by apply queue_ok_abs_rel|exact Hops]. Qed.

(** The witness: a queue holding one turn of character 3, then character
    1 queued one unit later and character 2 at once; the pops return 3, 2,
    1. *)
Definition sample_ops : list queue_op :=
  [Push 1 (TurnKind.Character 1); Push 0 (TurnKind.Character 2); Pop; Pop; Pop].

Lemma queue_ok_refines_witness :
  run_queue sample_ops [Turn.mk 0 (TurnKind.Character 3)] =
  run_abs sample_ops (AbsQueue.mk 0 (unshift <$> [Turn.mk 0 (TurnKind.Character 3)])) ∧
  run_queue sample_ops [Turn.mk 0 (TurnKind.Character 3)] =
  [Some (TurnKind.Character 3); Some (TurnKind.Character 2); Some (TurnKind.Character 1)].
Proof.
  split; [|reflexivity].
  apply queue_ok_refines; [split; repeat constructor; simpl; lia|repeat constructor; lia].
Defined.
