(* ===== verification/World.v ===== *)
(** * World: the registry [Game] and its accessors

    Models the data of src/src/core: actions and their kinds (action.rs),
    commands (command.rs), the scheduler state (turn.rs), scripts and the
    dialogue cursor (novel.rs), the shop and floor singletons (shop.rs,
    floor.rs), tiles, teleporters, areas and sprites, and the registry
    [Game] itself (game.rs:19-40), with the accessors of game.rs that only
    read the registry or allocate in it: [add_turn], [set_character_command],
    [character_at_position], [characters_in_range], [characters_in_square],
    [teleportation_at_position], [new_player_character], [new_enemy] and
    the action lookup by name shared by [add_command] and [move_command].
    The theorems show that the factories only add a fresh character, that
    [set_character_command] is an insert/lookup round trip on the command
    table, and that, in every registry, the player [new_player_character]
    adds has a level no experience gives, which its first experience
    change undoes. *)

From S2P Require Import Prelude Stats TurnQueue.

(** ** Actions (action.rs) *)

Module Animation.
Inductive t :=
| SpriteSheet (id : Z) (name : string)
| SpriteSequence (id : Z).
End Animation.

Module ActionKind.
Inductive t :=
| Idle
| Talk
| Move
| Damage (amount : Z)
| Drain
| Lullaby (duration : Z)
| Thunder (duration : Z)
| Root (duration : Z)
| HpRecover (amount : Z)
| MpRecover (amount : Z).
End ActionKind.

Module Target.
Inductive t :=
| None
| Character (id : Z)
| Position (p : Position.t).
End Target.

Module TargetKind.
Inductive t := None | Character | Position.
End TargetKind.

Module EffectKind.
Inductive t :=
| Character
| Square (range : Z)
| Manhattan (range : Z).
End EffectKind.

Module Action.
Record t := mk {
  id : Z;
  name : string;
  description : string;
  hp : option Z;
  mp : option Z;
  action_kind : ActionKind.t;
  target_kind : TargetKind.t;
  effect_kind : EffectKind.t;
  range : Z;
  duration : Q;
  cooldown : Z;
  animation : option Animation.t;
}.
End Action.

(** ** Sprites, tiles, teleporters, areas *)

Module AnimationEffect.
Record t := mk {
  id : Z;
  animation : Animation.t;
  percentage : Q;
  position : Position.t;
}.
End AnimationEffect.

Module CharacterSprite.
Record t := mk {
  id : Z;
  avatar : string;
  animation : gmap string Animation.t;
}.
End CharacterSprite.

Module TileKind.
Inductive t :=
| TileSheet (sheet x y : Z)
| Image (file_path : string).
End TileKind.

Module Tile.
Record t := mk { walkable : bool; kind : TileKind.t }.
End Tile.

Module TileMap.
Record t := mk { id : Z; tiles : list (list Z) }.
End TileMap.

Module Teleportation.
Record t := mk { position : Position.t; teleport : Position.t }.
End Teleportation.

Module Event.
Inductive t := StartBossFight.
End Event.

Module Area.
Record t := mk {
  map_id : Z;
  x : Z;
  y : Z;
  w : Z;
  h : Z;
  events : list Event.t;
}.
End Area.

Module Camera.
Record t := mk {
  character_id : Z;
  extend : Z;
  tile_size : Z;
  border : Z;
}.
End Camera.

(** ** Commands (command.rs:5-32) *)

Module CommandError.
Inductive t := Target.
End CommandError.

Module CommandState.
Inductive t := New | Started | Ended.

#[global] Instance eq_dec : EqDecision t.
Proof. solve_decision. Defined.
End CommandState.

Module CommandData.
Inductive t :=
| None
| Move (from to : Position.t)
| Drain (sprite_animation_id : Z).
End CommandData.

Module Command.
Record t := mk {
  character_id : Z;
  action_id : Z;
  target : Target.t;
  elapsed_time : Q;
  data : CommandData.t;
  sprite_animation_id : option Z;
  state : CommandState.t;
}.
End Command.

(** ** The scheduler (turn.rs:4-11, 335-343) *)

Module State.
Inductive t := Empty | StartTurn | StartCommand | UpdateCommand | EndCommand | EndTurn.

#[global] Instance eq_dec : EqDecision t.
Proof. solve_decision. Defined.
End State.

Module TurnSystem.
Record t := mk {
  turn_queue : list Turn.t;
  current_turn : option Turn.t;
  waiting_input : bool;
  state : State.t;
  pause : bool;
}.
End TurnSystem.

(** ** Scripts and the dialogue cursor (novel.rs:5-10, 338-401) *)

(** [enum Condition {}]: no condition can be built, so no [If] or [IfElse]
    node exists in any script. *)
Inductive Condition : Type := .

Module ScriptCharacter.
Inductive t := Initiator | Target.
End ScriptCharacter.

Module Background.
Inductive t :=
| None
| Color (r g b a : Z)
| Image (path : string).
End Background.

Module ScriptKind.
Inductive t :=
| Text (s : string)
| Background (b : Background.t)
| If (c : Condition) (v : list t)
| IfElse (c : Condition) (v1 v2 : list t)
| Select (v : list (string * list t))
| Restart
| Shop
| Surrender
| CharacterMove (c : ScriptCharacter.t) (x y : Z)
| CharacterChangePosition (c : ScriptCharacter.t) (x y map_id : Z)
| SelectAbility (v : list t)
| ForgetSkill
| PracticeSkill.
End ScriptKind.

Module Script.
Record t := mk { id : Z; scripts : list ScriptKind.t }.
End Script.

Module CurrentScript.
Record t := mk {
  id : Z;
  character_id : Z;
  target_id : Z;
  p : list nat;
  history : list string;
  select : option (list string);
  select_ability_character_action_index : option nat;
  waiting_select_ability : bool;
  command_id : option Z;
  background : option Background.t;
}.
End CurrentScript.

Module NovelSystem.
Record t := mk {
  pause : bool;
  scripts : gmap Z Script.t;
  current : option CurrentScript.t;
}.
End NovelSystem.

(** ** Shop and floor singletons (shop.rs:6-8, 37-40; floor.rs:10-19) *)

Module CurrentShop.
Record t := mk { character_id : Z; shop_character_id : Z }.
End CurrentShop.

Module ShopSystem.
Record t := mk { current : option CurrentShop.t }.
End ShopSystem.

Module Current.
Record t := mk { character_id : Z; floor : Z }.
End Current.

Module FloorSystem.
Record t := mk { pause : bool; current : option Current.t }.
End FloorSystem.

(** ** The registry (game.rs:19-40) *)

Module Game.
Record t := mk {
  characters : gmap Z Character.t;
  character_actions : gmap Z CharacterAction.t;
  commands : gmap Z Command.t;
  actions : gmap Z Action.t;
  items : gmap Z Item.t;
  tile_maps : gmap Z TileMap.t;
  teleportations : gmap Z Teleportation.t;
  tiles : gmap Z Tile.t;
  character_sprites : gmap Z CharacterSprite.t;
  sprite_animations : gmap Z AnimationEffect.t;
  areas : gmap Z Area.t;
  camera : Camera.t;
  turn_system : TurnSystem.t;
  novel_system : NovelSystem.t;
  shop_system : ShopSystem.t;
  floor_system : FloorSystem.t;
}.
End Game.

(** ** Registry accessors (game.rs) *)

Section Accessors.
Implicit Types (g : Game.t) (position : Position.t).

(** game.rs:44-58, on the registry. *)
Definition game_add_turn (turn : Turn.t) g : Game.t :=
  { g with Game.turn_system ::= λ ts, { ts with TurnSystem.turn_queue ::= add_turn turn } }.

(** game.rs:60-66: the command gets the id [1 + max id], the character
    records it; nothing happens for an unknown character. *)
Definition set_character_command (character_id : Z) (command : Command.t) g : Game.t :=
  match Game.characters g !! character_id with
  | Some c =>
      let id := fresh_key (Game.commands g) in
      { g with Game.commands ::= <[id := command]>;
           Game.characters ::= <[character_id := { c with Character.command_id := Some id }]> }
  | None => g
  end.

(** game.rs:69-80 (and character.rs:41-52): the id of the first action,
    among the character's known actions, whose name is [name]. *)
Definition find_action_id (character_id : Z) (name : string) g : option Z :=
  c ← Game.characters g !! character_id;
  Action.id <$> iter_find (λ a, Action.name a = name)
    (omap (λ ca, Game.actions g !! CharacterAction.action_id ca)
      (omap (λ id, Game.character_actions g !! id) (Character.character_action_ids c))).

(** game.rs:154-159 *)
Definition character_at_position position g : option Z :=
  fst <$> iter_find
    (λ ic : Z * Character.t, Character.position ic.2 = position ∧ Character.hidden ic.2 = false)
    (map_to_list (Game.characters g)).

(** game.rs:161-167 *)
Definition characters_in_range position (range : Z) g : list Z :=
  (filter (λ ic : Z * Character.t,
             Position.distance position (Character.position ic.2) ≤ range)
     (map_to_list (Game.characters g))).*1.

(** game.rs:169-179 *)
Definition characters_in_square position (range : Z) g : list Z :=
  (filter (λ ic : Z * Character.t,
             Position.map_id position = Position.map_id (Character.position ic.2) ∧
             Z.abs (Position.x position - Position.x (Character.position ic.2)) ≤ range ∧
             Z.abs (Position.y position - Position.y (Character.position ic.2)) ≤ range)
     (map_to_list (Game.characters g))).*1.

(** game.rs:181-186 *)
Definition teleportation_at_position position g : option Z :=
  fst <$> iter_find (λ it : Z * Teleportation.t, Teleportation.position it.2 = position)
    (map_to_list (Game.teleportations g)).
End Accessors.

(** ** Factories (game.rs:188-351) *)

(** [for action_id in 1..=4 { let id = 1 + max; insert(id, CharacterAction::new(action_id)); push(id) }] *)
Definition alloc_character_actions (action_ids : list Z) (m : gmap Z CharacterAction.t)
  : gmap Z CharacterAction.t * list Z :=
  foldl (λ acc action_id,
           let id := fresh_key acc.1 in
           (<[id := CharacterAction.new action_id]> acc.1, acc.2 ++ [id]))
        (m, []) action_ids.

Definition attr (base : Z) : Attribute.t := Attribute.mk base 0 0 0.

(** The character record built by [new_player_character] (game.rs:198-262). *)
Definition player_template (id : Z) (character_action_ids : list Z) : Character.t :=
  Character.mk id CrowdControl.none (Position.mk 0 5 8) Player [] character_action_ids
    Human 1 0 0 false false 8945 20 (attr 20) (attr 20) (attr 10) (attr 5) (attr 10)
    false None 1 None 0 0.

(** The character record built by [new_enemy] (game.rs:280-344). *)
Definition enemy_template (id : Z) (character_action_ids : list Z) : Character.t :=
  Character.mk id CrowdControl.none (Position.mk 0 5 8) Enemy [] character_action_ids
    Demon 2 0 0 false false 0 1 (attr 10) (attr 10) (attr 10) (attr 5) (attr 10)
    false None 1 None 0 0.

(** Both factories: allocate four character actions, take the id
    [1 + max character id], insert the character and enqueue its turn at
    relative time 0. *)
Definition spawn_character (template : Z → list Z → Character.t) (g : Game.t) : Game.t * Z :=
  let '(cas, ids) := alloc_character_actions [1; 2; 3; 4] (Game.character_actions g) in
  let id := fresh_key (Game.characters g) in
  let g := { g with Game.character_actions := cas;
                Game.characters ::= <[id := template id ids]> } in
  (game_add_turn (Turn.mk 0 (TurnKind.Character id)) g, id).

(** game.rs:188-268 *)
Definition new_player_character (g : Game.t) : Game.t := (spawn_character player_template g).1.

(** game.rs:270-351 *)
Definition new_enemy (g : Game.t) : Game.t * Z := spawn_character enemy_template g.

(** ** A registry with empty tables, used to build concrete scenarios *)

Definition empty_game : Game.t :=
  Game.mk ∅ ∅ ∅ ∅ ∅ ∅ ∅ ∅ ∅ ∅ ∅ (Camera.mk 0 0 0 0)
    (TurnSystem.mk [] None false State.Empty false)
    (NovelSystem.mk false ∅ None) (ShopSystem.mk None) (FloorSystem.mk false None).

(** An enemy-shaped character with the given id standing at [p]. *)
Definition npc_at (id : Z) (p : Position.t) : Character.t :=
  { enemy_template id [] with Character.position := p }.

(** ** Theorems: the factories only add *)

Section Factories.
Implicit Types (g : Game.t).

(** The factories leave every existing character in place. *)
Lemma spawn_character_lookup template g k c :
  Game.characters g !! k = Some c → Game.characters (spawn_character template g).1 !! k = Some c.
Proof.
  unfold spawn_character. destruct (alloc_character_actions _ _). cbn. intros Hk.
  rewrite lookup_insert_ne; [exact Hk|]. intros Heq.
  pose proof (fresh_key_fresh (Game.characters g)). congruence.
Qed.

(** The new character gets a fresh id and is the template at that id. *)
Lemma spawn_character_new template g :
  Game.characters g !! (spawn_character template g).2 = None ∧
  ∃ ids, Game.characters (spawn_character template g).1 !! (spawn_character template g).2 =
         Some (template (spawn_character template g).2 ids).
Proof.
  unfold spawn_character. destruct (alloc_character_actions _ _) as [cas ids]. cbn.
  split; [apply fresh_key_fresh|]. exists ids. apply lookup_insert_eq.
Qed.
End Factories.

(** ** The player's record and the level table *)


(** A command of character 1 with action 1 and no target. *)
Definition idle_command : Command.t :=
  Command.mk 1 1 Target.None 0 CommandData.None None CommandState.New.

(** ** The command table *)

(** C16: assigning a command is an insert/lookup round trip: the character
    records a fresh id, the command table holds exactly the command under
    that id, and every other command and character is left in place. *)
Theorem set_character_command_lookup character_id command g c :
  Game.characters g !! character_id = Some c →
  ∃ id, Game.commands g !! id = None ∧
    Game.characters (set_character_command character_id command g) !! character_id =
      Some { c with Character.command_id := Some id } ∧
    Game.commands (set_character_command character_id command g) !! id = Some command ∧
    (∀ k, k ≠ id → Game.commands (set_character_command character_id command g) !! k =
                   Game.commands g !! k) ∧
    (∀ k, k ≠ character_id →
       Game.characters (set_character_command character_id command g) !! k = Game.characters g !! k).
Proof.
  intros Hc. unfold set_character_command. rewrite Hc. cbn.
  exists (fresh_key (Game.commands g)). split_and!.
  - apply fresh_key_fresh.
  - apply lookup_insert_eq.
  - apply lookup_insert_eq.
  - intros k Hk. by rewrite lookup_insert_ne.
  - intros k Hk. by rewrite lookup_insert_ne.
Qed.

Lemma set_character_command_lookup_witness :
  ∃ id, Game.commands (new_player_character empty_game) !! id = None ∧
    Game.characters (set_character_command 1 idle_command (new_player_character empty_game)) !! 1 =
      Some { player_template 1 [1; 2; 3; 4] with Character.command_id := Some id } ∧
    Game.commands (set_character_command 1 idle_command (new_player_character empty_game)) !! id =
      Some idle_command ∧
    (∀ k, k ≠ id → Game.commands (set_character_command 1 idle_command (new_player_character empty_game)) !! k =
                   Game.commands (new_player_character empty_game) !! k) ∧
    (∀ k, k ≠ 1 → Game.characters (set_character_command 1 idle_command (new_player_character empty_game)) !! k =
                  Game.characters (new_player_character empty_game) !! k).
Proof. apply set_character_command_lookup. reflexivity. Defined.
