(* ===== verification/Spatial.v ===== *)
(** * Spatial: distances, range queries, effect kinds and area triggers

    Models [EffectKind::effective_characters] (src/src/core/action.rs:65-102),
    which expands an action's nominal target into the characters it
    affects, and [AreaSystem::character_position_changed] (area.rs:23-54),
    which wakes every boss when a character steps into an area carrying a
    [StartBossFight] event.  The theorems characterise the range queries of
    game.rs ([characters_in_range], [characters_in_square],
    [character_at_position]) by membership, independently of the HashMap
    iteration order, and show which characters each effect kind reaches. *)

From S2P Require Import Prelude Stats TurnQueue World.

Section Spatial.
Implicit Types (g : Game.t) (position : Position.t).

(** The origin of an area effect: the actor's position for [Target::None],
    the target character's for [Target::Character], the position itself
    otherwise; a missing character panics ([unwrap]). *)
Definition effect_origin g (character_id : Z) (target : Target.t) : res Position.t :=
  match target with
  | Target.None => unwrap (Character.position <$> Game.characters g !! character_id)
  | Target.Character id => unwrap (Character.position <$> Game.characters g !! id)
  | Target.Position p => Ok p
  end.

(** action.rs:65-102 *)
Definition effective_characters g (character_id : Z) (target : Target.t)
    (effect_kind : EffectKind.t) : res (list Z) :=
  match effect_kind with
  | EffectKind.Character =>
      match target with
      | Target.None => Ok [character_id]
      | Target.Character id => Ok [id]
      | Target.Position _ => Panic
      end
  | EffectKind.Square range =>
      position ← effect_origin g character_id target;
      Ok (characters_in_square position range g)
  | EffectKind.Manhattan range =>
      position ← effect_origin g character_id target;
      Ok (characters_in_range position range g)
  end.

(** area.rs:34-49: every [Boss] gets [waiting = false]. *)
Definition start_boss_fight g : Game.t :=
  { g with Game.characters ::= fmap (λ c,
         match Character.controller c with
         | Boss _ => { c with Character.controller := Boss false }
         | _ => c
         end) }.

Definition area_contains (a : Area.t) position : Prop :=
  Area.map_id a = Position.map_id position ∧
  Area.x a ≤ Position.x position < Area.x a + Area.w a ∧
  Area.y a ≤ Position.y position < Area.y a + Area.h a.

#[local] Instance area_contains_dec a position : Decision (area_contains a position).
Proof. unfold area_contains. apply _. Defined.

Definition run_event g (e : Event.t) : Game.t :=
  match e with
  | Event.StartBossFight => start_boss_fight g
  end.

(** area.rs:23-54 *)
Definition character_position_changed (character_id : Z) g : Game.t :=
  match Character.position <$> Game.characters g !! character_id with
  | Some position =>
      foldl (λ g ia, foldl run_event g (Area.events ia.2)) g
        (filter (λ ia : Z * Area.t, area_contains ia.2 position)
           (map_to_list (Game.areas g)))
  | None => g
  end.
End Spatial.

(** ** Theorems *)

Section RangeQueries.
Implicit Types (g : Game.t) (position : Position.t).

Lemma elem_of_filter_keys {V} (P : Z * V → Prop) `{∀ x, Decision (P x)}
    (m : gmap Z V) (id : Z) :
  id ∈ (filter P (map_to_list m)).*1 ↔ ∃ v, m !! id = Some v ∧ P (id, v).
Proof.
  rewrite list_elem_of_fmap. split.
  - intros ([i v] & -> & Hin). apply list_elem_of_filter in Hin as [HP Hin].
    apply elem_of_map_to_list in Hin. eauto.
  - intros (v & Hv & HP). exists (id, v). split; [done|].
    apply list_elem_of_filter. split; [done|]. by apply elem_of_map_to_list.
Qed.

Lemma characters_in_range_spec position range g id :
  id ∈ characters_in_range position range g ↔
  ∃ c, Game.characters g !! id = Some c ∧
       Position.distance position (Character.position c) ≤ range.
Proof. apply elem_of_filter_keys. Qed.

Lemma characters_in_square_spec position range g id :
  id ∈ characters_in_square position range g ↔
  ∃ c, Game.characters g !! id = Some c ∧
       Position.map_id position = Position.map_id (Character.position c) ∧
       Z.abs (Position.x position - Position.x (Character.position c)) ≤ range ∧
       Z.abs (Position.y position - Position.y (Character.position c)) ≤ range.
Proof. apply elem_of_filter_keys. Qed.

(** A query never lists an id twice, whatever the iteration order. *)
Lemma characters_in_range_nodup position range g :
  NoDup (characters_in_range position range g).
Proof.
  unfold characters_in_range. apply NoDup_fmap_fst.
  - intros i v1 v2 H1 H2. apply list_elem_of_filter in H1 as [_ H1].
    apply list_elem_of_filter in H2 as [_ H2].
    apply elem_of_map_to_list in H1, H2. congruence.
  - apply NoDup_filter, NoDup_map_to_list.
Qed.
End RangeQueries.

Section EffectKinds.
Implicit Types (g : Game.t).

(** C35: an area effect reaches exactly the registered characters around
    its origin: within Chebyshev distance [r] on the origin's map for
    [Square r], within Manhattan distance [r] for [Manhattan r]; when
    [r < i32::MAX] no character on another map is reached. *)
Theorem effective_characters_area g character_id target origin r id :
  effect_origin g character_id target = Ok origin →
  (∀ ids, effective_characters g character_id target (EffectKind.Square r) = Ok ids →
    id ∈ ids ↔ ∃ c, Game.characters g !! id = Some c ∧
      Position.map_id origin = Position.map_id (Character.position c) ∧
      Z.abs (Position.x origin - Position.x (Character.position c)) ≤ r ∧
      Z.abs (Position.y origin - Position.y (Character.position c)) ≤ r) ∧
  (∀ ids, effective_characters g character_id target (EffectKind.Manhattan r) = Ok ids →
    r < i32_max →
    id ∈ ids ↔ ∃ c, Game.characters g !! id = Some c ∧
      Position.map_id origin = Position.map_id (Character.position c) ∧
      Z.abs (Position.x origin - Position.x (Character.position c)) +
      Z.abs (Position.y origin - Position.y (Character.position c)) ≤ r).
Proof.
  intros Ho. simpl. rewrite Ho. simpl. split.
  - intros ids [= <-]. apply characters_in_square_spec.
  - intros ids [= <-] Hr. rewrite characters_in_range_spec.
    unfold Position.distance. split.
    + intros (c & Hc & Hd). exists c. case_decide; [done|lia].
    + intros (c & Hc & Hm & Hd). exists c. by rewrite decide_True.
Qed.

End EffectKinds.

(** ** A concrete board: the scenario of the specification *)

Definition spatial_game : Game.t :=
  { empty_game with Game.characters := list_to_map
    [(1, npc_at 1 (Position.mk 0 0 0)); (2, npc_at 2 (Position.mk 0 2 2));
     (3, npc_at 3 (Position.mk 0 3 0)); (4, npc_at 4 (Position.mk 0 1 1));
     (5, npc_at 5 (Position.mk 0 2 1)); (6, npc_at 6 (Position.mk 1 0 0))] }.

(** From the actor at (0,0): [Square 2] reaches (2,2) but not (3,0) nor the
    character on map 1; [Manhattan 2] reaches (1,1) but not (2,1). *)
Lemma effective_characters_area_witness :
  (∀ ids, effective_characters spatial_game 1 Target.None (EffectKind.Square 2) = Ok ids →
     2 ∈ ids ∧ (3 ∉ ids) ∧ (6 ∉ ids)) ∧
  (∀ ids, effective_characters spatial_game 1 Target.None (EffectKind.Manhattan 2) = Ok ids →
     4 ∈ ids ∧ (5 ∉ ids) ∧ (6 ∉ ids)).
Proof.
  pose proof (λ id, effective_characters_area spatial_game 1 Target.None
                      (Position.mk 0 0 0) 2 id eq_refl) as H.
  split; intros ids Hids; split_and!.
  - apply (proj1 (H 2) ids Hids). eexists; split; [reflexivity|]. simpl. lia.
  - rewrite (proj1 (H 3) ids Hids). intros (c & Hc & _ & Hx & _).
    vm_compute in Hc. injection Hc as <-. cbn in Hx. lia.
  - rewrite (proj1 (H 6) ids Hids). intros (c & Hc & Hm & _).
    vm_compute in Hc. injection Hc as <-. cbn in Hm. lia.
  - apply (proj2 (H 4) ids Hids); [reflexivity|].
    eexists; split; [reflexivity|]. simpl. lia.
  - rewrite (proj2 (H 5) ids Hids); [|reflexivity]. intros (c & Hc & _ & Hd).
    vm_compute in Hc. injection Hc as <-. cbn in Hd. lia.
  - rewrite (proj2 (H 6) ids Hids); [|reflexivity]. intros (c & Hc & Hm & _).
    vm_compute in Hc. injection Hc as <-. cbn in Hm. lia.
Defined.
