(* ===== verification/Command.v ===== *)
(** * Command: the lifecycle of one action in progress

    Models src/src/core/command.rs ([Command::new], [start], [update],
    [end]), [Character::take_damage] and [Character::move_command]
    (character.rs:34-62, 90-110) and the command entry points of game.rs
    ([add_command], [add_player_command]).  A command goes New -> Started
    (upfront hp/mp cost) -> Ended (effect resolution).  Ending a command
    calls into two other components: a Talk opens a dialogue
    ([Game::start_novel]) and a Move relocates the actor through
    [Game::character_set_position], which may cross a teleporter.  Those two
    calls are the fields of the interface [Hooks]; [command_end] is defined
    against any [Hooks], and the development ties the knot in [Engine]. *)

From S2P Require Import Prelude Stats TurnQueue World Spatial.

(** The operations the command lifecycle (and the dialogue interpreter)
    call in other components: [start_novel id character_id target_id]
    (game.rs:95-98) and [set_position character_id position]
    (game.rs:146-153). *)
Record Hooks := {
  start_novel : Z → Z → Z → Game.t → res Game.t;
  set_position : Z → Position.t → Game.t → res Game.t;
}.

(** Hooks that leave the registry alone, for the concrete scenarios whose
    runs never reach a hook. *)
Definition inert_hooks : Hooks :=
  {| start_novel := λ _ _ _ g, Ok g; set_position := λ _ _ g, Ok g |}.

(** The turn-queue invariant of [TurnQueue], read on the registry. *)
Definition queue_inv (g : Game.t) : Prop :=
  queue_ok (TurnSystem.turn_queue (Game.turn_system g)).

(** What a client of [Hooks] may assume of them: both calls keep [P]. *)
Definition hooks_keep (P : Game.t → Prop) (hk : Hooks) : Prop :=
  (∀ id character_id target_id g g', P g →
     start_novel hk id character_id target_id g = Ok g' → P g') ∧
  (∀ character_id position g g', P g → set_position hk character_id position g = Ok g' → P g').

Section Registry.
Implicit Types (g : Game.t).

(** [game.characters.get_mut(&id).unwrap()] followed by an in-place
    mutation. *)
Definition modify_character (id : Z) (f : Character.t → Character.t) g : res Game.t :=
  c ← unwrap (Game.characters g !! id);
  Ok ({ g with Game.characters ::= <[id := f c]> }).

(** character.rs:92-96: the damage is added, and a hit that brings the
    current hp to -1000 or below kills (dead and hidden). *)
Definition hit (damage : Z) (target : Character.t) : Character.t :=
  let target := { target with Character.hp ::= λ a, { a with Attribute.damage ::= Z.add damage } } in
  if negb (Character.dead target) && bool_decide (Attribute.current (Character.hp target) ≤ -1000)
  then { target with Character.dead := true; Character.hidden := true }
  else target.

(** character.rs:97: the hit defeats a character not yet defeated whose
    current hp is 0 or below. *)
Definition defeats (target : Character.t) : bool :=
  negb (Character.defeated target) && bool_decide (Attribute.current (Character.hp target) ≤ 0).

(** character.rs:90-110 *)
Definition take_damage (damage target_id source_id : Z) g : res Game.t :=
  target ← unwrap (Game.characters g !! target_id);
  let target := hit damage target in
  if defeats target then
    let exp := Character.kill_experience target in
    let target := { target with Character.defeated := true; Character.hidden := true } in
    let g := { g with Game.characters ::= <[target_id := target]> } in
    g ← modify_character source_id (Character.gain_exp exp) g;
    Ok ({ g with Game.turn_system ::= λ ts,
               { ts with TurnSystem.turn_queue ::= retain_not_character target_id } })
  else Ok ({ g with Game.characters ::= <[target_id := target]> }).

(** The [data] payload of command.rs:43-89, with the sprite record a
    Drain spawns; [inl] is the early [return Err(CommandError::Target)]. *)
Definition command_data g (character : Character.t) (action : Action.t) (target : Target.t)
  : res (Game.t * (CommandError.t + CommandData.t)) :=
  match Action.action_kind action with
  | ActionKind.Move =>
      match target with
      | Target.Position position =>
          Ok (g, inr (CommandData.Move (Character.position character) position))
      | _ => Ok (g, inl CommandError.Target)
      end
  | ActionKind.Drain =>
      match target with
      | Target.Character id =>
          target ← unwrap (Game.characters g !! id);
          animation ← unwrap (Game.character_sprites g !! Character.character_sprite_id character
                                ≫= λ cs, CharacterSprite.animation cs !! "drain"%string);
          let sprite_animation_id := 1 in
          Ok ({ g with Game.sprite_animations ::= <[sprite_animation_id :=
                   AnimationEffect.mk sprite_animation_id animation 0 (Character.position target)]> },
              inr (CommandData.Drain sprite_animation_id))
      | _ => Ok (g, inl CommandError.Target)
      end
  | _ => Ok (g, inr CommandData.None)
  end.

(** command.rs:35-126 *)
Definition command_new g (character_id action_id : Z) (target : Target.t)
  : res (Game.t * (CommandError.t + Command.t)) :=
  action ← unwrap (Game.actions g !! action_id);
  character ← unwrap (Game.characters g !! character_id);
  '(g, data) ← command_data g character action target;
  match data with
  | inl e => Ok (g, inl e)
  | inr data =>
      '(g, sprite_animation_id) ←
        match Action.animation action with
        | Some animation =>
            let id := 1 in
            position ← effect_origin g character_id target;
            Ok ({ g with Game.sprite_animations ::= <[id := AnimationEffect.mk id animation 0 position]> },
                Some id)
        | None => Ok (g, None)
        end;
      Ok (g, inr (Command.mk character_id action_id target 0 data sprite_animation_id
                    CommandState.New))
  end.

(** An optional cost added to an attribute's damage. *)
Definition add_cost (cost : option Z) (a : Attribute.t) : Attribute.t :=
  match cost with
  | Some v => { a with Attribute.damage ::= Z.add v }
  | None => a
  end.

(** command.rs:127-139 *)
Definition command_start (command_id : Z) g : res Game.t :=
  command ← unwrap (Game.commands g !! command_id);
  let g := { g with Game.commands ::= <[command_id := { command with Command.state := CommandState.Started }]> } in
  '(hp, mp) ← unwrap ((λ a, (Action.hp a, Action.mp a)) <$> Game.actions g !! Command.action_id command);
  modify_character (Command.character_id command)
    (λ c, { c with Character.hp ::= add_cost hp; Character.mp ::= add_cost mp }) g.

(** [Some(p)] as a percentage write into a sprite animation. *)
Definition set_percentage (sprite_animation_id : Z) (percentage : Q) g : res Game.t :=
  animation ← unwrap (Game.sprite_animations g !! sprite_animation_id);
  Ok ({ g with Game.sprite_animations ::= <[sprite_animation_id :=
            { animation with AnimationEffect.percentage := percentage }]> }).

(** command.rs:294-326 *)
Definition command_update (command_id : Z) g : res Game.t :=
  command ← unwrap (Game.commands g !! command_id);
  duration ← unwrap (Action.duration <$> Game.actions g !! Command.action_id command);
  let percentage := Qmin (Qdiv (Command.elapsed_time command) duration) 1 in
  g ← match Command.sprite_animation_id command with
      | Some id => set_percentage id percentage g
      | None => Ok g
      end;
  match Command.data command with
  | CommandData.None => Ok g
  | CommandData.Move from to =>
      modify_character (Command.character_id command)
        (λ c, { c with Character.offset_x := Qmult (inject_Z (Position.x to - Position.x from)) percentage;
                   Character.offset_y := Qmult (inject_Z (Position.y to - Position.y from)) percentage }) g
  | CommandData.Drain id => set_percentage id percentage g
  end.
End Registry.

Section End.
Variable hk : Hooks.
Implicit Types (g : Game.t).

(** command.rs:167-175: [tiles[to.y][to.x]] exists and is walkable. *)
Definition is_walkable (to : Position.t) g : bool :=
  default false
    (m ← Game.tile_maps g !! Position.map_id to;
     r ← get_i32 (TileMap.tiles m) (Position.y to);
     id ← get_i32 r (Position.x to);
     Tile.walkable <$> Game.tiles g !! id).

(** command.rs:164-184: the destination if it is walkable and no visible
    character stands there, the origin otherwise; the visual offset is
    reset and the position goes through [character_set_position]. *)
Definition resolve_move (character_id : Z) (from to : Position.t) g : res Game.t :=
  let is_collide := bool_decide (is_Some (character_at_position to g)) in
  let pos := if negb (is_walkable to g) || is_collide then from else to in
  g ← modify_character character_id
        (λ c, { c with Character.offset_x := 0%Q; Character.offset_y := 0%Q }) g;
  set_position hk character_id pos g.

(** command.rs:215-222: one experience point moves from each target with
    positive experience to the actor. *)
Definition drain_one (character_id : Z) g (target_id : Z) : res Game.t :=
  target ← unwrap (Game.characters g !! target_id);
  if bool_decide (0 < Character.experience target) then
    let g := { g with Game.characters ::= <[target_id := Character.gain_exp (-1) target]> } in
    modify_character character_id (Character.gain_exp 1) g
  else Ok g.

(** The per-target update of the crowd-control and recovery effects. *)
Definition effect_on_target (kind : ActionKind.t) : Character.t → Character.t :=
  match kind with
  | ActionKind.Lullaby duration =>
      λ c, { c with Character.crowd_controls ::= λ cc,
                  { cc with CrowdControl.sleep ::= λ v, Z.max v duration } }
  | ActionKind.Thunder duration =>
      λ c, { c with Character.crowd_controls ::= λ cc,
                  { cc with CrowdControl.shock ::= λ v, Z.max v duration;
                        CrowdControl.shocked := false } }
  | ActionKind.Root duration =>
      λ c, { c with Character.crowd_controls ::= λ cc,
                  { cc with CrowdControl.root ::= λ v, Z.max v duration } }
  | ActionKind.HpRecover i =>
      λ c, { c with Character.hp ::= λ a, { a with Attribute.damage ::= λ d, d - i } }
  | ActionKind.MpRecover i =>
      λ c, { c with Character.mp ::= λ a, { a with Attribute.damage ::= λ d, d - i } }
  | _ => λ c, c
  end.

(** command.rs:150-291: the terminal effect of the action. *)
Definition resolve_action (action : Action.t) (command : Command.t) g : res Game.t :=
  let character_id := Command.character_id command in
  let targets := effective_characters g character_id (Command.target command)
                   (Action.effect_kind action) in
  match Action.action_kind action with
  | ActionKind.Idle => Ok g
  | ActionKind.Talk =>
      target_id ← match Command.target command with
                  | Target.Character target_id => Ok target_id
                  | _ => Panic
                  end;
      id ← unwrap (Character.talk_id <$> Game.characters g !! target_id);
      start_novel hk id character_id target_id g
  | ActionKind.Move =>
      match Command.data command with
      | CommandData.Move from to => resolve_move character_id from to g
      | _ => Panic
      end
  | ActionKind.Damage damage =>
      ids ← targets;
      fold_res (λ g target_id, take_damage damage target_id character_id g) g ids
  | ActionKind.Drain =>
      match Command.data command with
      | CommandData.Drain sprite_animation_id =>
          let g := { g with Game.sprite_animations ::= delete sprite_animation_id } in
          ids ← effective_characters g character_id (Command.target command)
                  (Action.effect_kind action);
          fold_res (drain_one character_id) g ids
      | _ => Panic
      end
  | kind =>
      ids ← targets;
      fold_res (λ g target_id, modify_character target_id (effect_on_target kind) g) g ids
  end.

(** command.rs:140-292 *)
Definition command_end (command_id : Z) g : res Game.t :=
  command ← unwrap (Game.commands g !! command_id);
  let command := { command with Command.state := CommandState.Ended } in
  let g := { g with Game.commands ::= <[command_id := command]> } in
  let g := match Command.sprite_animation_id command with
           | Some id => { g with Game.sprite_animations ::= delete id }
           | None => g
           end in
  match Game.actions g !! Command.action_id command with
  | Some action => resolve_action action command g
  | None => Ok g
  end.
End End.

Section EntryPoints.
Implicit Types (g : Game.t).

(** game.rs:68-85: an unknown action name panics; a target of the wrong
    shape is dropped silently. *)
Definition add_command (character_id : Z) (action_name : string) (target : Target.t) g
  : res Game.t :=
  action_id ← unwrap (find_action_id character_id action_name g);
  '(g, r) ← command_new g character_id action_id target;
  match r with
  | inr command => Ok (set_character_command character_id command g)
  | inl _ => Ok g
  end.

(** character.rs:34-62: a relative move with the character's "Move"
    action. *)
Definition move_command (character_id x y : Z) g
  : res (Game.t * (CommandError.t + Command.t)) :=
  match Game.characters g !! character_id with
  | Some c =>
      action_id ← unwrap (find_action_id character_id "Move" g);
      let p := Character.position c in
      command_new g character_id action_id
        (Target.Position (Position.mk (Position.map_id p) (Position.x p + x) (Position.y p + y)))
  | None => Ok (g, inl CommandError.Target)
  end.

(** game.rs:87-92: accepted only while the scheduler waits for input. *)
Definition add_player_command (character_id : Z) (command : Command.t) g : Game.t :=
  if TurnSystem.waiting_input (Game.turn_system g) then
    let g := set_character_command character_id command g in
    { g with Game.turn_system ::= λ ts, { ts with TurnSystem.waiting_input := false } }
  else g.
End EntryPoints.

(** ** Theorems: damage resolution *)

(** The registry operations run no loop: they never exhaust fuel. *)
Lemma command_new_not_oof g character_id action_id target :
  command_new g character_id action_id target ≠ OutOfFuel.
Proof. unfold command_new, command_data, effect_origin. not_oof. Qed.

#[export] Hint Resolve command_new_not_oof : tower.


Section Damage.
Implicit Types (g : Game.t).

Lemma hit_fields d t :
  Attribute.damage (Character.hp (hit d t)) = Attribute.damage (Character.hp t) + d ∧
  Attribute.current (Character.hp (hit d t)) = Attribute.current (Character.hp t) - d ∧
  Character.defeated (hit d t) = Character.defeated t ∧
  Character.dead (hit d t) =
    Character.dead t || bool_decide (Attribute.current (Character.hp t) - d ≤ -1000).
Proof.
  unfold hit, Attribute.current; cbn.
  destruct (Character.dead t) eqn:Hd; cbn; rewrite ?Hd.
  - repeat split; lia.
  - case_bool_decide; case_bool_decide; cbn; rewrite ?Hd; repeat split; try lia; done.
Qed.

Lemma defeats_hit d t :
  defeats (hit d t) =
  negb (Character.defeated t) && bool_decide (Attribute.current (Character.hp t) - d ≤ 0).
Proof.
  unfold defeats. destruct (hit_fields d t) as (_ & -> & -> & _). reflexivity.
Qed.

(** C15: a hit of [d] on character [tid] (by a different character [sid])
    adds [d] to the hp damage; the target becomes dead when its current hp
    reaches -1000 and defeated when it reaches 0, the two checks being
    independent; a hit that defeats the target hides it, gives the
    attacker exactly [kill_experience] = 1 experience and removes the
    target's [Character] turns from the queue (its [Respawn] turns stay);
    any other hit leaves the attacker and the scheduler untouched. *)
Theorem take_damage_spec d tid sid g t g' :
  tid ≠ sid →
  Game.characters g !! tid = Some t →
  take_damage d tid sid g = Ok g' →
  let cur := Attribute.current (Character.hp t) - d in
  let killed := negb (Character.defeated t) && bool_decide (cur ≤ 0) in
  ∃ t', Game.characters g' !! tid = Some t' ∧
    Attribute.damage (Character.hp t') = Attribute.damage (Character.hp t) + d ∧
    Character.dead t' = Character.dead t || bool_decide (cur ≤ -1000) ∧
    Character.defeated t' = Character.defeated t || bool_decide (cur ≤ 0) ∧
    (killed = true →
       Character.hidden t' = true ∧
       (∃ s, Game.characters g !! sid = Some s ∧
             Game.characters g' !! sid = Some (Character.gain_exp 1 s)) ∧
       TurnSystem.turn_queue (Game.turn_system g') =
         retain_not_character tid (TurnSystem.turn_queue (Game.turn_system g))) ∧
    (killed = false →
       Game.characters g' !! sid = Game.characters g !! sid ∧
       Game.turn_system g' = Game.turn_system g).
Proof.
  intros Hne Ht. unfold take_damage. rewrite Ht. simpl. cbv zeta.
  rewrite defeats_hit. destruct (hit_fields d t) as (Hdmg & Hcur & Hdef & Hdead).
  destruct (negb _ && _) eqn:Hk.
  - unfold modify_character. cbn. rewrite lookup_insert_ne by done.
    destruct (Game.characters g !! sid) as [s|] eqn:Hs; simpl; [|discriminate].
    intros [= <-]. cbn. eexists. rewrite lookup_insert_ne by done.
    rewrite lookup_insert_eq. split; [done|]. cbn.
    apply andb_prop in Hk as [Hnd Hle]. apply negb_true_iff in Hnd.
    rewrite Hdmg, Hdead, Hnd, Hle. split_and!; try done.
    intros _. split_and!; [done| |done]. exists s. rewrite lookup_insert_eq. done.
  - intros [= <-]. cbn. eexists. rewrite lookup_insert_eq. split; [done|].
    rewrite Hdmg, Hdead, Hdef. split_and!; try done.
    + apply andb_false_iff in Hk as [Hd|Hd].
      * apply negb_false_iff in Hd. by rewrite Hd.
      * by rewrite Hd, orb_false_r.
    + intros _. split; [by rewrite lookup_insert_ne|done].
Qed.
End Damage.

(** ** Theorems: the turn queue through the command lifecycle *)

Section QueueFrame.
Implicit Types (g : Game.t).

(** The operations that never touch the scheduler. *)
Lemma modify_character_ts id f g g' :
  modify_character id f g = Ok g' → Game.turn_system g' = Game.turn_system g.
Proof. unfold modify_character. intros. by res_inv. Qed.

Lemma set_character_command_ts id command g :
  Game.turn_system (set_character_command id command g) = Game.turn_system g.
Proof. unfold set_character_command. by case_match. Qed.

Lemma command_new_ts g cid aid target g' r :
  command_new g cid aid target = Ok (g', r) → Game.turn_system g' = Game.turn_system g.
Proof. unfold command_new, command_data, effect_origin. intros. by res_inv. Qed.

End QueueFrame.

(** Chase [turn_system] equalities of the steps down to the start state. *)
Ltac ts_frame_hyp H :=
  first [ apply modify_character_ts in H | apply command_new_ts in H ].
Ltac ts_frame :=
  repeat match goal with
  | H : Game.turn_system ?a = _ |- context [Game.turn_system ?a] => rewrite H; clear H; cbn
  | H : _ = Ok _ |- _ => ts_frame_hyp H
  end; try reflexivity.

Section QueueFrameOps.
Implicit Types (g : Game.t).

Lemma add_command_ts cid name target g g' :
  add_command cid name target g = Ok g' → Game.turn_system g' = Game.turn_system g.
Proof. unfold add_command. intros. res_inv; rewrite ?set_character_command_ts; ts_frame. Qed.

Lemma move_command_ts cid x y g g' r :
  move_command cid x y g = Ok (g', r) → Game.turn_system g' = Game.turn_system g.
Proof. unfold move_command. intros. res_inv; ts_frame. Qed.

Lemma command_start_ts id g g' :
  command_start id g = Ok g' → Game.turn_system g' = Game.turn_system g.
Proof. unfold command_start. intros. res_inv. ts_frame. Qed.

Lemma command_update_ts id g g' :
  command_update id g = Ok g' → Game.turn_system g' = Game.turn_system g.
Proof. unfold command_update, set_percentage. intros. res_inv; ts_frame. Qed.

Lemma drain_one_ts cid g tid g' :
  drain_one cid g tid = Ok g' → Game.turn_system g' = Game.turn_system g.
Proof. unfold drain_one. intros. res_inv; ts_frame. Qed.

Lemma ts_queue_inv g g' :
  Game.turn_system g' = Game.turn_system g → queue_inv g → queue_inv g'.
Proof. unfold queue_inv. by intros ->. Qed.

(** A hit removes turns only (the retain of a defeat). *)
Lemma take_damage_inv d tid sid g g' :
  queue_inv g → take_damage d tid sid g = Ok g' → queue_inv g'.
Proof.
  unfold take_damage, queue_inv. intros Hq. intros. res_inv; [|done].
  match goal with H : modify_character _ _ _ = Ok _ |- _ =>
    apply modify_character_ts in H; cbn; rewrite H end.
  by apply queue_ok_retain_not_character.
Qed.

(** A loop of steps that keep the scheduler keeps the invariant. *)
Lemma fold_ts_inv {B} (f : Game.t → B → res Game.t) g l g' :
  (∀ x b x', f x b = Ok x' → Game.turn_system x' = Game.turn_system x) →
  queue_inv g → fold_res f g l = Ok g' → queue_inv g'.
Proof.
  intros Hf. apply fold_res_invariant. intros x b x' Hx _ Hstep.
  eapply ts_queue_inv; [|exact Hx]. by eapply Hf.
Qed.

Section WithHooks.
Variable hk : Hooks.
Hypothesis Hk : hooks_keep queue_inv hk.

Lemma resolve_move_inv cid from to g g' :
  queue_inv g → resolve_move hk cid from to g = Ok g' → queue_inv g'.
Proof.
  unfold resolve_move. intros Hq H. res_inv. eapply (proj2 Hk); [|eassumption].
  eapply ts_queue_inv; [|exact Hq]. by eapply modify_character_ts.
Qed.

Lemma resolve_action_inv action command g g' :
  queue_inv g → resolve_action hk action command g = Ok g' → queue_inv g'.
Proof.
  unfold resolve_action. intros Hq H.
  destruct (Action.action_kind action); res_inv; try done.
  - eapply (proj1 Hk); eassumption.
  - by eapply resolve_move_inv.
  - eapply fold_res_invariant; [|exact Hq|eassumption].
    intros ?????. by eapply take_damage_inv.
  - eapply fold_ts_inv; [apply drain_one_ts| |exact H]. exact Hq.
  - eapply fold_ts_inv; [intros ???; apply modify_character_ts|exact Hq|eassumption].
  - eapply fold_ts_inv; [intros ???; apply modify_character_ts|exact Hq|eassumption].
  - eapply fold_ts_inv; [intros ???; apply modify_character_ts|exact Hq|eassumption].
  - eapply fold_ts_inv; [intros ???; apply modify_character_ts|exact Hq|eassumption].
  - eapply fold_ts_inv; [intros ???; apply modify_character_ts|exact Hq|eassumption].
Qed.

Lemma command_end_inv id g g' :
  queue_inv g → command_end hk id g = Ok g' → queue_inv g'.
Proof.
  unfold command_end. intros Hq H. res_inv; repeat case_match;
    try (eapply resolve_action_inv; [|eassumption]); exact Hq.
Qed.
End WithHooks.
End QueueFrameOps.

(** A board with an attacker (1) and a 10-hp enemy (2) that also has a
    pending respawn. *)
Definition damage_game : Game.t :=
  { empty_game with
      Game.characters := list_to_map
        [(1, npc_at 1 (Position.mk 0 0 0)); (2, npc_at 2 (Position.mk 0 1 0))];
      Game.turn_system := TurnSystem.mk
        [char_turn 0 1; char_turn 0 2; Turn.mk 1 (TurnKind.Respawn 2)]
        None false State.Empty false }.

(** A hit of exactly 10 defeats and hides the enemy without killing it,
    drops its [Character] turn and keeps its [Respawn] turn. *)
Lemma take_damage_spec_witness :
  ∃ g' t', take_damage 10 2 1 damage_game = Ok g' ∧
    Game.characters g' !! 2 = Some t' ∧
    Character.defeated t' = true ∧ Character.dead t' = false ∧ Character.hidden t' = true ∧
    TurnSystem.turn_queue (Game.turn_system g') = [char_turn 0 1; Turn.mk 1 (TurnKind.Respawn 2)].
Proof.
  destruct (take_damage 10 2 1 damage_game) as [g'| |] eqn:E;
    [|vm_compute in E; discriminate..].
  destruct (take_damage_spec 10 2 1 damage_game (npc_at 2 (Position.mk 0 1 0)) g'
              ltac:(lia) eq_refl E) as (t' & Ht' & _ & Hdead & Hdef & Hkill & _).
  exists g', t'. vm_compute in Hdead, Hdef, Hkill.
  destruct (Hkill eq_refl) as (Hhid & _ & Hq).
  split_and!; try done; rewrite Hq; reflexivity.
Defined.
