(* ===== verification/Novel.v ===== *)
(** * Novel: the dialogue interpreter

    Models [NovelSystem] (src/src/core/novel.rs): [start], [run], [next],
    [select], [select_ability] and [update], with [Game::start_novel] and
    [Game::open_shop] (game.rs:95-98, 108-114).  The cursor [p] is a stack
    of child indices; [run] re-resolves the node at [p] ([locate]), runs it,
    and calls itself again after every directive that does not wait for the
    player.  When the node lookup fails it pops one level and advances the
    parent index.  [run] recurses without bound (a [Restart] reached again
    without an intervening stop loops forever), so it takes fuel.  The
    directives call the command lifecycle ([command_new], [command_start],
    [command_end]) and relocate characters through the [set_position] hook
    of [Hooks]. *)

From S2P Require Import Prelude Stats TurnQueue World Spatial Command.

Section Cursor.
(** novel.rs:98-132: descend from the root node along the rest of the
    path.  [If] and [SelectAbility] consume one index, [Select] two (the
    option, then the child), any other node on the way panics. *)
Fixpoint locate (c : option ScriptKind.t) (rest : list nat) : res (option ScriptKind.t) :=
  match rest with
  | [] => Ok c
  | j :: rest' =>
      match c with
      | None => locate None rest'
      | Some (ScriptKind.If _ v) => locate (v !! j) rest'
      | Some (ScriptKind.Select v) =>
          match rest' with
          | k :: rest'' => locate (v !! j ≫= λ o, o.2 !! k) rest''
          | [] => Ok None
          end
      | Some (ScriptKind.SelectAbility v) => locate (v !! j) rest'
      | Some _ => Panic
      end
  end.

Definition node_at (script : Script.t) (p : list nat) : res (option ScriptKind.t) :=
  match p with
  | [] => Ok None
  | i :: rest => locate (Script.scripts script !! i) rest
  end.
End Cursor.
Arguments locate : simpl nomatch.

Section Interpreter.
Variable hk : Hooks.
Implicit Types (g : Game.t).

Definition set_current (c : option CurrentScript.t) g : Game.t :=
  { g with Game.novel_system ::= λ ns, { ns with NovelSystem.current := c } }.

Definition bump (cur : CurrentScript.t) : CurrentScript.t :=
  { cur with CurrentScript.p ::= bump_last }.

(** game.rs:108-114 *)
Definition open_shop (character_id shop_character_id : Z) g : Game.t :=
  { g with Game.novel_system ::= (λ ns, { ns with NovelSystem.pause := true });
           Game.shop_system := ShopSystem.mk (Some (CurrentShop.mk character_id shop_character_id)) }.

Definition script_character (c : ScriptCharacter.t) (cur : CurrentScript.t) : Z :=
  match c with
  | ScriptCharacter.Initiator => CurrentScript.character_id cur
  | ScriptCharacter.Target => CurrentScript.target_id cur
  end.

(** novel.rs:177-190: the action id of the character's "Move" action. *)
Definition move_action_id (character_id : Z) g : option Z :=
  c ← Game.characters g !! character_id;
  CharacterAction.action_id <$>
    iter_find (λ ca, (Action.name <$> Game.actions g !! CharacterAction.action_id ca)
                     = Some "Move"%string)
      (omap (λ id, Game.character_actions g !! id) (Character.character_action_ids c)).

(** novel.rs:248-271: the actions taught by the character's unread action
    books, without the ones it already knows ([HashSet] of ids). *)
Definition book_actions (c : Character.t) g : list Z :=
  let known id := existsb (λ a, bool_decide (CharacterAction.action_id a = id))
                    (omap (λ i, Game.character_actions g !! i)
                       (Character.character_action_ids c)) in
  remove_dups (omap (λ ci,
    item ← Game.items g !! CharacterItem.item_id ci;
    match Item.item_kind item with
    | ActionBook id => if known id then None else Some id
    | _ => None
    end) (Character.items c)).

Definition is_book_item (ci : CharacterItem.t) g : bool :=
  match Item.item_kind <$> Game.items g !! CharacterItem.item_id ci with
  | Some (ActionBook _) => true
  | _ => false
  end.

(** novel.rs:272-294: allocate a character action per taught action, then
    drop every action-book item. *)
Definition practice_skill (character_id : Z) g : Game.t :=
  match Game.characters g !! character_id with
  | Some c =>
      let g := foldl (λ g action_id,
                 let id := fresh_key (Game.character_actions g) in
                 let g := { g with Game.character_actions ::=
                              <[id := CharacterAction.new action_id]> } in
                 match Game.characters g !! character_id with
                 | Some c => { g with Game.characters ::= <[character_id :=
                                 { c with Character.character_action_ids ::= λ l, l ++ [id] }]> }
                 | None => g
                 end) g (book_actions c g) in
      match Game.characters g !! character_id with
      | Some c => { g with Game.characters ::= <[character_id :=
                      { c with Character.items ::= filter (λ ci, is_book_item ci g = false) }]> }
      | None => g
      end
  | None => g
  end.

(** novel.rs:222-229: forget the selected ability ([Vec::remove] panics
    on an index out of range). *)
Definition forget_skill (cur : CurrentScript.t) g : res Game.t :=
  match CurrentScript.select_ability_character_action_index cur with
  | Some index =>
      match Game.characters g !! CurrentScript.character_id cur with
      | Some c =>
          ids ← vec_remove index (Character.character_action_ids c);
          Ok { g with Game.characters ::= <[CurrentScript.character_id cur :=
                 { c with Character.character_action_ids := ids }]> }
      | None => Ok g
      end
  | None => Ok g
  end.

(** novel.rs:64-88: drive the dialogue's pending command to its end
    (New -> start, Started -> end, Ended -> remove it) before the cursor
    moves on. *)
Fixpoint clear_command (fuel : nat) (command_id : Z) g : res Game.t :=
  match fuel with
  | O => OutOfFuel
  | S fuel =>
      command ← unwrap (Game.commands g !! command_id);
      match Command.state command with
      | CommandState.New => g ← command_start command_id g; clear_command fuel command_id g
      | CommandState.Started => g ← command_end hk command_id g; clear_command fuel command_id g
      | CommandState.Ended =>
          let g := { g with Game.commands ::= delete command_id } in
          Ok (set_current ((λ cur, { cur with CurrentScript.command_id := None }) <$>
                 NovelSystem.current (Game.novel_system g)) g)
      end
  end.

(** novel.rs:62-309 *)
Fixpoint run (fuel : nat) g : res Game.t :=
  match fuel with
  | O => OutOfFuel
  | S fuel =>
      g ← match NovelSystem.current (Game.novel_system g) ≫= CurrentScript.command_id with
          | Some command_id => clear_command fuel command_id g
          | None => Ok g
          end;
      match NovelSystem.current (Game.novel_system g) with
      | None => Ok g
      | Some cur =>
          let cur := { cur with CurrentScript.select := None } in
          let g := set_current (Some cur) g in
          match NovelSystem.scripts (Game.novel_system g) !! CurrentScript.id cur with
          | None => Ok g
          | Some script =>
              match CurrentScript.p cur with
              | [] =>
                  let g := set_current None g in
                  Ok { g with Game.turn_system ::= λ ts, { ts with TurnSystem.pause := false } }
              | _ =>
                  c ← node_at script (CurrentScript.p cur);
                  match c with
                  | None =>
                      (* novel.rs:299-305: pop one level, advance the parent *)
                      run fuel (set_current (Some (bump { cur with CurrentScript.p ::= @removelast nat })) g)
                  | Some (ScriptKind.Text text) =>
                      Ok (set_current (Some (bump { cur with CurrentScript.history ::= λ h, h ++ [text] })) g)
                  | Some (ScriptKind.If c _) => match c with end
                  | Some (ScriptKind.IfElse _ _ _) => Ok g
                  | Some (ScriptKind.Select v) =>
                      Ok (set_current (Some { cur with CurrentScript.select := Some v.*1 }) g)
                  | Some ScriptKind.Shop =>
                      let cur := bump cur in
                      Ok (open_shop (CurrentScript.character_id cur) (CurrentScript.target_id cur)
                            (set_current (Some cur) g))
                  | Some ScriptKind.Surrender => Ok g
                  | Some ScriptKind.Restart =>
                      run fuel (set_current (Some { cur with CurrentScript.p := [0%nat] }) g)
                  | Some (ScriptKind.CharacterMove c x y) =>
                      let cur := bump cur in
                      let g := set_current (Some cur) g in
                      let character_id := script_character c cur in
                      action_id ← unwrap (move_action_id character_id g);
                      map_id ← unwrap (Position.map_id ∘ Character.position <$>
                                         Game.characters g !! character_id);
                      '(g, r) ← command_new g character_id action_id
                                  (Target.Position (Position.mk map_id x y));
                      command ← match r with inr command => Ok command | inl _ => Panic end;
                      let id := fresh_key (Game.commands g) in
                      let g := { g with Game.commands ::= <[id := command]> } in
                      Ok (set_current ((λ cur, { cur with CurrentScript.command_id := Some id }) <$>
                             NovelSystem.current (Game.novel_system g)) g)
                  | Some (ScriptKind.CharacterChangePosition c x y map_id) =>
                      let cur := bump cur in
                      g ← set_position hk (script_character c cur) (Position.mk map_id x y)
                            (set_current (Some cur) g);
                      run fuel g
                  | Some (ScriptKind.SelectAbility _) =>
                      Ok (set_current (Some { cur with CurrentScript.waiting_select_ability := true }) g)
                  | Some ScriptKind.ForgetSkill =>
                      g ← forget_skill cur g;
                      run fuel (set_current (Some (bump cur)) g)
                  | Some (ScriptKind.Background b) =>
                      run fuel (set_current (Some (bump { cur with CurrentScript.background := Some b })) g)
                  | Some ScriptKind.PracticeSkill =>
                      let cur := bump cur in
                      let g := practice_skill (CurrentScript.character_id cur) (set_current (Some cur) g) in
                      run fuel g
                  end
              end
          end
      end
  end.

(** novel.rs:46-60 *)
Definition start (fuel : nat) (id character_id target_id : Z) g : res Game.t :=
  run fuel (set_current (Some (CurrentScript.mk id character_id target_id [0%nat] [] None None
                                 false None None)) g).

(** game.rs:95-98: the scheduler pauses while a dialogue runs. *)
Definition start_novel (fuel : nat) (id character_id target_id : Z) g : res Game.t :=
  start fuel id character_id target_id
    { g with Game.turn_system ::= λ ts, { ts with TurnSystem.pause := true } }.

(** novel.rs:311-318 *)
Definition next (fuel : nat) g : res Game.t :=
  match NovelSystem.current (Game.novel_system g) with
  | Some cur => run fuel (set_current (Some (bump cur)) g)
  | None => Ok g
  end.

(** novel.rs:320-326 *)
Definition select (fuel : nat) (i : nat) g : res Game.t :=
  match NovelSystem.current (Game.novel_system g) with
  | Some cur => run fuel (set_current (Some { cur with CurrentScript.p ::= λ p, p ++ [i; 0%nat] }) g)
  | None => Ok g
  end.

(** novel.rs:328-335 *)
Definition select_ability (fuel : nat) (index : nat) g : res Game.t :=
  match NovelSystem.current (Game.novel_system g) with
  | Some cur =>
      run fuel (set_current (Some { cur with
                 CurrentScript.waiting_select_ability := false;
                 CurrentScript.select_ability_character_action_index := Some index;
                 CurrentScript.p ::= λ p, p ++ [0%nat] }) g)
  | None => Ok g
  end.

(** novel.rs:13-45: drive the dialogue's command by [delta]; once it has
    ended, remove it and resume the script. *)
Definition novel_update (fuel : nat) (delta : Q) g : res Game.t :=
  if NovelSystem.pause (Game.novel_system g) then Ok g else
  match NovelSystem.current (Game.novel_system g) with
  | Some cur =>
      match CurrentScript.command_id cur with
      | Some command_id =>
          command ← unwrap (Game.commands g !! command_id);
          match Command.state command with
          | CommandState.New => command_start command_id g
          | CommandState.Started =>
              let command := { command with Command.elapsed_time ::= λ e, Qplus e delta } in
              let g := { g with Game.commands ::= <[command_id := command]> } in
              duration ← unwrap (Action.duration <$> Game.actions g !! Command.action_id command);
              if Qle_bool duration (Command.elapsed_time command)
              then command_end hk command_id g
              else command_update command_id g
          | CommandState.Ended =>
              let g := { g with Game.commands ::= delete command_id } in
              run fuel (set_current (Some { cur with CurrentScript.command_id := None }) g)
          end
      | None => Ok g
      end
  | None => Ok g
  end.
End Interpreter.

(** ** Shape bounds for the termination argument *)

(** A node that [run] only ever leaves forward: it is neither [Restart]
    (which jumps back to the root) nor [CharacterChangePosition] (whose
    relocation can end a floor and start another dialogue), and every child
    list below it has at most [W] entries. *)
Fixpoint node_ok (W : nat) (c : ScriptKind.t) : bool :=
  match c with
  | ScriptKind.Restart | ScriptKind.CharacterChangePosition _ _ _ _ => false
  | ScriptKind.If _ v | ScriptKind.SelectAbility v =>
      bool_decide (length v ≤ W)%nat && forallb (node_ok W) v
  | ScriptKind.IfElse _ v1 v2 =>
      bool_decide (length v1 ≤ W)%nat && forallb (node_ok W) v1 &&
      bool_decide (length v2 ≤ W)%nat && forallb (node_ok W) v2
  | ScriptKind.Select v =>
      bool_decide (length v ≤ W)%nat &&
      forallb (λ o, bool_decide (length o.2 ≤ W)%nat && forallb (node_ok W) o.2) v
  | _ => true
  end.

Definition script_ok (W : nat) (s : Script.t) : bool :=
  bool_decide (length (Script.scripts s) ≤ W)%nat && forallb (node_ok W) (Script.scripts s).

(** The ranking of a cursor: shorter paths rank lower, and within a level a
    larger last index ranks lower (indices at or past [W] find nothing). *)
Definition cursor_measure (W : nat) (p : list nat) : nat :=
  (length p * S W + (W - default 0 (last p)))%nat.

(** ** Theorems *)

Section CursorLemmas.
Variable W : nat.

Definition child_ok (c : option ScriptKind.t) : Prop :=
  ∀ x, c = Some x → node_ok W x = true.

Lemma lookup_node_ok (v : list ScriptKind.t) j :
  bool_decide (length v ≤ W)%nat && forallb (node_ok W) v = true →
  child_ok (v !! j) ∧ ∀ n, v !! j = Some n → (j < W)%nat.
Proof.
  intros [Hl Hv]%andb_prop. apply bool_decide_eq_true in Hl.
  split; [intros x; by apply forallb_lookup|].
  intros n Hj%lookup_lt_Some. lia.
Qed.

Lemma locate_None rest : locate None rest = Ok None.
Proof. by induction rest. Qed.

Lemma locate_not_oof c rest : locate c rest ≠ OutOfFuel.
Proof.
  (* [Select] consumes two indices: induct on [rest] and its tail at once *)
  enough (H : ∀ rest, (∀ c, locate c rest ≠ OutOfFuel) ∧
                      (∀ c j, locate c (j :: rest) ≠ OutOfFuel)) by apply H.
  induction rest0 as [|k rest0 [IH1 IH2]]; split; try done.
  - intros [[]|] j; simpl; discriminate.
  - intros [[]|] j; simpl; rewrite ?locate_None; try discriminate;
      by apply IH1 || apply IH2.
Qed.

Lemma node_at_not_oof s p : node_at s p ≠ OutOfFuel.
Proof. destruct p; [discriminate|apply locate_not_oof]. Qed.

Definition found_ok (rest : list nat) (c : option ScriptKind.t) n : Prop :=
  node_ok W n = true ∧ ((rest = [] ∧ c = Some n) ∨ ∃ j, last rest = Some j ∧ (j < W)%nat).

(** One step through a child list: the index consumed is in range or is
    followed by a deeper one that is. *)
Lemma descend_ok v j rest n :
  bool_decide (length v ≤ W)%nat && forallb (node_ok W) v = true →
  (child_ok (v !! j) → locate (v !! j) rest = Ok (Some n) → found_ok rest (v !! j) n) →
  locate (v !! j) rest = Ok (Some n) →
  node_ok W n = true ∧ ∃ jj, last (j :: rest) = Some jj ∧ (jj < W)%nat.
Proof.
  intros Hv IH Hl. destruct (lookup_node_ok v j Hv) as [Hc Hj].
  destruct (IH Hc Hl) as [Hn [[-> Hs]|(jj & Hjj & Hlt)]]; split; [done| |done|].
  - exists j. eauto.
  - exists jj. eauto using last_cons_Some.
Qed.

(** A node found below [c] along [rest] is well shaped, and the last
    index of a non-empty [rest] is below [W]. *)
Lemma locate_ok rest : ∀ c n,
  child_ok c → locate c rest = Ok (Some n) → found_ok rest c n.
Proof.
  (* [Select] consumes two indices: induction on the length of [rest] *)
  induction rest as [rest IH] using (induction_ltof1 _ (@length nat)).
  unfold ltof in IH.
  destruct rest as [|j rest]; intros c n Hc Hl.
  { injection Hl as ->. split; [by apply Hc|]. auto. }
  destruct c as [x|]; [|by rewrite locate_None in Hl].
  specialize (Hc x eq_refl). unfold found_ok.
  assert (IH1 : ∀ c n, child_ok c → locate c rest = Ok (Some n) → found_ok rest c n)
    by (apply IH; simpl; lia).
  destruct x as [| |? v| |v| | | | | |v| |]; simpl in Hc; try discriminate.
  - destruct (descend_ok v j rest n); eauto.
  - destruct rest as [|k rest]; [done|].
    change (locate (v !! j ≫= λ o, o.2 !! k) rest = Ok (Some n)) in Hl.
    apply andb_prop in Hc as [_ Hv].
    destruct (v !! j) as [o|] eqn:Ho; simpl in Hl; [|by rewrite locate_None in Hl].
    pose proof (forallb_lookup _ _ _ _ Hv Ho) as Ho'.
    destruct (descend_ok o.2 k rest n) as [? (jj & ? & ?)];
      [done| intros; apply IH; [simpl; lia|done..] |done|].
    split; [done|]. right. exists jj. eauto using last_cons_Some.
  - destruct (descend_ok v j rest n); eauto.
Qed.

Lemma node_at_ok s p n :
  script_ok W s = true → node_at s p = Ok (Some n) →
  node_ok W n = true ∧ ∃ j, last p = Some j ∧ (j < W)%nat.
Proof.
  destruct p as [|i rest]; [discriminate|]. simpl.
  intros Hs Hl. destruct (descend_ok (Script.scripts s) i rest n); eauto using locate_ok.
Qed.
End CursorLemmas.

(** A path that reaches a node can be extended below that node. *)
Lemma locate_app rest : ∀ c n q,
  locate c rest = Ok (Some n) → locate c (rest ++ q) = locate (Some n) q.
Proof.
  induction rest as [rest IH] using (induction_ltof1 _ (@length nat)).
  unfold ltof in IH. destruct rest as [|j rest]; intros c n q Hl; [by injection Hl as ->|].
  destruct c as [x|]; [|by rewrite locate_None in Hl].
  destruct x as [| |? v| |v| | | | | |v| |]; simpl in Hl |- *; try discriminate;
    try (apply IH; [simpl; lia|exact Hl]).
  destruct rest as [|k rest]; [done|]. apply IH; [simpl; lia|exact Hl].
Qed.

Lemma node_at_app s p n q :
  node_at s p = Ok (Some n) → node_at s (p ++ q) = locate (Some n) q.
Proof. destruct p as [|i rest]; [discriminate|]. apply locate_app. Qed.

Section Measure.
Variable W : nat.

Lemma cursor_measure_bump p j :
  last p = Some j → (j < W)%nat →
  (cursor_measure W (bump_last p) < cursor_measure W p)%nat.
Proof.
  intros Hj Hlt. unfold cursor_measure.
  rewrite bump_last_length, bump_last_last, Hj. simpl. lia.
Qed.

Lemma cursor_measure_pop p :
  p ≠ [] → (cursor_measure W (bump_last (removelast p)) < cursor_measure W p)%nat.
Proof.
  intros Hp. destruct (exists_last Hp) as (l & x & ->).
  unfold cursor_measure. rewrite removelast_last, bump_last_length, length_app, last_snoc.
  simpl. nia.
Qed.
End Measure.

Section Framing.
Implicit Types (g : Game.t).

Lemma practice_skill_novel cid g :
  Game.novel_system (practice_skill cid g) = Game.novel_system g.
Proof.
  unfold practice_skill. destruct (Game.characters g !! cid) as [c|]; [|done].
  match goal with |- context [foldl ?f g ?l] =>
    assert (Hf : Game.novel_system (foldl f g l) = Game.novel_system g)
      by (apply foldl_proj; intros g0 a; simpl; by case_match);
    destruct (Game.characters (foldl f g l) !! cid) end; done.
Qed.

Lemma forget_skill_novel cur g g' :
  forget_skill cur g = Ok g' → Game.novel_system g' = Game.novel_system g.
Proof.
  unfold forget_skill. repeat case_match; try congruence.
  intros Hr. apply bind_eq_Ok in Hr as (? & _ & [= <-]). done.
Qed.
Lemma forget_skill_not_oof cur g : forget_skill cur g ≠ OutOfFuel.
Proof. unfold forget_skill. not_oof. Qed.
End Framing.

Section NovelQueue.
Variable hk : Hooks.
Hypothesis Hk : hooks_keep queue_inv hk.
Implicit Types (g : Game.t).

Lemma practice_skill_ts cid g :
  Game.turn_system (practice_skill cid g) = Game.turn_system g.
Proof.
  unfold practice_skill. destruct (Game.characters g !! cid) as [c|]; [|done].
  match goal with |- context [foldl ?f g ?l] =>
    assert (Hf : Game.turn_system (foldl f g l) = Game.turn_system g)
      by (apply foldl_proj; intros g0 a; simpl; by case_match);
    destruct (Game.characters (foldl f g l) !! cid) end; done.
Qed.

Lemma forget_skill_ts cur g g' :
  forget_skill cur g = Ok g' → Game.turn_system g' = Game.turn_system g.
Proof. unfold forget_skill. intros. by res_inv. Qed.

#[local] Ltac ts_frame_hyp H ::=
  first [ apply modify_character_ts in H | apply command_new_ts in H
        | apply forget_skill_ts in H ].

Lemma clear_command_inv fuel id g g' :
  queue_inv g → clear_command hk fuel id g = Ok g' → queue_inv g'.
Proof.
  revert g. induction fuel as [|fuel IH]; intros g Hq H; [discriminate|].
  cbn [clear_command] in H. res_inv.
  - eapply IH; [|eassumption]. eapply ts_queue_inv; [|exact Hq]. by eapply command_start_ts.
  - eapply IH; [|eassumption]. by eapply command_end_inv.
  - exact Hq.
Qed.

Lemma run_inv fuel g g' : queue_inv g → run hk fuel g = Ok g' → queue_inv g'.
Proof.
  revert g. induction fuel as [|fuel IH]; intros g Hq H; [discriminate|].
  cbn [run] in H. apply bind_eq_Ok in H as (g1 & Hc & H).
  assert (Hq1 : queue_inv g1).
  { destruct (_ ≫= CurrentScript.command_id); [by eapply clear_command_inv|].
    injection Hc as <-. exact Hq. }
  clear Hc Hq. revert H. repeat case_match; intros Hr; res_inv.
  all: first [ exact Hq1
             | eapply IH; [|eassumption]; exact Hq1
             | eapply IH; [|eassumption]; unfold queue_inv; rewrite practice_skill_ts; exact Hq1
             | eapply IH; [|eassumption]; eapply (proj2 Hk); [|eassumption]; exact Hq1
             | eapply IH; [|eassumption]; eapply ts_queue_inv; [|exact Hq1]; cbn; ts_frame
             | eapply ts_queue_inv; [|exact Hq1]; cbn; ts_frame ].
Qed.
Lemma start_novel_inv fuel id cid tid g g' :
  queue_inv g → start_novel hk fuel id cid tid g = Ok g' → queue_inv g'.
Proof. intros Hq H. eapply run_inv; [|exact H]. exact Hq. Qed.

Lemma novel_update_inv fuel delta g g' :
  queue_inv g → novel_update hk fuel delta g = Ok g' → queue_inv g'.
Proof.
  unfold novel_update. intros Hq H. repeat case_match; res_inv; try exact Hq.
  - eapply ts_queue_inv; [|exact Hq]. by eapply command_start_ts.
  - eapply command_end_inv; [done| |eassumption]. exact Hq.
  - eapply ts_queue_inv; [|exact Hq]. cbn. ts_frame.
    erewrite command_update_ts by eassumption. reflexivity.
  - eapply run_inv; [|eassumption]. exact Hq.
Qed.
End NovelQueue.

Section Dialogue.
Variable hk : Hooks.
Implicit Types (g : Game.t).

(** One backtracking step of [run] (novel.rs:299-305). *)
Lemma run_pop fuel g cur script p' k :
  NovelSystem.current (Game.novel_system g) = Some cur →
  CurrentScript.command_id cur = None →
  NovelSystem.scripts (Game.novel_system g) !! CurrentScript.id cur = Some script →
  CurrentScript.p cur = p' ++ [k] →
  node_at script (p' ++ [k]) = Ok None →
  run hk (S fuel) g =
  run hk fuel (set_current (Some { cur with CurrentScript.select := None;
                                            CurrentScript.p := bump_last p' }) g).
Proof.
  intros Hc Hcmd Hs Hp Hn. cbn [run]. rewrite Hc. cbn. rewrite Hcmd. cbn.
  rewrite Hc, Hs, Hp. destruct (p' ++ [k]) as [|x l] eqn:Hpk; [by destruct p'|].
  rewrite Hn, bind_Ok.
  transitivity (run hk fuel (set_current (Some (bump { cur with CurrentScript.select := None;
                 CurrentScript.p := removelast (CurrentScript.p cur) })) g)); [reflexivity|].
  rewrite Hp, <-Hpk, removelast_last. reflexivity.
Qed.

(** A [ForgetSkill] under the cursor whose index is past the character's
    actions: [Vec::remove] panics (novel.rs:222-229). *)
Lemma run_forget_panics fuel g cur script c index :
  NovelSystem.current (Game.novel_system g) = Some cur →
  CurrentScript.command_id cur = None →
  NovelSystem.scripts (Game.novel_system g) !! CurrentScript.id cur = Some script →
  node_at script (CurrentScript.p cur) = Ok (Some ScriptKind.ForgetSkill) →
  CurrentScript.select_ability_character_action_index cur = Some index →
  Game.characters g !! CurrentScript.character_id cur = Some c →
  (length (Character.character_action_ids c) ≤ index)%nat →
  run hk (S fuel) g = Panic.
Proof.
  intros Hc Hcmd Hs Hn Hi Hl Hlen. cbn [run]. rewrite Hc. cbn. rewrite Hcmd. cbn.
  rewrite Hc, Hs. destruct (CurrentScript.p cur) as [|x l] eqn:Hp; [done|].
  rewrite Hn, bind_Ok. unfold forget_skill. cbn. rewrite Hi, Hl. unfold vec_remove.
  by rewrite decide_False by lia.
Qed.

(** C19: an answer out of range is not rejected: [select] with an index at
    or past the number of choices of the [Select] under the cursor finds
    no node, backtracks twice and resumes the dialogue after the [Select],
    as if the question had not been asked (novel.rs:320-326). *)
Theorem select_out_of_range fuel i g cur script v :
  NovelSystem.current (Game.novel_system g) = Some cur →
  CurrentScript.command_id cur = None →
  NovelSystem.scripts (Game.novel_system g) !! CurrentScript.id cur = Some script →
  node_at script (CurrentScript.p cur) = Ok (Some (ScriptKind.Select v)) → (length v ≤ i)%nat →
  select hk (S (S fuel)) i g =
  run hk fuel (set_current (Some { cur with CurrentScript.select := None;
                                            CurrentScript.p := bump_last (CurrentScript.p cur) }) g).
Proof.
  intros Hc Hcmd Hs Hn Hi. unfold select. rewrite Hc.
  rewrite (run_pop (S fuel) _ { cur with CurrentScript.p ::= λ p, p ++ [i; 0%nat] } script
             (CurrentScript.p cur ++ [i]) 0); try done.
  2:{ cbn. by rewrite <-app_assoc. }
  2:{ rewrite <-app_assoc, (node_at_app _ _ _ _ Hn). cbn. by rewrite (proj2 (lookup_ge_None _ _) Hi). }
  rewrite bump_last_app.
  rewrite (run_pop fuel _ { { cur with CurrentScript.p ::= λ p, p ++ [i; 0%nat] } with
             CurrentScript.select := None; CurrentScript.p := CurrentScript.p cur ++ [S i] }
             script (CurrentScript.p cur) (S i)); try done.
  by rewrite (node_at_app _ _ _ _ Hn).
Qed.

(** C18: a dialogue whose cursor sits on a [Restart] at the root that the
    script reaches again immediately never stops: [run] exhausts any
    amount of fuel (the Rust recursion overflows the stack). *)
Theorem run_restart_diverges fuel g cur script :
  NovelSystem.current (Game.novel_system g) = Some cur →
  CurrentScript.command_id cur = None →
  NovelSystem.scripts (Game.novel_system g) !! CurrentScript.id cur = Some script →
  Script.scripts script !! 0%nat = Some ScriptKind.Restart →
  CurrentScript.p cur = [0%nat] →
  run hk fuel g = OutOfFuel.
Proof.
  revert g cur. induction fuel as [|fuel IH]; intros g cur Hc Hcmd Hs H0 Hp; [done|].
  cbn [run]. rewrite Hc. cbn. rewrite Hcmd. cbn. rewrite Hc, Hs, Hp. cbn. rewrite H0. cbn.
  by eapply IH.
Qed.

(** C17: a dialogue that neither restarts nor relocates a character, and
    whose child lists have at most [W] entries, runs to a stop (a node
    that waits, the end of the script, or a panic) within
    [cursor_measure W p] nested calls: [run] never recurses without bound
    there. *)
Theorem run_terminates W fuel g cur script :
  NovelSystem.current (Game.novel_system g) = Some cur →
  CurrentScript.command_id cur = None →
  NovelSystem.scripts (Game.novel_system g) !! CurrentScript.id cur = Some script →
  script_ok W script = true →
  (cursor_measure W (CurrentScript.p cur) < fuel)%nat →
  run hk fuel g ≠ OutOfFuel.
Proof.
  revert g cur. induction fuel as [|fuel IH]; intros g cur Hc Hcmd Hs Hok Hm; [lia|].
  (* every re-entry keeps the script and the empty command slot *)
  assert (Hrec : ∀ g' c', Game.novel_system g' = Game.novel_system (set_current (Some c') g) →
            CurrentScript.command_id c' = None → CurrentScript.id c' = CurrentScript.id cur →
            (cursor_measure W (CurrentScript.p c') < fuel)%nat → run hk fuel g' ≠ OutOfFuel).
  { intros g' c' Hg' Hc' Hid Hm'. eapply IH; [rewrite Hg'; reflexivity|exact Hc'| |exact Hok|exact Hm'].
    rewrite Hg', Hid. exact Hs. }
  cbn [run]. rewrite Hc. cbn. rewrite Hcmd. cbn. rewrite Hc, Hs.
  destruct (CurrentScript.p cur) as [|i rest] eqn:Hp; [discriminate|].
  rewrite <-Hp; rewrite <-Hp in Hm.
  destruct (node_at script (CurrentScript.p cur)) as [[n|]| |] eqn:Hn;
    [| |discriminate|by apply node_at_not_oof in Hn].
  - destruct (node_at_ok W script _ n Hok Hn) as [Hn_ok (j & Hj & Hjw)].
    assert (Hb : (cursor_measure W (bump_last (CurrentScript.p cur)) < fuel)%nat)
      by (pose proof (cursor_measure_bump W _ _ Hj Hjw); lia).
    destruct n; cbn; try discriminate; simpl in Hn_ok; try discriminate.
    + eapply Hrec; [reflexivity|exact Hcmd|reflexivity|exact Hb].
    + match goal with |- context [match ?x with end] => destruct x end.
    + not_oof.
    + destruct (forget_skill _ _) as [g'| |] eqn:E; cbn; try discriminate.
      * eapply Hrec; [cbn; by rewrite (forget_skill_novel _ _ _ E)|exact Hcmd|reflexivity|exact Hb].
      * by apply forget_skill_not_oof in E.
    + eapply Hrec; [by rewrite practice_skill_novel|exact Hcmd|reflexivity|exact Hb].
  - eapply Hrec; [reflexivity|exact Hcmd|reflexivity|].
    eapply Nat.lt_le_trans; [apply (cursor_measure_pop W (CurrentScript.p cur))|lia].
    by rewrite Hp.
Qed.
End Dialogue.

(** ** The dialogue of the specification, run step by step *)


Definition dialogue_script : Script.t :=
  Script.mk 7 [ScriptKind.Text "a";
               ScriptKind.Select [("x", [ScriptKind.Text "b"]); ("y", [ScriptKind.Text "c"])]].

Definition novel_game : Game.t :=
  { empty_game with Game.novel_system := NovelSystem.mk false {[ 7 := dialogue_script ]} None }.

(** The dialogue after choosing "x" and reading "b". *)
Definition after_choice : CurrentScript.t :=
  CurrentScript.mk 7 1 2 [1; 0; 1]%nat ["a"; "b"]%string None None false None None.

Definition restart_game : Game.t :=
  set_current (Some (CurrentScript.mk 8 1 2 [0%nat] [] None None false None None))
    { empty_game with Game.novel_system :=
        NovelSystem.mk false {[ 8 := Script.mk 8 [ScriptKind.Restart] ]} None }.

(** The traversal of the specification's example (a test of the model): starting the dialogue
    shows "a", running it again offers the choices "x" and "y", choosing "x"
    shows "b" at cursor [1;0;1]; the next [run] backtracks out of the choice
    and out of the script, which ends the dialogue and resumes the turn
    scheduler. *)
Example dialogue_traversal hk :
  (g ← start_novel hk 10 7 1 2 novel_game;
   g ← run hk 10 g;
   Ok (CurrentScript.select <$> NovelSystem.current (Game.novel_system g)))
    = Ok (Some (Some ["x"; "y"]%string)) ∧
  (g ← start_novel hk 10 7 1 2 novel_game;
   g ← run hk 10 g; g ← select hk 10 0 g;
   Ok (NovelSystem.current (Game.novel_system g)))
    = Ok (Some after_choice) ∧
  (g ← start_novel hk 10 7 1 2 novel_game;
   g ← run hk 10 g; g ← select hk 10 0 g; g ← run hk 10 g;
   Ok (NovelSystem.current (Game.novel_system g), TurnSystem.pause (Game.turn_system g)))
    = Ok (None, false).
Proof. split_and!; reflexivity. Qed.

Lemma run_restart_diverges_witness : run inert_hooks 1000 restart_game = OutOfFuel.
Proof.
  eapply (run_restart_diverges inert_hooks 1000 restart_game); reflexivity.
Defined.

Lemma run_terminates_witness :
  run inert_hooks 11 (set_current (Some after_choice) novel_game) ≠ OutOfFuel.
Proof.
  apply (run_terminates inert_hooks 2 11 _ after_choice dialogue_script); try reflexivity.
  vm_compute. lia.
Defined.

(** The dialogue waiting at the choice between "x" and "y". *)
Definition at_choice : CurrentScript.t :=
  CurrentScript.mk 7 1 2 [1%nat] ["a"]%string (Some ["x"; "y"]%string) None false None None.

Lemma select_out_of_range_witness :
  select inert_hooks 5 5 (set_current (Some at_choice) novel_game) =
  run inert_hooks 3 (set_current (Some { at_choice with CurrentScript.select := None;
                                                       CurrentScript.p := bump_last [1%nat] })
                       (set_current (Some at_choice) novel_game)) ∧
  (g ← select inert_hooks 5 5 (set_current (Some at_choice) novel_game);
   Ok (NovelSystem.current (Game.novel_system g))) = Ok None.
Proof.
  split; [|reflexivity].
  apply (select_out_of_range inert_hooks 3 5 _ at_choice dialogue_script
           [("x", [ScriptKind.Text "b"]); ("y", [ScriptKind.Text "c"])]%string);
    try reflexivity; simpl; lia.
Defined.
