(* ===== verification/Floor.v ===== *)
(** * Floor: the dungeon progression and character relocation

    Models [FloorSystem] (src/src/core/floor.rs: [start], [next]) and
    [Game::character_set_position] (game.rs:146-153).  Relocating a
    character onto a teleporter advances the floor; [next] rewards the
    tracked player, moves it to the boss room or the normal room, banishes
    every other character from those two maps, and then spawns content by
    the floor table: an enemy on the floors of the ranges [1..=4],
    [6..=9], ..., [46..=49], and on the floors [0, 5, ..., 50] the vendor,
    a waiting boss and the floor dialogue ([Game::start_novel], reached
    through the [start_novel] field of [Hooks]).  Any other floor only logs
    an error.  After the floor step the area triggers run. *)

From S2P Require Import Prelude Stats TurnQueue World Spatial Command.

(** floor.rs:4-7 *)
Definition TEMP_MAP_ID : Z := -1.
Definition BOSS_MAP_ID : Z := -2.
Definition NORMAL_MAP_ID : Z := -3.
Definition SKILL_VENDOR_ID : Z := -1.

(** The floors of floor.rs:79-88 that spawn an enemy, as written. *)
Definition enemy_floors : list (Z * Z) :=
  [(1, 4); (6, 9); (11, 14); (16, 19); (21, 24); (26, 29); (31, 34); (36, 39);
   (41, 44); (46, 49)].

(** The floors of floor.rs:100 that spawn the boss. *)
Definition boss_floors : list Z := [0; 5; 10; 15; 20; 25; 30; 35; 40; 45; 50].

Definition in_ranges (floor : Z) (rs : list (Z * Z)) : bool :=
  existsb (λ r, (r.1 <=? floor) && (floor <=? r.2)) rs.

Section Floor.
Variable hk : Hooks.
Implicit Types (g : Game.t).

(** floor.rs:22-28 *)
Definition floor_start (character_id : Z) g : Game.t :=
  { g with Game.floor_system ::= λ fs,
      { fs with FloorSystem.current := Some (Current.mk character_id 0) } }.

(** floor.rs:39-43: every known action gains one experience point (an id
    listed twice gains two). *)
Definition train_actions (ids : list Z) (m : gmap Z CharacterAction.t) : gmap Z CharacterAction.t :=
  foldl (λ m id, match m !! id with
                 | Some ca => <[id := { ca with CharacterAction.exp ::= Z.add 1 }]> m
                 | None => m
                 end) m ids.

(** The room a floor starts in (floor.rs:49-63). *)
Definition floor_position (floor : Z) : Position.t :=
  if Z.rem floor 5 =? 0 then Position.mk BOSS_MAP_ID 5 10 else Position.mk NORMAL_MAP_ID 0 2.

(** floor.rs:36-38, 44-63: what the tracked player gains on floor [floor];
    the experience is incremented in place, without [set_experience]. *)
Definition reward_character (floor : Z) (c : Character.t) : Character.t :=
  let c := { c with Character.experience ::= Z.add 1; Character.gold ::= Z.add 1;
                    Character.wood ::= Z.add 1 } in
  let c := if (Z.rem floor 5 =? 0) || (Z.rem (floor - 1) 5 =? 0)
           then { c with Character.hp ::= (λ a, { a with Attribute.damage := 0 });
                         Character.mp ::= (λ a, { a with Attribute.damage := 0 }) }
           else c in
  { c with Character.position := floor_position floor }.

(** floor.rs:35-64: the reward, with the training of the player's actions. *)
Definition reward_player (floor character_id : Z) g : Game.t :=
  match Game.characters g !! character_id with
  | Some c =>
      let cas := train_actions (Character.character_action_ids c) (Game.character_actions g) in
      { g with Game.character_actions := cas;
               Game.characters ::= <[character_id := reward_character floor c]> }
  | None => g
  end.

Definition is_player (c : Character.t) : bool :=
  match Character.controller c with Player => true | _ => false end.

(** floor.rs:65-77: every non-player on the boss or normal map goes to the
    holding map. *)
Definition banish_character (c : Character.t) : Character.t :=
  if negb (is_player c) &&
     (bool_decide (Position.map_id (Character.position c) = BOSS_MAP_ID) ||
      bool_decide (Position.map_id (Character.position c) = NORMAL_MAP_ID))
  then { c with Character.position ::= λ p, { p with Position.map_id := TEMP_MAP_ID } }
  else c.

Definition banish g : Game.t := { g with Game.characters ::= fmap banish_character }.

(** [if let Some(c) = game.characters.get_mut(&id) { .. }] *)
Definition update_character (id : Z) (f : Character.t → Character.t) g : Game.t :=
  match Game.characters g !! id with
  | Some c => { g with Game.characters ::= <[id := f c]> }
  | None => g
  end.

(** floor.rs:89-98 *)
Definition spawn_enemy (floor : Z) g : Game.t :=
  let '(g, id) := new_enemy g in
  update_character id (λ e, { e with Character.position := Position.mk NORMAL_MAP_ID 9 2;
                                     Character.hp ::= λ a, { a with Attribute.base := floor } }) g.

(** floor.rs:101-121 *)
Definition spawn_boss (floor character_id : Z) g : res Game.t :=
  let g := update_character SKILL_VENDOR_ID (λ c, { c with Character.position ::= λ p,
             { p with Position.map_id := BOSS_MAP_ID; Position.x := 4; Position.y := 10 } }) g in
  let '(g, id) := new_enemy g in
  let g := update_character id (λ e, { e with Character.position := Position.mk BOSS_MAP_ID 5 5;
                                              Character.hp ::= (λ a, { a with Attribute.base := 100 + floor });
                                              Character.controller := Boss true }) g in
  start_novel hk 0 character_id id g.

(** floor.rs:30-130 *)
Definition floor_next g : res Game.t :=
  match FloorSystem.current (Game.floor_system g) with
  | Some cur =>
      let floor := Current.floor cur + 1 in
      let g := { g with Game.floor_system ::= λ fs,
                   { fs with FloorSystem.current := Some { cur with Current.floor := floor } } } in
      let g := banish (reward_player floor (Current.character_id cur) g) in
      if in_ranges floor enemy_floors then Ok (spawn_enemy floor g)
      else if bool_decide (floor ∈ boss_floors) then spawn_boss floor (Current.character_id cur) g
      else Ok g
  | None => Ok g
  end.

(** game.rs:146-153 *)
Definition character_set_position (character_id : Z) (position : Position.t) g : res Game.t :=
  c ← unwrap (Game.characters g !! character_id);
  let g := { g with Game.characters ::= <[character_id := { c with Character.position := position }]> } in
  g ← if bool_decide (is_Some (teleportation_at_position position g)) then floor_next g else Ok g;
  Ok (character_position_changed character_id g).

(** game.rs:116-119 *)
Definition character_change_position (character_id x y map_id : Z) g : res Game.t :=
  character_set_position character_id (Position.mk map_id x y) g.
End Floor.

(** ** Theorems: the turn queue through the floor step *)

Section FloorQueue.
Variable hk : Hooks.
Hypothesis Hk : hooks_keep queue_inv hk.
Implicit Types (g : Game.t).

Lemma spawn_character_inv template g :
  queue_inv g → queue_inv (spawn_character template g).1.
Proof.
  unfold spawn_character. intros Hq. case_match. unfold queue_inv.
  apply queue_ok_add_turn; [exact Hq|simpl; lia].
Qed.

Lemma update_character_ts id f g :
  Game.turn_system (update_character id f g) = Game.turn_system g.
Proof. unfold update_character. by case_match. Qed.

Lemma spawn_enemy_inv floor g : queue_inv g → queue_inv (spawn_enemy floor g).
Proof.
  unfold spawn_enemy, new_enemy. intros Hq.
  pose proof (spawn_character_inv enemy_template g Hq) as H.
  destruct (spawn_character _ _). unfold queue_inv. rewrite update_character_ts. exact H.
Qed.

Lemma spawn_boss_inv floor cid g g' :
  queue_inv g → spawn_boss hk floor cid g = Ok g' → queue_inv g'.
Proof.
  unfold spawn_boss, new_enemy. intros Hq H.
  set (g1 := update_character SKILL_VENDOR_ID _ g) in H.
  assert (Hq1 : queue_inv g1) by (unfold queue_inv, g1; by rewrite update_character_ts).
  pose proof (spawn_character_inv enemy_template g1 Hq1) as H2.
  destruct (spawn_character _ _). eapply (proj1 Hk); [|exact H].
  unfold queue_inv. rewrite update_character_ts. exact H2.
Qed.

Lemma reward_player_ts floor cid g :
  Game.turn_system (reward_player floor cid g) = Game.turn_system g.
Proof. unfold reward_player. by case_match. Qed.

Lemma floor_next_inv g g' : queue_inv g → floor_next hk g = Ok g' → queue_inv g'.
Proof.
  unfold floor_next. intros Hq H. case_match; [|by injection H as <-].
  set (g1 := banish _) in H.
  assert (Hq1 : queue_inv g1) by (unfold queue_inv, g1; cbn; by rewrite reward_player_ts).
  repeat case_match; res_inv; [by apply spawn_enemy_inv|by eapply spawn_boss_inv|exact Hq1].
Qed.

Lemma character_position_changed_ts cid g :
  Game.turn_system (character_position_changed cid g) = Game.turn_system g.
Proof.
  unfold character_position_changed. case_match; [|done].
  apply foldl_proj. intros g0 ia. apply foldl_proj. by intros ? [].
Qed.

Lemma character_set_position_inv cid position g g' :
  queue_inv g → character_set_position hk cid position g = Ok g' → queue_inv g'.
Proof.
  unfold character_set_position. intros Hq H. res_inv;
    unfold queue_inv; rewrite character_position_changed_ts; [|exact Hq].
  eapply floor_next_inv; [|eassumption]. exact Hq.
Qed.
End FloorQueue.

(** ** Theorems: the floor step *)

Section FloorStep.
Variable hk : Hooks.
Implicit Types (g : Game.t).

Lemma update_character_lookup_ne id f g k :
  k ≠ id → Game.characters (update_character id f g) !! k = Game.characters g !! k.
Proof. unfold update_character. intros Hk. case_match; [|done]. cbn. by rewrite lookup_insert_ne. Qed.

Lemma update_character_lookup_eq id f g c :
  Game.characters g !! id = Some c → Game.characters (update_character id f g) !! id = Some (f c).
Proof. unfold update_character. intros ->. cbn. apply lookup_insert_eq. Qed.

Lemma reward_player_lookup floor cid g c :
  Game.characters g !! cid = Some c →
  Game.characters (reward_player floor cid g) !! cid = Some (reward_character floor c).
Proof. unfold reward_player. intros ->. cbn. apply lookup_insert_eq. Qed.

Lemma banish_lookup g k :
  Game.characters (banish g) !! k = banish_character <$> Game.characters g !! k.
Proof. unfold banish. cbn. apply lookup_fmap. Qed.

Lemma banish_player c : is_player c = true → banish_character c = c.
Proof. unfold banish_character. by intros ->. Qed.

Lemma reward_character_controller floor c :
  Character.controller (reward_character floor c) = Character.controller c.
Proof. unfold reward_character. by case_match. Qed.

(** The enemy spawned by [spawn_enemy] has a fresh id, stands at (9, 2)
    on the normal map with hp base [floor]; the other characters stay. *)
Lemma spawn_enemy_spec floor g :
  (∀ k c, Game.characters g !! k = Some c → Game.characters (spawn_enemy floor g) !! k = Some c) ∧
  ∃ eid e, Game.characters g !! eid = None ∧ Game.characters (spawn_enemy floor g) !! eid = Some e ∧
    Character.position e = Position.mk NORMAL_MAP_ID 9 2 ∧
    Attribute.base (Character.hp e) = floor ∧ Character.controller e = Enemy.
Proof.
  unfold spawn_enemy, new_enemy.
  pose proof (spawn_character_new enemy_template g) as [Hfresh [ids Hnew]].
  pose proof (spawn_character_lookup enemy_template g) as Hold.
  destruct (spawn_character _ _) as [g1 eid]. cbn in *. split.
  - intros k c Hk. rewrite update_character_lookup_ne; [by apply Hold|]. congruence.
  - eexists _, _. split_and!; [exact Hfresh|by apply update_character_lookup_eq|done..].
Qed.
Lemma reward_player_None floor cid g k :
  Game.characters (reward_player floor cid g) !! k = None → Game.characters g !! k = None.
Proof.
  unfold reward_player. case_match; [|done]. cbn.
  rewrite lookup_insert_None. intros [? ?]. done.
Qed.

Lemma spawn_enemy_floor_system floor g :
  Game.floor_system (spawn_enemy floor g) = Game.floor_system g.
Proof.
  unfold spawn_enemy, new_enemy, spawn_character, update_character.
  destruct (alloc_character_actions _ _). cbn. by case_match.
Qed.

(** C23: on an enemy floor the floor counter advances, the tracked player
    (a [Player]) receives exactly [reward_character] (one experience point,
    gold and wood, the room of the floor), and one enemy with hp base the
    new floor joins the normal map under a fresh id. *)
Theorem floor_next_enemy_floor g cur c :
  FloorSystem.current (Game.floor_system g) = Some cur →
  Game.characters g !! Current.character_id cur = Some c → Character.controller c = Player →
  in_ranges (Current.floor cur + 1) enemy_floors = true →
  ∃ g' eid e, floor_next hk g = Ok g' ∧
    FloorSystem.current (Game.floor_system g') =
      Some (Current.mk (Current.character_id cur) (Current.floor cur + 1)) ∧
    Game.characters g' !! Current.character_id cur =
      Some (reward_character (Current.floor cur + 1) c) ∧
    Game.characters g !! eid = None ∧ Game.characters g' !! eid = Some e ∧
    Character.position e = Position.mk NORMAL_MAP_ID 9 2 ∧
    Attribute.base (Character.hp e) = Current.floor cur + 1 ∧ Character.controller e = Enemy.
Proof.
  intros Hcur Hc Hpl Hin. unfold floor_next. rewrite Hcur, Hin.
  set (g1 := banish _).
  assert (H1 : Game.characters g1 !! Current.character_id cur =
               Some (reward_character (Current.floor cur + 1) c)).
  { unfold g1. rewrite banish_lookup, (reward_player_lookup _ _ _ c) by exact Hc. cbn.
    rewrite banish_player; [done|]. unfold is_player. by rewrite reward_character_controller, Hpl. }
  destruct (spawn_enemy_spec (Current.floor cur + 1) g1) as [Hold (eid & e & Hf & He & Hpos & Hhp & Hctl)].
  exists (spawn_enemy (Current.floor cur + 1) g1), eid, e. split_and!; try done.
  - rewrite spawn_enemy_floor_system. unfold g1, banish, reward_player. cbn.
    case_match; cbn; by destruct cur.
  - by apply Hold.
  - unfold g1 in Hf. rewrite banish_lookup in Hf. apply fmap_None in Hf.
    by apply reward_player_None in Hf.
Qed.
Lemma floor_table_check :
  forallb (λ f, Bool.eqb (in_ranges f enemy_floors) (negb (Z.rem f 5 =? 0)) &&
               Bool.eqb (bool_decide (f ∈ boss_floors)) (Z.rem f 5 =? 0)) (seqZ 1 50) = true.
Proof. vm_compute. reflexivity. Qed.

Lemma in_ranges_above floor : 50 < floor → in_ranges floor enemy_floors = false.
Proof.
  intros Hf. unfold in_ranges. simpl. repeat rewrite (proj2 (Z.leb_gt floor _)) by lia.
  by rewrite !andb_false_r.
Qed.

Lemma boss_floors_above floor : 50 < floor → floor ∉ boss_floors.
Proof. intros Hf. rewrite list_elem_of_In. simpl. lia. Qed.

(** C24: the two match arms of floor.rs:78-126 partition the floors
    1..=50 by [floor % 5]: an enemy exactly on the floors not divisible by
    5 and the boss exactly on the others; from floor 51 on neither arm
    matches. *)
Theorem floor_table floor :
  (1 ≤ floor ≤ 50 → (in_ranges floor enemy_floors = true ↔ Z.rem floor 5 ≠ 0) ∧
     (floor ∈ boss_floors ↔ Z.rem floor 5 = 0)) ∧
  (50 < floor → in_ranges floor enemy_floors = false ∧ floor ∉ boss_floors).
Proof.
  split; [|intros; split; [by apply in_ranges_above|by apply boss_floors_above]].
  intros Hf. pose proof floor_table_check as H. rewrite forallb_forall in H.
  specialize (H floor (proj1 (list_elem_of_In _ _) (proj2 (elem_of_seqZ 1 50 floor) ltac:(lia)))).
  apply andb_prop in H as [H1 H2]. apply Bool.eqb_prop in H1, H2.
  rewrite H1, <-(bool_decide_eq_true (floor ∈ boss_floors)), H2.
  destruct (Z.eqb_spec (Z.rem floor 5) 0); split; split; intros; simpl in *; try done; congruence.
Qed.

Lemma floor_table_witness :
  (in_ranges 7 enemy_floors = true ↔ Z.rem 7 5 ≠ 0) ∧ (10 ∈ boss_floors ↔ Z.rem 10 5 = 0) ∧
  in_ranges 51 enemy_floors = false.
Proof.
  split_and!; [apply (proj1 (floor_table 7)); lia|apply (proj1 (floor_table 10)); lia|].
  apply (proj2 (floor_table 51)). lia.
Defined.

Lemma banish_None g k : Game.characters (banish g) !! k = None ↔ Game.characters g !! k = None.
Proof. rewrite banish_lookup. apply fmap_None. Qed.

Lemma reward_player_dom floor cid g k :
  is_Some (Game.characters (reward_player floor cid g) !! k) ↔ is_Some (Game.characters g !! k).
Proof.
  unfold reward_player. destruct (Game.characters g !! cid) eqn:E; [|done]. cbn.
  destruct (decide (k = cid)) as [->|]; [rewrite lookup_insert_eq, E; split; eauto|].
  by rewrite lookup_insert_ne.
Qed.

(** C25: past floor 50 the floor step spawns nothing: no enemy, no boss, no
    dialogue; the registry keeps exactly its characters, while the
    specification has every floor spawn one or the other. *)
Theorem floor_next_beyond_table g cur :
  FloorSystem.current (Game.floor_system g) = Some cur → 50 ≤ Current.floor cur →
  ∃ g', floor_next hk g = Ok g' ∧
    ∀ k, is_Some (Game.characters g' !! k) ↔ is_Some (Game.characters g !! k).
Proof.
  intros Hcur Hf. unfold floor_next. rewrite Hcur, in_ranges_above by lia.
  rewrite bool_decide_false by (apply boss_floors_above; lia).
  eexists. split; [reflexivity|]. intros k.
  rewrite <-!not_eq_None_Some, banish_None.
  pose proof (reward_player_dom (Current.floor cur + 1) (Current.character_id cur)
                ({ g with Game.floor_system ::= λ fs, { fs with FloorSystem.current :=
                     Some { cur with Current.floor := Current.floor cur + 1 } } }) k) as H.
  rewrite <-!not_eq_None_Some in H. exact H.
Qed.
End FloorStep.

(** ** A player on the floors *)

(** The player of [new_player_character] with 4 experience points, levelled
    by [set_experience] (level 1, hp and mp bases 110). *)
Definition trained_player : Character.t :=
  Character.set_experience 4 (player_template 1 [1; 2; 3; 4]).

(** That player, tracked by the floor system on floor [floor]. *)
Definition floor_game (floor : Z) : Game.t :=
  { new_player_character empty_game with
      Game.characters ::= <[1 := trained_player]>;
      Game.floor_system := FloorSystem.mk false (Some (Current.mk 1 floor)) }.

Lemma floor_next_beyond_table_witness :
  ∃ g', floor_next inert_hooks (floor_game 50) = Ok g' ∧
    ∀ k, is_Some (Game.characters g' !! k) ↔ is_Some (Game.characters (floor_game 50) !! k).
Proof. apply (floor_next_beyond_table inert_hooks (floor_game 50) (Current.mk 1 50)); reflexivity || lia. Defined.

Lemma floor_next_enemy_floor_witness :
  ∃ g' eid e, floor_next inert_hooks (floor_game 0) = Ok g' ∧
    FloorSystem.current (Game.floor_system g') = Some (Current.mk 1 (0 + 1)) ∧
    Game.characters g' !! 1 = Some (reward_character (0 + 1) trained_player) ∧
    Game.characters (floor_game 0) !! eid = None ∧ Game.characters g' !! eid = Some e ∧
    Character.position e = Position.mk NORMAL_MAP_ID 9 2 ∧
    Attribute.base (Character.hp e) = 0 + 1 ∧ Character.controller e = Enemy.
Proof.
  apply (floor_next_enemy_floor inert_hooks (floor_game 0) (Current.mk 1 0) trained_player);
    reflexivity.
Defined.

(** C26: the floor reward bypasses the level table: for every tracked
    character whose level, hp and mp bases agree with [set_experience],
    [FloorSystem::next] adds the experience point in place (floor.rs:36),
    so the level stays, and the record remains consistent exactly when the
    new experience is still in the same band of the table; a point that
    crosses a band (5, 15, 30 or 50) leaves the level behind. *)
Theorem reward_player_skips_levelling floor cid g c :
  Game.characters g !! cid = Some c → Character.level_consistent c →
  ∃ c', Game.characters (reward_player floor cid g) !! cid = Some c' ∧
    Character.experience c' = Character.experience c + 1 ∧ Character.level c' = Character.level c ∧
    (Character.level_consistent c' ↔
       Character.level_of (Character.experience c + 1) = Character.level c).
Proof.
  intros Hc (Hl & Hhp & Hmp). exists (reward_character floor c).
  split; [by apply reward_player_lookup|].
  unfold reward_character, Character.level_consistent. case_match; cbn; split_and!; try lia;
    rewrite (Z.add_comm 1); (split; [intros (Hx & _ & _); lia|intros Hx; split_and!; lia]).
Qed.

Lemma reward_player_skips_levelling_witness :
  Character.level_consistent trained_player ∧
  (∃ c', Game.characters (reward_player 1 1 (floor_game 0)) !! 1 = Some c' ∧
     Character.experience c' = Character.experience trained_player + 1 ∧
     Character.level c' = Character.level trained_player ∧
     (Character.level_consistent c' ↔
        Character.level_of (Character.experience trained_player + 1) = Character.level trained_player)) ∧
  ∃ g' c, floor_next inert_hooks (floor_game 0) = Ok g' ∧ Game.characters g' !! 1 = Some c ∧
    Character.experience c = 5 ∧ Character.level c = 1 ∧
    Character.level (Character.set_experience 5 trained_player) = 2.
Proof.
  assert (Hcons : Character.level_consistent trained_player) by (vm_compute; split_and!; reflexivity).
  split; [exact Hcons|]. split.
  - exact (reward_player_skips_levelling 1 1 (floor_game 0) trained_player eq_refl Hcons).
  - eexists _, _. split; [vm_compute; reflexivity|]. split; [vm_compute; reflexivity|].
    split_and!; vm_compute; reflexivity.
Defined.
