(* ===== verification/Shop.v ===== *)
(** * Shop: the vendor opened by a dialogue

    Models [ShopSystem] (src/src/core/shop.rs: [close_shop], [buy_item]) and
    the game entry points [Game::close_shop] and [Game::buy_item]
    (game.rs:130-139).  A dialogue's [Shop] node opens the shop and pauses
    the dialogue ([open_shop] in [Novel]); closing it resumes the dialogue
    by running it again.  Buying copies the vendor's [index]-th item into
    the buyer's items: the code charges nothing and leaves the stock
    untouched. *)

From S2P Require Import Prelude Stats TurnQueue World Spatial Command Novel.

Section Shop.
Variable hk : Hooks.
Implicit Types (g : Game.t).

(** shop.rs:11-13 *)
Definition shop_close g : Game.t :=
  { g with Game.shop_system ::= λ ss, { ss with ShopSystem.current := None } }.

(** The id of the vendor's [index]-th item (shop.rs:17-23). *)
Definition shop_item_id (shop_character_id : Z) (index : nat) g : option Z :=
  c ← Game.characters g !! shop_character_id;
  shop ← Character.shop c;
  ShopItem.item_id <$> Shop.items shop !! index.

(** shop.rs:26-29: the buyer's items grow by one unit of [id]. *)
Definition receive_item (id : Z) (c : Character.t) : Character.t :=
  { c with Character.items ::= λ l, l ++ [CharacterItem.mk id 1] }.

(** shop.rs:15-33 *)
Definition buy_item (index : nat) g : Game.t :=
  match ShopSystem.current (Game.shop_system g) with
  | Some current =>
      match shop_item_id (CurrentShop.shop_character_id current) index g with
      | Some id =>
          match Game.characters g !! CurrentShop.character_id current with
          | Some c =>
              { g with Game.characters ::= <[CurrentShop.character_id current := receive_item id c]> }
          | None => g
          end
      | None => g
      end
  | None => g
  end.

(** game.rs:130-134: close the shop, unpause and resume the dialogue. *)
Definition close_shop (fuel : nat) g : res Game.t :=
  let g := shop_close g in
  run hk fuel { g with Game.novel_system ::= λ ns, { ns with NovelSystem.pause := false } }.
End Shop.

(** ** Theorems: buying *)

Section Buying.
Implicit Types (g : Game.t).

Lemma buy_item_lookup index g k :
  Game.characters (buy_item index g) !! k = Game.characters g !! k ∨
  ∃ id c, Game.characters g !! k = Some c ∧
          Game.characters (buy_item index g) !! k = Some (receive_item id c).
Proof.
  unfold buy_item. repeat case_match; auto. cbn.
  match goal with |- context [<[?j := _]> _ !! k] => destruct (decide (k = j)) as [->|Hne] end.
  - right. eexists _, _. split; [eassumption|apply lookup_insert_eq].
  - left. by rewrite lookup_insert_ne.
Qed.

(** A projection that ignores the items is not changed by buying. *)
Lemma buy_item_proj {A} (f : Character.t → A) index g k :
  (∀ id c, f (receive_item id c) = f c) →
  f <$> Game.characters (buy_item index g) !! k = f <$> Game.characters g !! k.
Proof.
  intros Hf. destruct (buy_item_lookup index g k) as [->|(id & c & Hc & ->)]; [done|].
  by rewrite Hc; cbn; rewrite Hf.
Qed.

(** C29: buying is free and the stock is unlimited: no character's gold and
    no vendor's shop changes, the shop stays open; when the vendor has an
    item at [index] the buyer receives one unit of it, and otherwise (no
    open shop, no such vendor or shop, an index out of range) nothing
    happens. *)
Theorem buy_item_spec index g :
  (∀ k, Character.gold <$> Game.characters (buy_item index g) !! k =
        Character.gold <$> Game.characters g !! k) ∧
  (∀ k, Character.shop <$> Game.characters (buy_item index g) !! k =
        Character.shop <$> Game.characters g !! k) ∧
  Game.shop_system (buy_item index g) = Game.shop_system g ∧
  (∀ cur id c, ShopSystem.current (Game.shop_system g) = Some cur →
     shop_item_id (CurrentShop.shop_character_id cur) index g = Some id →
     Game.characters g !! CurrentShop.character_id cur = Some c →
     Game.characters (buy_item index g) !! CurrentShop.character_id cur = Some (receive_item id c)) ∧
  (∀ cur, ShopSystem.current (Game.shop_system g) = Some cur →
     shop_item_id (CurrentShop.shop_character_id cur) index g = None → buy_item index g = g) ∧
  (ShopSystem.current (Game.shop_system g) = None → buy_item index g = g).
Proof.
  split_and!; try (intros; by apply buy_item_proj).
  - unfold buy_item. by repeat case_match.
  - intros cur id c Hcur Hid Hc. unfold buy_item. rewrite Hcur, Hid, Hc. apply lookup_insert_eq.
  - intros cur Hcur Hid. unfold buy_item. by rewrite Hcur, Hid.
  - intros Hcur. unfold buy_item. by rewrite Hcur.
Qed.
End Buying.

(** ** A vendor with one item *)

(** The player (1) of [new_player_character] at the shop of character 2,
    which sells one unit of item 7. *)
Definition shop_game : Game.t :=
  { new_player_character empty_game with
      Game.characters ::= <[2 := { npc_at 2 (Position.mk 0 4 8) with
                                   Character.shop := Some (Shop.mk 1 [ShopItem.mk 7 (Some 1)]) }]>;
      Game.shop_system := ShopSystem.mk (Some (CurrentShop.mk 1 2)) }.

Lemma buy_item_spec_witness :
  Game.characters (buy_item 0 shop_game) !! 1 = Some (receive_item 7 (player_template 1 [1; 2; 3; 4])) ∧
  buy_item 1 shop_game = shop_game.
Proof.
  destruct (buy_item_spec 0 shop_game) as (_ & _ & _ & H0 & _ & _).
  destruct (buy_item_spec 1 shop_game) as (_ & _ & _ & _ & H1 & _).
  split; [apply (H0 (CurrentShop.mk 1 2)); reflexivity|apply (H1 (CurrentShop.mk 1 2)); reflexivity].
Defined.
