(* ===== verification/Turn.v ===== *)
(** * Turn: the scheduler state machine

    Models [TurnSystem] (src/src/core/turn.rs).  Each handler of the six
    states returns the next state and whether the frame must stop
    ([(bool, State)] in the code, [step_out] here); [turn_update] repeats
    them until one stops the frame or the scheduler is paused, checking the
    pause flag before every step.  The theorems show the pause check, the
    halt on a player's turn, the chase step, and the livelock of a queue
    whose only turn is an off-camera NPC's, proved by the invariant
    [in_cycle] of the six-state cycle.  The handlers call the turn queue
    ([add_turn], the pop of [empty]), the command lifecycle ([add_command],
    [move_command], [set_character_command], [command_start],
    [command_update], [command_end]) and the crowd-control decay.  The loop
    of the code has no bound: [turn_update] takes fuel. *)

From S2P Require Import Prelude Stats TurnQueue World Spatial Command.

(** The result of one handler: the game, whether the frame stops, and the
    next state. *)
Abbreviation step_out := (Game.t * bool * State.t)%type.

Section Scheduler.
Variable hk : Hooks.
Implicit Types (g : Game.t).

Definition update_ts (f : TurnSystem.t → TurnSystem.t) g : Game.t :=
  { g with Game.turn_system ::= f }.

(** turn.rs:40-54 *)
Definition empty g : res step_out :=
  match pop_turn (TurnSystem.turn_queue (Game.turn_system g)) with
  | Some (t, rest) =>
      Ok (update_ts (λ ts, { ts with TurnSystem.turn_queue := rest;
                                     TurnSystem.current_turn := Some t }) g,
          false, State.StartTurn)
  | None => Ok (g, true, State.Empty)
  end.

(** turn.rs:212-220: a respawned character is whole again. *)
Definition respawn (c : Character.t) : Character.t :=
  let clear a := { a with Attribute.damage := 0 } in
  { c with Character.hp ::= clear; Character.mp ::= clear; Character.attack ::= clear;
           Character.defence ::= clear; Character.sanity ::= clear;
           Character.defeated := false; Character.dead := false; Character.hidden := false }.

(** turn.rs:128-146 (and 171-195): the relative step towards an offset
    [(x, y)], along the axis of the larger offset; the test is
    [x.abs() > y.abs()], so a tie goes to the y axis. *)
Definition chase_step (x y : Z) : Z * Z :=
  if decide (Z.abs y < Z.abs x) then (if decide (0 < x) then 1 else -1, 0)
  else (0, if decide (0 < y) then 1 else -1).

(** The step as a move command that must succeed ([command.unwrap()]). *)
Definition chase (character_id : Z) (from target : Position.t) g : res Game.t :=
  let '(dx, dy) := chase_step (Position.x target - Position.x from)
                              (Position.y target - Position.y from) in
  '(g, r) ← move_command character_id dx dy g;
  command ← match r with inr command => Ok command | inl _ => Panic end;
  Ok (set_character_command character_id command g).

(** turn.rs:93-101: the living humans within distance 5, sorted by distance
    (stable: ties keep the iteration order of the map). *)
Definition nearby_humans (position : Position.t) g : list (Z * Character.t) :=
  sort_by_key (λ kh : Z * Character.t, Position.distance (Character.position kh.2) position)
    (filter (λ kh : Z * Character.t,
               Position.distance (Character.position kh.2) position ≤ 5 ∧
               Character.race kh.2 = Human ∧ Character.dead kh.2 = false)
       (map_to_list (Game.characters g))).

(** turn.rs:89-149 *)
Definition enemy_ai (character_id : Z) (c : Character.t) g : res Game.t :=
  match nearby_humans (Character.position c) g with
  | [] => add_command character_id "Idle" Target.None g
  | (k, human) :: _ =>
      if decide (Position.distance (Character.position c) (Character.position human) ≤ 1) then
        if Character.defeated human
        then add_command character_id "Idle" (Target.Character k) g
        else add_command character_id "Melee" (Target.Character k) g
      else chase character_id (Character.position c) (Character.position human) g
  end.

(** turn.rs:153-206 *)
Definition boss_ai (character_id : Z) (c : Character.t) (waiting : bool) g : res Game.t :=
  if waiting then add_command character_id "Idle" Target.None g else
  match FloorSystem.current (Game.floor_system g) with
  | Some cur =>
      let player_character_id := Current.character_id cur in
      target ← unwrap (Game.characters g !! player_character_id);
      if decide (Position.distance (Character.position c) (Character.position target) ≤ 1)
      then add_command character_id "Melee" (Target.Character player_character_id) g
      else chase character_id (Character.position c) (Character.position target) g
  | None => add_command character_id "Idle" Target.None g
  end.

(** turn.rs:82-207: what the character's controller does on its turn. *)
Definition controller_act (character_id : Z) (c : Character.t) g : res Game.t :=
  match Character.controller c with
  | Player =>
      Ok { g with Game.turn_system ::= (λ ts, { ts with TurnSystem.waiting_input := true });
                  Game.camera ::= (λ cam, { cam with Camera.character_id := character_id }) }
  | Enemy => enemy_ai character_id c g
  | NPC => add_command character_id "Idle" Target.None g
  | Boss waiting => boss_ai character_id c waiting g
  end.

(** turn.rs:59-81: the skip rules, in the order of the code.  A shocked
    character's toggle is written back before the decision. *)
Definition character_turn (character_id : Z) g : res step_out :=
  c ← unwrap (Game.characters g !! character_id);
  let cc := Character.crowd_controls c in
  if Character.dead c || Character.defeated c then Ok (g, false, State.EndTurn) else
  if bool_decide (0 < CrowdControl.sleep cc) || bool_decide (0 < CrowdControl.stun cc)
  then Ok (g, false, State.EndTurn) else
  let c := if bool_decide (0 < CrowdControl.shock cc)
           then { c with Character.crowd_controls ::= λ cc,
                    { cc with CrowdControl.shocked ::= negb } }
           else c in
  let g := { g with Game.characters ::= <[character_id := c]> } in
  if bool_decide (0 < CrowdControl.shock cc) && CrowdControl.shocked (Character.crowd_controls c)
  then Ok (g, false, State.EndTurn) else
  if bool_decide (0 < CrowdControl.charm cc) then Ok (g, false, State.EndTurn) else
  g ← controller_act character_id c g;
  Ok (g, false, State.StartCommand).

(** turn.rs:56-235 *)
Definition start_turn g : res step_out :=
  match TurnSystem.current_turn (Game.turn_system g) with
  | Some t =>
      match Turn.kind t with
      | TurnKind.Character character_id => character_turn character_id g
      | TurnKind.Respawn character_id =>
          g ← modify_character character_id respawn g;
          let g := game_add_turn (Turn.mk 1 (TurnKind.Character character_id)) g in
          Ok (update_ts (λ ts, { ts with TurnSystem.current_turn := None }) g,
              false, State.EndTurn)
      end
  | None => Ok (g, true, State.Empty)
  end.

(** turn.rs:237-245: the character of the current turn; a missing turn or a
    [Respawn] turn panics. *)
Definition current_character g : res Z :=
  t ← unwrap (TurnSystem.current_turn (Game.turn_system g));
  match Turn.kind t with
  | TurnKind.Character character_id => Ok character_id
  | TurnKind.Respawn _ => Panic
  end.

(** turn.rs:236-254 *)
Definition start_command g : res step_out :=
  character_id ← current_character g;
  character ← unwrap (Game.characters g !! character_id);
  match Character.command_id character with
  | Some command_id =>
      g ← command_start command_id g;
      Ok (g, false, State.UpdateCommand)
  | None => Ok (g, true, State.StartCommand)
  end.

(** turn.rs:255-290: the command plays in real time only while its
    character is on the camera's map. *)
Definition update_command (delta : Q) g : res step_out :=
  character_id ← current_character g;
  character_map ← unwrap (Position.map_id ∘ Character.position <$>
                            Game.characters g !! character_id);
  camera_map ← unwrap (Position.map_id ∘ Character.position <$>
                         Game.characters g !! Camera.character_id (Game.camera g));
  character ← unwrap (Game.characters g !! character_id);
  match Character.command_id character with
  | Some command_id =>
      command ← unwrap (Game.commands g !! command_id);
      let wait_animation := bool_decide (character_map = camera_map) in
      duration ← unwrap (Action.duration <$> Game.actions g !! Command.action_id command);
      let command := { command with Command.elapsed_time ::= λ e, Qplus e delta } in
      let g := { g with Game.commands ::= <[command_id := command]> } in
      let animation_end := Qle_bool duration (Command.elapsed_time command) in
      if wait_animation && negb animation_end then
        g ← command_update command_id g;
        Ok (g, true, State.UpdateCommand)
      else Ok (g, false, State.EndCommand)
  | None => Ok (g, false, State.EndCommand)
  end.

(** turn.rs:291-309 *)
Definition end_command g : res step_out :=
  character_id ← current_character g;
  character ← unwrap (Game.characters g !! character_id);
  g ← match Character.command_id character with
      | Some command_id =>
          g ← command_end hk command_id g;
          Ok { g with Game.commands ::= delete command_id }
      | None => Ok g
      end;
  g ← modify_character character_id (λ c, { c with Character.command_id := None }) g;
  Ok (g, false, State.EndTurn).

(** turn.rs:310-326 *)
Definition end_turn g : res step_out :=
  match TurnSystem.current_turn (Game.turn_system g) with
  | Some t =>
      let g := update_ts (λ ts, { ts with TurnSystem.current_turn := None }) g in
      match Turn.kind t with
      | TurnKind.Character character_id =>
          let g := game_add_turn { t with Turn.time := 1 } g in
          g ← modify_character character_id
                (λ c, { c with Character.crowd_controls ::= CrowdControl.turn_end }) g;
          Ok (g, false, State.Empty)
      | TurnKind.Respawn _ => Ok (g, false, State.Empty)
      end
  | None => Ok (g, false, State.Empty)
  end.

(** turn.rs:25-32 *)
Definition step (delta : Q) g : res step_out :=
  match TurnSystem.state (Game.turn_system g) with
  | State.Empty => empty g
  | State.StartTurn => start_turn g
  | State.StartCommand => start_command g
  | State.UpdateCommand => update_command delta g
  | State.EndCommand => end_command g
  | State.EndTurn => end_turn g
  end.

(** turn.rs:20-38 *)
Fixpoint turn_update (fuel : nat) (delta : Q) g : res Game.t :=
  match fuel with
  | O => OutOfFuel
  | S fuel =>
      if TurnSystem.pause (Game.turn_system g) then Ok g else
      r ← step delta g;
      let '(g', out, st) := (r : step_out) in
      let g' := update_ts (λ ts, { ts with TurnSystem.state := st }) g' in
      if out then Ok g' else turn_update fuel delta g'
  end.
End Scheduler.

(** ** Theorems: the queue invariant through the scheduler *)

Section SchedulerFrame.
Variable hk : Hooks.
Implicit Types (g : Game.t).

Lemma chase_ts cid from target g g' :
  chase cid from target g = Ok g' → Game.turn_system g' = Game.turn_system g.
Proof.
  unfold chase. intros H. res_inv; rewrite ?set_character_command_ts;
    eapply move_command_ts; eassumption.
Qed.

Lemma enemy_ai_ts cid c g g' :
  enemy_ai cid c g = Ok g' → Game.turn_system g' = Game.turn_system g.
Proof.
  unfold enemy_ai. intros H. repeat case_match;
    first [eapply add_command_ts; eassumption | eapply chase_ts; eassumption].
Qed.

Lemma boss_ai_ts cid c w g g' :
  boss_ai cid c w g = Ok g' → Game.turn_system g' = Game.turn_system g.
Proof.
  unfold boss_ai. intros H. repeat case_match; res_inv;
    first [eapply add_command_ts; eassumption | eapply chase_ts; eassumption].
Qed.

Lemma controller_act_queue cid c g g' :
  controller_act cid c g = Ok g' →
  TurnSystem.turn_queue (Game.turn_system g') = TurnSystem.turn_queue (Game.turn_system g).
Proof.
  unfold controller_act. intros H. case_match; res_inv; try done;
    f_equal; first [ eapply add_command_ts; eassumption | eapply enemy_ai_ts; eassumption
                   | eapply boss_ai_ts; eassumption ].
Qed.

Lemma queue_eq_inv g g' :
  TurnSystem.turn_queue (Game.turn_system g') = TurnSystem.turn_queue (Game.turn_system g) →
  queue_inv g → queue_inv g'.
Proof. unfold queue_inv. by intros ->. Qed.

Lemma character_turn_queue cid g g' out st :
  character_turn cid g = Ok (g', out, st) →
  TurnSystem.turn_queue (Game.turn_system g') = TurnSystem.turn_queue (Game.turn_system g).
Proof.
  unfold character_turn. intros H. res_inv; try done.
  by erewrite controller_act_queue by eassumption.
Qed.

Section WithHooks.
Hypothesis Hk : hooks_keep queue_inv hk.

Lemma step_inv delta g g' out st :
  queue_inv g → step hk delta g = Ok (g', out, st) → queue_inv g'.
Proof.
  intros Hq. unfold step.
  destruct (TurnSystem.state (Game.turn_system g)); intros H.
  - unfold empty in H. res_inv; [|done]. unfold queue_inv. cbn.
    match goal with E : pop_turn _ = Some _ |- _ =>
      exact (proj2 (queue_ok_pop_turn _ _ _ Hq E)) end.
  - unfold start_turn in H. res_inv; try done.
    + eapply queue_eq_inv; [|exact Hq]. by eapply character_turn_queue.
    + unfold queue_inv. cbn. apply queue_ok_add_turn; [|simpl; lia].
      erewrite modify_character_ts by eassumption. exact Hq.
  - unfold start_command in H. res_inv; try done.
    eapply ts_queue_inv; [|exact Hq]. by eapply command_start_ts.
  - unfold update_command in H. res_inv; try done.
    eapply ts_queue_inv; [|exact Hq]. by erewrite command_update_ts by eassumption.
  - unfold end_command in H. res_inv.
    + eapply ts_queue_inv; [eapply modify_character_ts; eassumption|].
      eapply ts_queue_inv; [|eapply command_end_inv; eassumption]. reflexivity.
    + eapply ts_queue_inv; [eapply modify_character_ts; eassumption|]. exact Hq.
  - unfold end_turn in H. res_inv; try done.
    eapply ts_queue_inv; [eapply modify_character_ts; eassumption|].
    unfold queue_inv. apply queue_ok_add_turn; [exact Hq|simpl; lia].
Qed.

Lemma turn_update_inv fuel delta g g' :
  queue_inv g → turn_update hk fuel delta g = Ok g' → queue_inv g'.
Proof.
  revert g. induction fuel as [|fuel IH]; intros g Hq H; [discriminate|].
  cbn [turn_update] in H. destruct (TurnSystem.pause _); [by injection H as <-|].
  apply bind_eq_Ok in H as ([[g1 out] st] & Hs & H).
  pose proof (step_inv _ _ _ _ _ Hq Hs) as Hq1.
  destruct out; [injection H as <-; exact Hq1|eapply IH; [|exact H]; exact Hq1].
Qed.
End WithHooks.
End SchedulerFrame.

(** ** Theorems: scheduler behaviour *)

Section Behaviour.
Variable hk : Hooks.
Implicit Types (g : Game.t).

(** One iteration of the loop of turn.rs:21-37. *)
Lemma turn_update_go fuel delta g g1 st :
  TurnSystem.pause (Game.turn_system g) = false → step hk delta g = Ok (g1, false, st) →
  turn_update hk (S fuel) delta g =
  turn_update hk fuel delta (update_ts (λ ts, { ts with TurnSystem.state := st }) g1).
Proof. intros Hp Hs. cbn [turn_update]. by rewrite Hp, Hs. Qed.

Lemma turn_update_halt fuel delta g g1 st :
  TurnSystem.pause (Game.turn_system g) = false → step hk delta g = Ok (g1, true, st) →
  turn_update hk (S fuel) delta g = Ok (update_ts (λ ts, { ts with TurnSystem.state := st }) g1).
Proof. intros Hp Hs. cbn [turn_update]. by rewrite Hp, Hs. Qed.

Lemma step_empty delta g t rest :
  TurnSystem.state (Game.turn_system g) = State.Empty →
  pop_turn (TurnSystem.turn_queue (Game.turn_system g)) = Some (t, rest) →
  step hk delta g = Ok (update_ts (λ ts, { ts with TurnSystem.turn_queue := rest;
                                                    TurnSystem.current_turn := Some t }) g,
                        false, State.StartTurn).
Proof. intros Hs Hq. unfold step, empty. by rewrite Hs, Hq. Qed.

Lemma step_character_turn delta g t id :
  TurnSystem.state (Game.turn_system g) = State.StartTurn →
  TurnSystem.current_turn (Game.turn_system g) = Some t → Turn.kind t = TurnKind.Character id →
  step hk delta g = character_turn id g.
Proof. intros Hs Hc Hk. unfold step, start_turn. by rewrite Hs, Hc, Hk. Qed.

(** A character with no blocker acts: its controller decides. *)
Lemma character_turn_act g id c :
  Game.characters g !! id = Some c →
  Character.dead c = false → Character.defeated c = false →
  CrowdControl.sleep (Character.crowd_controls c) ≤ 0 →
  CrowdControl.stun (Character.crowd_controls c) ≤ 0 →
  CrowdControl.shock (Character.crowd_controls c) ≤ 0 →
  CrowdControl.charm (Character.crowd_controls c) ≤ 0 →
  character_turn id g =
  (g' ← controller_act id c { g with Game.characters ::= <[id := c]> };
   Ok (g', false, State.StartCommand)).
Proof.
  intros Hc Hd Hdf Hsl Hst Hsh Hch. unfold character_turn. rewrite Hc. cbn.
  by rewrite Hd, Hdf, !bool_decide_false by lia.
Qed.

Lemma step_start_command_wait delta g t id c :
  TurnSystem.state (Game.turn_system g) = State.StartCommand →
  TurnSystem.current_turn (Game.turn_system g) = Some t → Turn.kind t = TurnKind.Character id →
  Game.characters g !! id = Some c → Character.command_id c = None →
  step hk delta g = Ok (g, true, State.StartCommand).
Proof.
  intros Hs Hc Hk Hl Hcmd. unfold step, start_command, current_character.
  by rewrite Hs, Hc; cbn; rewrite Hk; cbn; rewrite Hl; cbn; rewrite Hcmd.
Qed.

(** C7: the pause flag is checked before every step: a paused scheduler
    returns the registry untouched, and a step that pauses it (a Talk
    opening a dialogue, say) is the last step of the frame. *)
Theorem turn_update_pause fuel delta g :
  (TurnSystem.pause (Game.turn_system g) = true → turn_update hk (S fuel) delta g = Ok g) ∧
  (∀ g1 st, TurnSystem.pause (Game.turn_system g) = false →
     step hk delta g = Ok (g1, false, st) → TurnSystem.pause (Game.turn_system g1) = true →
     turn_update hk (S (S fuel)) delta g =
     Ok (update_ts (λ ts, { ts with TurnSystem.state := st }) g1)).
Proof.
  split; intros; cbn [turn_update]; rewrite ?H; [done|].
  rewrite H0. cbn. by rewrite H1.
Qed.

(** C27: the enemy's target (turn.rs:89-101): the head of [nearby_humans]
    is a registered, living human within distance 5 whom no other such
    human is nearer than. *)
Theorem nearby_humans_nearest position g k h rest :
  nearby_humans position g = (k, h) :: rest →
  Game.characters g !! k = Some h ∧ Character.race h = Human ∧ Character.dead h = false ∧
  Position.distance (Character.position h) position ≤ 5 ∧
  ∀ k' h', Game.characters g !! k' = Some h' → Character.race h' = Human →
    Character.dead h' = false → Position.distance (Character.position h') position ≤ 5 →
    Position.distance (Character.position h) position ≤
    Position.distance (Character.position h') position.
Proof.
  unfold nearby_humans. intros Hs. apply sort_by_key_head in Hs as [Hin Hall].
  apply list_elem_of_filter in Hin as ((Hd & Hr & Hdead) & Hin).
  apply elem_of_map_to_list in Hin. split_and!; try done.
  intros k' h' Hk' Hr' Hdead' Hd'. rewrite Forall_forall in Hall.
  apply (Hall (k', h')). apply list_elem_of_filter. split; [done|].
  by apply elem_of_map_to_list.
Qed.
(** C8: at a player's turn the frame stops: from [Empty] with a living,
    unblocked, player-controlled character at the head of the queue and no
    command assigned, [update] pops the turn, waits for input with the
    camera on that character, and returns within three steps in
    [StartCommand]. *)
Theorem turn_update_player_halts fuel delta g t rest id c :
  TurnSystem.pause (Game.turn_system g) = false →
  TurnSystem.state (Game.turn_system g) = State.Empty →
  pop_turn (TurnSystem.turn_queue (Game.turn_system g)) = Some (t, rest) →
  Turn.kind t = TurnKind.Character id →
  Game.characters g !! id = Some c →
  Character.controller c = Player →
  Character.dead c = false → Character.defeated c = false →
  CrowdControl.sleep (Character.crowd_controls c) ≤ 0 →
  CrowdControl.stun (Character.crowd_controls c) ≤ 0 →
  CrowdControl.shock (Character.crowd_controls c) ≤ 0 →
  CrowdControl.charm (Character.crowd_controls c) ≤ 0 → Character.command_id c = None →
  ∃ g', turn_update hk (S (S (S fuel))) delta g = Ok g' ∧
    TurnSystem.state (Game.turn_system g') = State.StartCommand ∧
    TurnSystem.waiting_input (Game.turn_system g') = true ∧
    Camera.character_id (Game.camera g') = id ∧
    TurnSystem.current_turn (Game.turn_system g') = Some t ∧
    TurnSystem.turn_queue (Game.turn_system g') = rest.
Proof.
  intros Hp Hs Hq Hk Hc Hpl Hd Hdf Hsl Hst Hsh Hch Hcmd.
  rewrite (turn_update_go _ _ _ _ _ Hp (step_empty _ _ _ _ Hs Hq)).
  erewrite turn_update_go; [| exact Hp |].
  2:{ erewrite step_character_turn; [|reflexivity|reflexivity|exact Hk].
      erewrite character_turn_act; [|exact Hc|exact Hd|exact Hdf|exact Hsl|exact Hst|exact Hsh|exact Hch].
      unfold controller_act. rewrite Hpl. reflexivity. }
  erewrite turn_update_halt; [| exact Hp |].
  2:{ eapply step_start_command_wait; [reflexivity|reflexivity|exact Hk| |exact Hcmd].
      cbn. apply lookup_insert_eq. }
  eexists. split; [reflexivity|]. done.
Qed.
End Behaviour.

(** ** Theorems: the chase *)

(** C28: a chase step is one unit along one axis, the axis of the strictly
    larger offset, and brings the chaser one unit closer in Manhattan
    distance; on a tie it takes the y axis, where the specification says
    x (turn.rs:130, 173). *)
Theorem chase_step_spec x y :
  (x, y) ≠ (0, 0) →
  Z.abs (chase_step x y).1 + Z.abs (chase_step x y).2 = 1 ∧
  Z.abs (x - (chase_step x y).1) + Z.abs (y - (chase_step x y).2) = Z.abs x + Z.abs y - 1 ∧
  (Z.abs y < Z.abs x → (chase_step x y).2 = 0) ∧
  (Z.abs x ≤ Z.abs y → (chase_step x y).1 = 0).
Proof.
  intros Hxy. assert (x ≠ 0 ∨ y ≠ 0) by (destruct (decide (x = 0)), (decide (y = 0)); subst; auto).
  unfold chase_step. repeat case_decide; simpl; lia.
Qed.

Lemma chase_step_spec_witness :
  Z.abs (chase_step 2 2).1 + Z.abs (chase_step 2 2).2 = 1 ∧ (chase_step 2 2).1 = 0 ∧
  chase_step 2 2 = (0, 1).
Proof.
  split_and!; [apply (chase_step_spec 2 2); discriminate|apply (chase_step_spec 2 2); [discriminate|lia]|].
  reflexivity.
Defined.

(** ** Witnesses *)

(** A fresh registry with one player character. *)
Definition player_game : Game.t := new_player_character empty_game.

Lemma turn_update_player_halts_witness :
  ∃ g', turn_update inert_hooks 3 0 player_game = Ok g' ∧
    TurnSystem.state (Game.turn_system g') = State.StartCommand ∧
    TurnSystem.waiting_input (Game.turn_system g') = true ∧
    Camera.character_id (Game.camera g') = 1 ∧
    TurnSystem.current_turn (Game.turn_system g') = Some (Turn.mk 0 (TurnKind.Character 1)) ∧
    TurnSystem.turn_queue (Game.turn_system g') = [].
Proof.
  apply (turn_update_player_halts inert_hooks 0 0 player_game (Turn.mk 0 (TurnKind.Character 1)) [] 1
           (player_template 1 [1; 2; 3; 4])); try reflexivity; simpl; lia.
Defined.


(** The registry of [player_game] with the scheduler paused. *)
Definition paused_player_game : Game.t :=
  { player_game with Game.turn_system ::= λ ts, { ts with TurnSystem.pause := true } }.

Lemma turn_update_pause_witness : turn_update inert_hooks 1 0 paused_player_game = Ok paused_player_game.
Proof. apply (proj1 (turn_update_pause inert_hooks 0 0 paused_player_game)). reflexivity. Defined.

Lemma nearby_humans_nearest_witness :
  Game.characters player_game !! 1 = Some (player_template 1 [1; 2; 3; 4]) ∧
  Character.race (player_template 1 [1; 2; 3; 4]) = Human.
Proof.
  destruct (nearby_humans_nearest (Position.mk 0 5 9) player_game 1 (player_template 1 [1; 2; 3; 4]) [])
    as (H1 & H2 & _); [vm_compute; reflexivity|].
  split; [exact H1|exact H2].
Defined.

(** ** A registry with one off-camera NPC *)

Definition idle_action : Action.t :=
  Action.mk 1 "Idle" "" None None ActionKind.Idle TargetKind.None EffectKind.Character 0 1 0 None.

(** The camera follows a player (1) on map 0 that no longer has a turn (a
    defeat removes them); the only turn is that of an NPC (2) on the holding
    map -1, whose turn is queued at relative time [time]. *)
Definition offscreen_game (time : Z) : Game.t :=
  { empty_game with
      Game.characters := {[ 1 := player_template 1 [];
                            2 := { enemy_template 2 [1] with Character.controller := NPC;
                                     Character.position := Position.mk (-1) 0 0 } ]};
      Game.character_actions := {[ 1 := CharacterAction.new 1 ]};
      Game.actions := {[ 1 := idle_action ]};
      Game.camera := Camera.mk 1 0 0 0;
      Game.turn_system := TurnSystem.mk [Turn.mk time (TurnKind.Character 2)] None false
                            State.Empty false }.

(** ** The off-camera livelock

    The scheduler is a loop without a bound (turn.rs:20-38).  When the only
    queued turn is that of a non-player character off the camera's map,
    no handler asks to stop: the NPC idles, its command ends at once
    because its animation is only waited for on the camera's map
    (turn.rs:270-272), and the turn is queued again.  [in_cycle] is the
    invariant of that cycle, phase by phase. *)

(** No skip rule of [character_turn] applies to [ch] (turn.rs:59-81). *)
Definition can_act (ch : Character.t) : Prop :=
  Character.dead ch = false ∧ Character.defeated ch = false ∧
  CrowdControl.sleep (Character.crowd_controls ch) ≤ 0 ∧
  CrowdControl.stun (Character.crowd_controls ch) ≤ 0 ∧
  CrowdControl.shock (Character.crowd_controls ch) ≤ 0 ∧
  CrowdControl.charm (Character.crowd_controls ch) ≤ 0.

(** The part of the registry every phase keeps: the scheduler runs, [c]
    is an NPC that can act, whose "Idle" action resolves to an [Idle]
    action without animation, and the camera follows a character standing
    on another map. *)
Definition npc_offscreen (c : Z) (ch : Character.t) g : Prop :=
  TurnSystem.pause (Game.turn_system g) = false ∧
  Game.characters g !! c = Some ch ∧ Character.controller ch = NPC ∧ can_act ch ∧
  (∃ aid a, find_action_id c "Idle" g = Some aid ∧ Game.actions g !! aid = Some a ∧
     Action.action_kind a = ActionKind.Idle ∧ Action.animation a = None) ∧
  ∃ cam, Game.characters g !! Camera.character_id (Game.camera g) = Some cam ∧
     Position.map_id (Character.position cam) ≠ Position.map_id (Character.position ch).

(** The command of [c] in progress: the Idle command [add_command] made. *)
Definition command_ok (c : Z) (ch : Character.t) g : Prop :=
  ∃ k command a, Character.command_id ch = Some k ∧ Game.commands g !! k = Some command ∧
    Command.character_id command = c ∧ Command.sprite_animation_id command = None ∧
    Game.actions g !! Command.action_id command = Some a ∧ Action.action_kind a = ActionKind.Idle.

(** The six phases of the cycle, by the scheduler's state. *)
Definition in_cycle (c : Z) g : Prop :=
  ∃ ch, npc_offscreen c ch g ∧
  match TurnSystem.state (Game.turn_system g) with
  | State.Empty => ∃ time, TurnSystem.turn_queue (Game.turn_system g) = [Turn.mk time (TurnKind.Character c)]
  | State.StartTurn | State.EndTurn =>
      TurnSystem.turn_queue (Game.turn_system g) = [] ∧
      TurnSystem.current_turn (Game.turn_system g) = Some (Turn.mk 0 (TurnKind.Character c))
  | _ =>
      command_ok c ch g ∧ TurnSystem.turn_queue (Game.turn_system g) = [] ∧
      TurnSystem.current_turn (Game.turn_system g) = Some (Turn.mk 0 (TurnKind.Character c))
  end.

Section Livelock.
Variable hk : Hooks.
Variable delta : Q.
Implicit Types (g : Game.t).

Lemma pop_single time k : pop_turn [Turn.mk time k] = Some (Turn.mk 0 k, []).
Proof. unfold pop_turn. by case_decide. Qed.

Lemma find_action_id_ext c name g g' ch ch' :
  Game.characters g !! c = Some ch → Game.characters g' !! c = Some ch' →
  Character.character_action_ids ch' = Character.character_action_ids ch →
  Game.character_actions g' = Game.character_actions g → Game.actions g' = Game.actions g →
  find_action_id c name g' = find_action_id c name g.
Proof. unfold find_action_id. intros -> -> Hids -> ->. cbn. by rewrite Hids. Qed.

Lemma npc_offscreen_update c ch ch' g g' :
  npc_offscreen c ch g →
  TurnSystem.pause (Game.turn_system g') = false →
  Game.camera g' = Game.camera g → Game.actions g' = Game.actions g →
  Game.character_actions g' = Game.character_actions g →
  Game.characters g' = <[c := ch']> (Game.characters g) →
  Character.controller ch' = Character.controller ch → can_act ch' →
  Character.position ch' = Character.position ch →
  Character.character_action_ids ch' = Character.character_action_ids ch →
  npc_offscreen c ch' g'.
Proof.
  intros (_ & Hc & Hnpc & _ & (aid & a & Hf & Ha & Hk & Hanim) & cam & Hcam & Hmap)
    Hp Hcm Hact Hca Hch Hctl Hcan Hpos Hids.
  assert (Hc' : Game.characters g' !! c = Some ch') by (rewrite Hch; apply lookup_insert_eq).
  split_and!; [done|done|congruence|done| |].
  - exists aid, a. rewrite Hact. split_and!; [|done..]. by erewrite find_action_id_ext.
  - exists cam. rewrite Hch, Hcm, lookup_insert_ne; [split; [done|congruence]|].
    intros Heq. rewrite <-Heq, Hc in Hcam. congruence.
Qed.

Lemma npc_offscreen_ts c ch g f :
  npc_offscreen c ch g → TurnSystem.pause (f (Game.turn_system g)) = false →
  npc_offscreen c ch (update_ts f g).
Proof.
  intros Hoff Hp. pose proof Hoff as (_ & Hc & _ & Hcan & _).
  eapply (npc_offscreen_update c ch ch g); try done. cbn. symmetry. by apply insert_id.
Qed.


Lemma phase_empty c g :
  in_cycle c g → TurnSystem.state (Game.turn_system g) = State.Empty →
  ∃ g', in_cycle c g' ∧ ∀ n, turn_update hk (S n) delta g = turn_update hk n delta g'.
Proof.
  intros (ch & Hoff & Hph) Hs. rewrite Hs in Hph. destruct Hph as [time Hq].
  eexists. split; [|intros n; apply turn_update_go; [exact (proj1 Hoff)|]].
  2:{ eapply step_empty; [exact Hs|]. rewrite Hq. apply pop_single. }
  pose proof Hoff as (Hp & _).
  exists ch. split; [apply npc_offscreen_ts; [by apply npc_offscreen_ts|done]|done].
Qed.

Lemma phase_start_turn c g :
  in_cycle c g → TurnSystem.state (Game.turn_system g) = State.StartTurn →
  ∃ g', in_cycle c g' ∧ ∀ n, turn_update hk (S n) delta g = turn_update hk n delta g'.
Proof.
  intros (ch & Hoff & Hph) Hs. rewrite Hs in Hph. destruct Hph as [Hq Hcur].
  pose proof Hoff as (Hp & Hc & Hnpc & Hcan & (aid & a & Hf & Ha & Hk & Hanim) & _).
  pose proof Hcan as (Hd & Hdf & Hsl & Hst & Hsh & Hch).
  set (g2 := { g with Game.characters ::= <[c := ch]> }).
  assert (Ha2 : Game.actions g2 !! aid = Some a) by exact Ha.
  assert (Hc2 : Game.characters g2 !! c = Some ch) by apply lookup_insert_eq.
  assert (Hstep : step hk delta g =
            Ok (set_character_command c (Command.mk c aid Target.None 0 CommandData.None None CommandState.New) g2, false, State.StartCommand)).
  { erewrite step_character_turn; [|exact Hs|exact Hcur|reflexivity].
    erewrite character_turn_act; [|exact Hc|exact Hd|exact Hdf|exact Hsl|exact Hst|exact Hsh|exact Hch].
    fold g2. unfold controller_act. rewrite Hnpc. unfold add_command.
    rewrite (find_action_id_ext c "Idle" g g2 ch ch), Hf; [|done|apply lookup_insert_eq|done..].
    cbn [unwrap]. rewrite bind_Ok. unfold command_new.
    rewrite Ha2; cbn [unwrap]; rewrite bind_Ok, Hc2; cbn [unwrap]; rewrite bind_Ok.
    unfold command_data. rewrite Hk, bind_Ok, Hanim.
    reflexivity. }
  eexists. split; [|intros n; apply turn_update_go; [exact Hp|exact Hstep]].
  unfold set_character_command. rewrite Hc2.
  exists { ch with Character.command_id := Some (fresh_key (Game.commands g2)) }. split.
  - eapply (npc_offscreen_update c ch); try done. subst g2. cbn. apply insert_insert_eq.
  - cbn. split_and!; [|done|done].
    do 3 eexists. split_and!; [reflexivity|apply lookup_insert_eq|reflexivity|reflexivity|exact Ha|exact Hk].
Qed.

Lemma current_character_cycle g c :
  TurnSystem.current_turn (Game.turn_system g) = Some (Turn.mk 0 (TurnKind.Character c)) →
  current_character g = Ok c.
Proof. unfold current_character. by intros ->. Qed.

Lemma phase_start_command c g :
  in_cycle c g → TurnSystem.state (Game.turn_system g) = State.StartCommand →
  ∃ g', in_cycle c g' ∧ ∀ n, turn_update hk (S n) delta g = turn_update hk n delta g'.
Proof.
  intros (ch & Hoff & Hph) Hs. rewrite Hs in Hph.
  destruct Hph as [(k & cmd & a & Hk & Hcmd & Hcid & Hspr & Ha & Hkind) [Hq Hcur]].
  pose proof Hoff as (Hp & Hc & _).
  set (g1 := { g with Game.commands ::= <[k := { cmd with Command.state := CommandState.Started }]> }).
  set (ch' := { ch with Character.hp ::= add_cost (Action.hp a); Character.mp ::= add_cost (Action.mp a) }).
  assert (Hstep : step hk delta g =
            Ok ({ g1 with Game.characters ::= <[c := ch']> }, false, State.UpdateCommand)).
  { unfold step. rewrite Hs. unfold start_command. rewrite (current_character_cycle g c Hcur), bind_Ok, Hc.
    cbn [unwrap]. rewrite bind_Ok, Hk. unfold command_start. rewrite Hcmd. cbn [unwrap]. rewrite bind_Ok.
    assert (Ha1 : Game.actions g1 !! Command.action_id cmd = Some a) by exact Ha.
    fold g1. rewrite Ha1. cbn [fmap option_fmap option_map unwrap]. rewrite bind_Ok.
    unfold modify_character. rewrite Hcid.
    assert (Hc1 : Game.characters g1 !! c = Some ch) by exact Hc.
    rewrite Hc1. reflexivity. }
  eexists. split; [|intros n; apply turn_update_go; [exact Hp|exact Hstep]].
  exists ch'. split.
  - eapply (npc_offscreen_update c ch); try done. apply Hoff.
  - cbn. split_and!; [|done|done].
    exists k, { cmd with Command.state := CommandState.Started }, a.
    split_and!; [exact Hk|apply lookup_insert_eq|exact Hcid|exact Hspr|exact Ha|exact Hkind].
Qed.

Lemma phase_update_command c g :
  in_cycle c g → TurnSystem.state (Game.turn_system g) = State.UpdateCommand →
  ∃ g', in_cycle c g' ∧ ∀ n, turn_update hk (S n) delta g = turn_update hk n delta g'.
Proof.
  intros (ch & Hoff & Hph) Hs. rewrite Hs in Hph.
  destruct Hph as [(k & cmd & a & Hk & Hcmd & Hcid & Hspr & Ha & Hkind) [Hq Hcur]].
  pose proof Hoff as (Hp & Hc & _ & _ & _ & cam & Hcam & Hmap).
  set (cmd' := { cmd with Command.elapsed_time ::= λ e, Qplus e delta }).
  set (g1 := { g with Game.commands ::= <[k := cmd']> }).
  assert (Hstep : step hk delta g = Ok (g1, false, State.EndCommand)).
  { unfold step. rewrite Hs. unfold update_command. rewrite (current_character_cycle g c Hcur), bind_Ok.
    rewrite Hc. cbn [fmap option_fmap option_map unwrap]. rewrite bind_Ok.
    rewrite Hcam. cbn [fmap option_fmap option_map unwrap]. rewrite bind_Ok.
    cbn [unwrap]. rewrite bind_Ok, Hk, Hcmd. cbn [unwrap]. rewrite bind_Ok.
    rewrite Ha. cbn [fmap option_fmap option_map unwrap]. rewrite bind_Ok.
    rewrite bool_decide_false; [reflexivity|]. cbn. congruence. }
  eexists. split; [|intros n; apply turn_update_go; [exact Hp|exact Hstep]].
  exists ch. split.
  - apply npc_offscreen_ts; [|exact Hp]. eapply (npc_offscreen_update c ch); try done; try apply Hoff.
    cbn. symmetry. by apply insert_id.
  - cbn. split_and!; [|done|done].
    exists k, cmd', a. split_and!; [exact Hk|apply lookup_insert_eq|exact Hcid|exact Hspr|exact Ha|exact Hkind].
Qed.

Lemma phase_end_command c g :
  in_cycle c g → TurnSystem.state (Game.turn_system g) = State.EndCommand →
  ∃ g', in_cycle c g' ∧ ∀ n, turn_update hk (S n) delta g = turn_update hk n delta g'.
Proof.
  intros (ch & Hoff & Hph) Hs. rewrite Hs in Hph.
  destruct Hph as [(k & cmd & a & Hk & Hcmd & Hcid & Hspr & Ha & Hkind) [Hq Hcur]].
  pose proof Hoff as (Hp & Hc & _).
  set (g1 := { g with Game.commands ::= <[k := { cmd with Command.state := CommandState.Ended }]> }).
  set (g2 := { g1 with Game.commands ::= delete k }).
  set (ch' := { ch with Character.command_id := None }).
  assert (Hstep : step hk delta g =
            Ok ({ g2 with Game.characters ::= <[c := ch']> }, false, State.EndTurn)).
  { unfold step. rewrite Hs. unfold end_command. rewrite (current_character_cycle g c Hcur), bind_Ok.
    rewrite Hc. cbn [unwrap]. rewrite bind_Ok, Hk. unfold command_end. rewrite Hcmd. cbn [unwrap].
    rewrite bind_Ok. fold g1.
    assert (Hspr' : Command.sprite_animation_id { cmd with Command.state := CommandState.Ended } = None)
      by exact Hspr.
    assert (Ha1 : Game.actions g1 !! Command.action_id { cmd with Command.state := CommandState.Ended } =
                  Some a) by exact Ha.
    rewrite Hspr', Ha1. unfold resolve_action. rewrite Hkind, bind_Ok. fold g2.
    unfold modify_character. assert (Hc2 : Game.characters g2 !! c = Some ch) by exact Hc.
    rewrite bind_Ok, Hc2. reflexivity. }
  eexists. split; [|intros n; apply turn_update_go; [exact Hp|exact Hstep]].
  exists ch'. split; [|cbn; split; [exact Hq|exact Hcur]].
  eapply (npc_offscreen_update c ch); try done. apply Hoff.
Qed.

Lemma dec_nonpos v : v ≤ 0 → CrowdControl.dec v ≤ 0.
Proof. unfold CrowdControl.dec. lia. Qed.

Lemma phase_end_turn c g :
  in_cycle c g → TurnSystem.state (Game.turn_system g) = State.EndTurn →
  ∃ g', in_cycle c g' ∧ ∀ n, turn_update hk (S n) delta g = turn_update hk n delta g'.
Proof.
  intros (ch & Hoff & Hph) Hs. rewrite Hs in Hph. destruct Hph as [Hq Hcur].
  pose proof Hoff as (Hp & Hc & _ & (Hd & Hdf & Hsl & Hst & Hsh & Hch) & _).
  set (g1 := game_add_turn { Turn.mk 0 (TurnKind.Character c) with Turn.time := 1 }
               (update_ts (λ ts, { ts with TurnSystem.current_turn := None }) g)).
  set (ch' := { ch with Character.crowd_controls ::= CrowdControl.turn_end }).
  assert (Hstep : step hk delta g =
            Ok ({ g1 with Game.characters ::= <[c := ch']> }, false, State.Empty)).
  { unfold step. rewrite Hs. unfold end_turn. rewrite Hcur. cbn [Turn.kind].
    unfold modify_character. assert (Hc1 : Game.characters g1 !! c = Some ch) by exact Hc.
    fold g1. rewrite Hc1. reflexivity. }
  eexists. split; [|intros n; apply turn_update_go; [exact Hp|exact Hstep]].
  exists ch'. split.
  - eapply (npc_offscreen_update c ch); try done.
    unfold can_act. cbn. split_and!; try done; by apply dec_nonpos.
  - cbn. exists 1. subst g1. cbn. by rewrite Hq.
Qed.

Lemma in_cycle_step c g :
  in_cycle c g → ∃ g', in_cycle c g' ∧ ∀ n, turn_update hk (S n) delta g = turn_update hk n delta g'.
Proof.
  intros H. destruct (TurnSystem.state (Game.turn_system g)) eqn:Hs.
  - by apply phase_empty.
  - by apply phase_start_turn.
  - by apply phase_start_command.
  - by apply phase_update_command.
  - by apply phase_end_command.
  - by apply phase_end_turn.
Qed.

(** C9: the frame can spin forever: whatever the registry, when the
    scheduler is at [Empty] and the only queued turn is that of a
    non-player character that can act, has an "Idle" action, and stands on
    another map than the character the camera follows, each command ends
    without waiting and the scheduler cycles through its six states
    endlessly: [update] exhausts any amount of fuel, whatever the elapsed
    time.  (A [Player] turn instead halts the frame, [turn_update_player_halts].) *)
Theorem offscreen_livelock fuel g c ch time :
  TurnSystem.state (Game.turn_system g) = State.Empty →
  TurnSystem.turn_queue (Game.turn_system g) = [Turn.mk time (TurnKind.Character c)] →
  npc_offscreen c ch g →
  turn_update hk fuel delta g = OutOfFuel.
Proof.
  intros Hs Hq Hoff. assert (H : in_cycle c g) by (exists ch; rewrite Hs; eauto).
  clear Hs Hq Hoff ch time. revert g H. induction fuel as [|fuel IH]; intros g H; [done|].
  destruct (in_cycle_step c g H) as (g' & H' & ->). by apply IH.
Qed.
End Livelock.

Lemma offscreen_livelock_witness :
  npc_offscreen 2 { enemy_template 2 [1] with Character.controller := NPC;
                      Character.position := Position.mk (-1) 0 0 } (offscreen_game 0) ∧
  turn_update inert_hooks 1000 0 (offscreen_game 0) = OutOfFuel.
Proof.
  assert (H : npc_offscreen 2 { enemy_template 2 [1] with Character.controller := NPC;
                                  Character.position := Position.mk (-1) 0 0 } (offscreen_game 0)).
  { split_and!; [reflexivity|reflexivity|reflexivity|unfold can_act; cbn; split_and!; done || lia| |].
    - exists 1, idle_action. split_and!; reflexivity.
    - exists (player_template 1 []). split; [reflexivity|cbn; lia]. }
  split; [exact H|]. exact (offscreen_livelock inert_hooks 0 1000 (offscreen_game 0) 2 _ 0 eq_refl eq_refl H).
Defined.
