(* ===== verification/Engine.v ===== *)
(** * Engine: the components wired together, and the game's entry points

    The command lifecycle, the dialogue interpreter and the floor step call
    each other re-entrantly: ending a Talk command opens a dialogue
    ([Game::start_novel]), a dialogue relocates characters
    ([Game::character_change_position]), a relocation onto a teleporter
    advances the floor, and the boss floor opens a dialogue again.  The
    other files take these calls as a [Hooks] record; [hooks_at n] ties the
    knot to nesting depth [n] (the calls at depth 0 run out of fuel), and
    the same [n] is the fuel of the dialogue and scheduler loops.

    The entry points of game.rs that the presentation layer calls
    ([update], [add_player_command], [select_option], [select_ability],
    [cancel_select_ability], [buy_item], [close_shop], [novel_run],
    [new_player_character], [new_enemy]) are the constructors of [Input];
    [handle] applies one, and [reachable] is the closure of an initial
    registry under them.  The queue invariant holds in every reachable
    registry; a concrete run shows that a paused scheduler does not stop
    [update] from changing the turn queue. *)

From S2P Require Import Prelude Stats TurnQueue World Spatial Command Novel Floor Shop Turn.

(** The hooks at nesting depth [n]. *)
Fixpoint hooks_at (n : nat) : Hooks :=
  match n with
  | O => {| Command.start_novel := λ _ _ _ _, OutOfFuel; set_position := λ _ _ _, OutOfFuel |}
  | S n => {| Command.start_novel := Novel.start_novel (hooks_at n) n;
              set_position := character_set_position (hooks_at n) |}
  end.

(** game.rs:141-144 *)
Definition game_update (fuel : nat) (delta : Q) (g : Game.t) : res Game.t :=
  g ← turn_update (hooks_at fuel) fuel delta g;
  novel_update (hooks_at fuel) fuel delta g.

(** The calls the presentation layer makes (game.rs:87-139, 188-352). *)
Inductive Input :=
| Update (delta : Q)
| PlayerCommand (character_id : Z) (command : Command.t)
| SelectOption (i : nat)
| SelectAbility (index : nat)
| CancelSelectAbility
| BuyItem (i : nat)
| CloseShop
| NovelRun
| NewPlayerCharacter
| NewEnemy.

Definition handle (fuel : nat) (i : Input) (g : Game.t) : res Game.t :=
  match i with
  | Update delta => game_update fuel delta g
  | PlayerCommand character_id command => Ok (add_player_command character_id command g)
  | SelectOption i => select (hooks_at fuel) fuel i g
  | SelectAbility index => select_ability (hooks_at fuel) fuel index g
  | CancelSelectAbility => Ok g
  | BuyItem i => Ok (buy_item i g)
  | CloseShop => close_shop (hooks_at fuel) fuel g
  | NovelRun => run (hooks_at fuel) fuel g
  | NewPlayerCharacter => Ok (new_player_character g)
  | NewEnemy => Ok (new_enemy g).1
  end.

(** The registries reachable from [g0] through the entry points. *)
Inductive reachable (fuel : nat) (g0 : Game.t) : Game.t → Prop :=
| reachable_init : reachable fuel g0 g0
| reachable_step g i g' :
    reachable fuel g0 g → handle fuel i g = Ok g' → reachable fuel g0 g'.

(** ** Theorems: the turn-queue invariant of the whole game *)

(** Every depth of the knot keeps the queue invariant. *)
Lemma hooks_at_keep n : hooks_keep queue_inv (hooks_at n).
Proof.
  induction n as [|n IH]; split; cbn; try discriminate.
  - intros ??????. by eapply start_novel_inv.
  - intros ?????. by eapply character_set_position_inv.
Qed.

Lemma handle_inv fuel i g g' : queue_inv g → handle fuel i g = Ok g' → queue_inv g'.
Proof.
  pose proof (hooks_at_keep fuel) as Hk.
  intros Hq H. destruct i; cbn in H; res_inv.
  - unfold game_update in H. res_inv.
    eapply novel_update_inv; [exact Hk| |eassumption].
    eapply turn_update_inv; [exact Hk|exact Hq|eassumption].
  - unfold add_player_command. case_match; [|exact Hq].
    unfold queue_inv. cbn. by rewrite set_character_command_ts.
  - unfold select in H. case_match; res_inv; [|exact Hq].
    eapply run_inv; [exact Hk| |eassumption]. exact Hq.
  - unfold select_ability in H. case_match; res_inv; [|exact Hq].
    eapply run_inv; [exact Hk| |eassumption]. exact Hq.
  - exact Hq.
  - unfold buy_item. repeat case_match; exact Hq.
  - unfold close_shop in H. eapply run_inv; [exact Hk| |eassumption]. exact Hq.
  - eapply run_inv; [exact Hk|exact Hq|eassumption].
  - by apply spawn_character_inv.
  - by apply spawn_character_inv.
Qed.

(** C6: whatever the presentation layer calls, in any order and with any
    amounts of time, the turn queue stays sorted by time with every
    relative time 0 or 1, provided it was so initially. *)
Theorem reachable_queue_ok fuel g0 g :
  queue_ok (TurnSystem.turn_queue (Game.turn_system g0)) →
  reachable fuel g0 g → queue_ok (TurnSystem.turn_queue (Game.turn_system g)).
Proof.
  intros H0. induction 1 as [|g i g' _ IH Hstep]; [exact H0|].
  by eapply handle_inv.
Qed.

Lemma reachable_queue_ok_witness :
  queue_ok (TurnSystem.turn_queue (Game.turn_system (new_player_character empty_game))).
Proof.
  apply (reachable_queue_ok 1 empty_game); [split; constructor|].
  apply (reachable_step 1 empty_game empty_game NewPlayerCharacter); [apply reachable_init|reflexivity].
Defined.

(** ** An update while the scheduler is paused *)

(** A dialogue of player 1 whose move has just ended, followed by a
    relocation onto the teleporter at (0, 0) of map 0; the scheduler is
    paused by the dialogue and the floor system tracks the player on floor
    0. *)
Definition teleport_script : Script.t :=
  Script.mk 3 [ScriptKind.CharacterMove ScriptCharacter.Initiator 5 9;
               ScriptKind.CharacterChangePosition ScriptCharacter.Initiator 0 0 0].

Definition paused_game : Game.t :=
  { new_player_character empty_game with
      Game.teleportations := {[ 1 := Teleportation.mk (Position.mk 0 0 0) (Position.mk 0 0 0) ]};
      Game.commands := {[ 1 := Command.mk 1 1 Target.None 0 CommandData.None None CommandState.Ended ]};
      Game.novel_system := NovelSystem.mk false {[ 3 := teleport_script ]}
        (Some (CurrentScript.mk 3 1 1 [1%nat] [] None None false (Some 1) None));
      Game.floor_system := FloorSystem.mk false (Some (Current.mk 1 0));
      Game.turn_system ::= λ ts, { ts with TurnSystem.pause := true } }.

(** A paused scheduler does not keep [update] from changing the turn
    state: the dialogue's half of [Game::update] (game.rs:141-144) resumes
    the script, whose relocation onto a teleporter advances the floor and
    queues the new enemy's turn, and whose end clears the pause flag, while
    the specification has a paused [update] leave the turn state alone. *)
Example paused_update_changes_turns :
  TurnSystem.pause (Game.turn_system paused_game) = true ∧
  length (TurnSystem.turn_queue (Game.turn_system paused_game)) = 1%nat ∧
  (g' ← game_update 4 0 paused_game;
   Ok (length (TurnSystem.turn_queue (Game.turn_system g')), TurnSystem.pause (Game.turn_system g')))
  = Ok (2%nat, false).
Proof. split_and!; vm_compute; reflexivity. Qed.
