(* ===== verification/Rendering.v ===== *)
(** * Rendering: the image cache, the frame being drawn and the camera

    Models src/src/rendering.rs, the image cache of src/src/data.rs:26-39
    and the stats panel of src/src/ui/stats.rs.  A frame is the list of
    [graphics::draw] calls made since the last [graphics::clear], each a
    drawable with its [DrawParam]; that list and the image cache are the
    state of the [render] monad.  Its failures are an image file that
    cannot be loaded ([Image::new] returns an error, which [?] hands to the
    event loop) and a panic ([unwrap] on [None], an index out of bounds, a
    remainder by zero).  The resource directory is the section variable
    [files]: the image each path decodes to.  Screen coordinates, f32 in the
    code, are exact rationals, like every f32 of the development.

    The theorems show that the camera transform puts every position the
    culling test lets through inside the square that [draw_border]
    outlines, that [draw_image] scales its source rectangle to exactly the
    target size, and that the cache only ever holds the images of the
    files it was asked for. *)

From Stdlib Require Import Qround Qabs Lqa.
From stdpp Require Import pretty.
From S2P Require Import Prelude Stats World.

(** ** Drawables and draw parameters (ggez) *)

Module Image.
(** A decoded [graphics::Image]: its size in pixels. *)
Record t := mk { width : Z; height : Z }.
End Image.

Module Color.
Record t := mk { r : Z; g : Z; b : Z; a : Z }.
Definition from_rgb (r g b : Z) : t := mk r g b 255.
End Color.

Module DrawMode.
Inductive t := Fill | Stroke (line_width : Q).
End DrawMode.

Module Drawable.
Inductive t :=
| Image (path : string)
| Rectangle (mode : DrawMode.t) (x y w h : Z) (color : Color.t)
| Text (s : string)
(** A window-sized canvas on which [text] was drawn at the origin
    (ui/stats.rs:35-44). *)
| Canvas (text : string).
End Drawable.

Module DrawParam.
Record t := mk { src : Q * Q * Q * Q; dest : Q * Q; scale : Q * Q }.
(** [DrawParam::default()]: the whole image, at the origin, unscaled. *)
Definition default : t := mk (0, 0, 1, 1)%Q (0, 0)%Q (1, 1)%Q.
(** [DrawParam { dest, ..Default::default() }] and
    [DrawParam::new().dest(Point2::new(x, y))]. *)
Definition at_point (p : Q * Q) : t := {| src := src default; dest := p; scale := scale default |}.
End DrawParam.

(** The state a draw threads: the image cache ([Data::image_caches]) and
    the calls drawn since the last clear. *)
Module Frame.
Record t := mk {
  image_caches : gmap string Image.t;
  screen : list (Drawable.t * DrawParam.t);
}.
End Frame.

Inductive drawn (A : Type) : Type :=
| Drawn (a : A) (s : Frame.t)
| LoadError (path : string)
| Crash
(** A call into [Game] ran out of fuel (see [res]). *)
| NoFuel.
Arguments Drawn {A} a s.
Arguments LoadError {A} path.
Arguments Crash {A}.
Arguments NoFuel {A}.

Definition render (A : Type) : Type := Frame.t → drawn A.

#[export] Instance render_ret : MRet render := λ A a s, Drawn a s.
#[export] Instance render_bind : MBind render := λ A B f m s,
  match m s with
  | Drawn a s' => f a s'
  | LoadError p => LoadError p
  | Crash => Crash
  | NoFuel => NoFuel
  end.

Definition gets {A} (f : Frame.t → A) : render A := λ s, Drawn (f s) s.
Definition modify (f : Frame.t → Frame.t) : render unit := λ s, Drawn tt (f s).

(** [Option::unwrap] and indexing: a panic on [None]. *)
Definition unwrap_r {A} (o : option A) : render A :=
  λ s, match o with Some a => Drawn a s | None => Crash end.

(** [graphics::draw(ctx, drawable, param)]. *)
Definition graphics_draw (d : Drawable.t) (p : DrawParam.t) : render unit :=
  modify (λ s, {| Frame.image_caches := Frame.image_caches s;
                  Frame.screen := Frame.screen s ++ [(d, p)] |}).

(** [graphics::clear]: a new frame. *)
Definition graphics_clear : render unit :=
  modify (λ s, {| Frame.image_caches := Frame.image_caches s; Frame.screen := [] |}).

(** A [for] loop whose body draws: the bodies in order, up to the first
    failure. *)
Definition for_each {A} (l : list A) (f : A → render unit) : render unit :=
  foldr (λ a m, f a;; m) (mret ()) l.

(** [iter().enumerate()] *)
Definition enumerate {A} (l : list A) : list (nat * A) := zip (seq 0 (length l)) l.

(** A call into [Game] from a scene, which does not draw. *)
Definition of_res {A} (r : res A) : render A :=
  λ s, match r with Ok a => Drawn a s | Panic => Crash | OutOfFuel => NoFuel end.

(** i32 [%] and [/]: a panic on a zero divisor and on [i32::MIN] by [-1]. *)
Definition i32_rem (a b : Z) : render Z :=
  if decide (b = 0 ∨ (a = -2^31 ∧ b = -1)) then λ _, Crash else mret (Z.rem a b).
Definition i32_div (a b : Z) : render Z :=
  if decide (b = 0 ∨ (a = -2^31 ∧ b = -1)) then λ _, Crash else mret (Z.quot a b).

(** [v as usize] for an f32 [v]: truncation, saturating at 0. *)
Definition to_usize (v : Q) : nat := Z.to_nat (Qfloor v).

Section Drawing.
(** The resource directory: the image every loadable path decodes to. *)
Variable files : gmap string Image.t.

(** [graphics::Image::new(ctx, key)]. *)
Definition image_new (key : string) : render Image.t :=
  λ s, match files !! key with Some i => Drawn i s | None => LoadError key end.

(** data.rs:32-38 *)
Definition cache_get (key : string) : render Image.t :=
  resources ← gets Frame.image_caches;
  (if decide (is_Some (resources !! key)) then mret ()
   else image ← image_new key;
        modify (λ s, {| Frame.image_caches := <[key:=image]> (Frame.image_caches s);
                        Frame.screen := Frame.screen s |}));;
  resources ← gets Frame.image_caches;
  unwrap_r (resources !! key).
End Drawing.

(** ** The camera (rendering.rs:113-224) *)

Module Rendering.

Definition camera_character (g : Game.t) : option Character.t :=
  Game.characters g !! Camera.character_id (Game.camera g).

(** The culling test of rendering.rs:68-75 and 141-148: on the camera
    character's map and at most [extend] tiles away on each axis. *)
Definition in_view (c : Character.t) (cam : Camera.t) (map_id : Z) (x y : Q) : bool :=
  bool_decide (map_id = Position.map_id (Character.position c)) &&
  Qle_bool (Qabs (inject_Z (Position.x (Character.position c)) - x)) (inject_Z (Camera.extend cam)) &&
  Qle_bool (Qabs (inject_Z (Position.y (Character.position c)) - y)) (inject_Z (Camera.extend cam)).

(** rendering.rs:114-127: the screen point of tile [(x, y)]. *)
Definition dest (g : Game.t) (x y : Q) : option (Q * Q) :=
  c ← camera_character g;
  let cam := Game.camera g in
  Some (((inject_Z (- Position.x (Character.position c) + Camera.extend cam) + x)
           * inject_Z (Camera.tile_size cam) + inject_Z (Camera.border cam))%Q,
        ((inject_Z (- Position.y (Character.position c) + Camera.extend cam) + y)
           * inject_Z (Camera.tile_size cam) + inject_Z (Camera.border cam))%Q).

(** rendering.rs:140-159: the parameter of the call [draw] makes, if any. *)
Definition draw_param (g : Game.t) (map_id : Z) (x y : Q) : option DrawParam.t :=
  c ← camera_character g;
  if in_view c (Game.camera g) map_id x y then DrawParam.at_point <$> dest g x y else None.

(** rendering.rs:129-161 *)
Definition draw (d : Drawable.t) (map_id : Z) (x y : Q) (g : Game.t) : render unit :=
  match draw_param g map_id x y with
  | Some p => graphics_draw d p
  | None => mret ()
  end.

(** rendering.rs:163-181 *)
Definition draw_at_position (d : Drawable.t) (position : Position.t) (g : Game.t) : render unit :=
  draw d (Position.map_id position) (inject_Z (Position.x position)) (inject_Z (Position.y position)) g.

(** rendering.rs:183-204 *)
Definition draw_character_border (c : Character.t) (g : Game.t) : render unit :=
  draw (Drawable.Rectangle (DrawMode.Stroke 2) 0 0 64 64 (Color.from_rgb 0 255 0))
    (Position.map_id (Character.position c))
    (inject_Z (Position.x (Character.position c)) + Character.offset_x c)
    (inject_Z (Position.y (Character.position c)) + Character.offset_y c) g.

(** rendering.rs:208: the side of the square of visible tiles. *)
Definition view_size (cam : Camera.t) : Z := (Camera.extend cam * 2 + 1) * Camera.tile_size cam.

(** rendering.rs:206-223 *)
Definition draw_border (g : Game.t) : render unit :=
  let cam := Game.camera g in
  let size := view_size cam in
  graphics_draw
    (Drawable.Rectangle (DrawMode.Stroke (inject_Z (Camera.border cam)))
       (Z.quot (Camera.border cam) 2) (Z.quot (Camera.border cam) 2)
       (size + Camera.border cam) (size + Camera.border cam) (Color.from_rgb 255 0 0))
    DrawParam.default.

End Rendering.

(** ** [RenderingParam] (rendering.rs:9-111) *)

Module Destination.
Record t := mk { map_id : Z; x : Q; y : Q }.
End Destination.

Module RectSetting.
Record t := mk { rect_x : Q; rect_y : Q; rect_width : Q; rect_height : Q }.
End RectSetting.

Module TargetSize.
Record t := mk { target_width : Q; target_height : Q }.
End TargetSize.

Module RenderingParam.
Record t := mk {
  dest : option Destination.t;
  rect : option RectSetting.t;
  target : option TargetSize.t;
}.

Definition default : t := mk None None None.

(** The builders of rendering.rs:34-62. *)
Definition set_dest (map_id : Z) (x y : Q) (p : t) : t :=
  mk (Some (Destination.mk map_id x y)) (rect p) (target p).
Definition set_position (position : Position.t) (p : t) : t :=
  set_dest (Position.map_id position) (inject_Z (Position.x position)) (inject_Z (Position.y position)) p.
Definition set_rect (rx ry rw rh : Q) (p : t) : t :=
  mk (dest p) (Some (RectSetting.mk rx ry rw rh)) (target p).
Definition set_target_size (x y : Q) (p : t) : t :=
  mk (dest p) (rect p) (Some (TargetSize.mk x y)).

(** rendering.rs:64-110: the parameter of the call [draw_image] makes, or
    [None] when it returns early. *)
Definition image_param (p : t) (g : Game.t) (image : Image.t) : option DrawParam.t :=
  c ← Rendering.camera_character g;
  param ← match dest p with
          | Some d =>
              if Rendering.in_view c (Game.camera g) (Destination.map_id d) (Destination.x d) (Destination.y d)
              then Some (match Rendering.dest g (Destination.x d) (Destination.y d) with
                         | Some pt => DrawParam.at_point pt
                         | None => DrawParam.default
                         end)
              else None
          | None => Some DrawParam.default
          end;
  let iw := inject_Z (Image.width image) in
  let ih := inject_Z (Image.height image) in
  let param :=
    match rect p with
    | Some r =>
        DrawParam.mk (RectSetting.rect_x r / iw, RectSetting.rect_y r / ih,
                      RectSetting.rect_width r / iw, RectSetting.rect_height r / ih)%Q
          (DrawParam.dest param) (DrawParam.scale param)
    | None => param
    end in
  match target p with
  | Some t =>
      Some (DrawParam.mk (DrawParam.src param) (DrawParam.dest param)
              (match rect p with
               | Some r => (TargetSize.target_width t / RectSetting.rect_width r,
                            TargetSize.target_height t / RectSetting.rect_height r)%Q
               | None => (TargetSize.target_width t / iw, TargetSize.target_height t / ih)%Q
               end))
  | None => Some param
  end.

Definition draw_image (p : t) (g : Game.t) (path : string) (image : Image.t) : render unit :=
  match image_param p g image with
  | Some param => graphics_draw (Drawable.Image path) param
  | None => mret ()
  end.

End RenderingParam.

(** ** The stats panel (ui/stats.rs) *)

Module StatsUi.
(** ui/stats.rs:11-19 *)
Definition text (c : Character.t) : string :=
  "Hp: " +:+ pretty (Attribute.current (Character.hp c)) +:+ "/" +:+
  pretty (Attribute.max (Character.hp c)) +:+ " " +:+ nl +:+
  "Mp: " +:+ pretty (Attribute.current (Character.mp c)) +:+ "/" +:+
  pretty (Attribute.max (Character.mp c)) +:+ " " +:+ nl +:+
  "Attack: " +:+ pretty (Attribute.current (Character.attack c)) +:+ " " +:+ nl +:+
  "Defence: " +:+ pretty (Attribute.current (Character.defence c)).

(** [Stats::new], [draw_canvas] and the draw of the canvas at [(x, y)]. *)
Definition draw_at (c : Character.t) (x y : Q) : render unit :=
  graphics_draw (Drawable.Canvas (text c)) (DrawParam.at_point (x, y)).
End StatsUi.

(** ** Theorems *)

Lemma bind_Drawn {A B} (m : render A) (f : A → render B) s a s' :
  m s = Drawn a s' → (m ≫= f) s = f a s'.
Proof. intros H. unfold mbind, render_bind. by rewrite H. Qed.

Lemma in_view_spec c cam map_id x y :
  Rendering.in_view c cam map_id x y = true ↔
  map_id = Position.map_id (Character.position c) ∧
  (Qabs (inject_Z (Position.x (Character.position c)) - x) <= inject_Z (Camera.extend cam))%Q ∧
  (Qabs (inject_Z (Position.y (Character.position c)) - y) <= inject_Z (Camera.extend cam))%Q.
Proof. unfold Rendering.in_view. rewrite !andb_true_iff, bool_decide_eq_true, !Qle_bool_iff. tauto. Qed.

(** The square of side [view_size] whose corner is [(border, border)]:
    the inside of the outline [draw_border] strokes. *)
Definition in_square (cam : Camera.t) (pt : Q * Q) : Prop :=
  let b := inject_Z (Camera.border cam) in
  let t := inject_Z (Camera.tile_size cam) in
  let n := inject_Z (Rendering.view_size cam) in
  (b <= pt.1 ∧ pt.1 + t <= b + n ∧ b <= pt.2 ∧ pt.2 + t <= b + n)%Q.

(** One axis: a tile at most [e] tiles from the camera lands in the
    square. *)
Lemma axis_in_square (e c x t b : Q) :
  (0 <= t → Qabs (c - x) <= e →
   b <= (- c + e + x) * t + b ∧ (- c + e + x) * t + b + t <= b + (e * 2 + 1) * t)%Q.
Proof.
  intros Ht Hx. apply Qabs_Qle_condition in Hx.
  assert (0 <= (- c + e + x) * t)%Q by (apply Qmult_le_0_compat; lra).
  assert ((- c + e + x) * t <= (e * 2) * t)%Q by (apply Qmult_le_compat_r; lra).
  split; nra.
Qed.

Lemma dest_in_square g c map_id x y pt :
  Rendering.camera_character g = Some c →
  Rendering.in_view c (Game.camera g) map_id x y = true →
  0 ≤ Camera.tile_size (Game.camera g) →
  Rendering.dest g x y = Some pt → in_square (Game.camera g) pt.
Proof.
  unfold Rendering.dest, in_square, Rendering.view_size. intros Hc Hv Ht Hd.
  rewrite Hc in Hd. injection Hd as <-. apply in_view_spec in Hv as (_ & Hx & Hy). simpl.
  rewrite !inject_Z_mult, !inject_Z_plus, !inject_Z_opp.
  rewrite Zle_Qle in Ht. change (inject_Z 0) with 0%Q in Ht.
  destruct (axis_in_square _ _ _ _ (inject_Z (Camera.border (Game.camera g))) Ht Hx).
  destruct (axis_in_square _ _ _ _ (inject_Z (Camera.border (Game.camera g))) Ht Hy).
  repeat split; assumption.
Qed.

Lemma camera_dest g c x y :
  Rendering.camera_character g = Some c → is_Some (Rendering.dest g x y).
Proof. unfold Rendering.dest. intros ->. by eexists. Qed.

(** Every call [Rendering::draw] makes lands in the bordered square. *)
Lemma draw_param_in_square g map_id x y p :
  Rendering.draw_param g map_id x y = Some p →
  0 ≤ Camera.tile_size (Game.camera g) → in_square (Game.camera g) (DrawParam.dest p).
Proof.
  unfold Rendering.draw_param. intros Hp Ht.
  destruct (Rendering.camera_character g) as [c|] eqn:Hc; [|done]. simpl in Hp.
  destruct (Rendering.in_view _ _ _ _ _) eqn:Hv; [|done].
  destruct (Rendering.dest g x y) as [pt|] eqn:Hd; [|done]. injection Hp as <-.
  exact (dest_in_square g c map_id x y pt Hc Hv Ht Hd).
Qed.

(** Every image [draw_image] draws at a destination lands in the
    bordered square. *)
Lemma image_param_in_square p g image d prm :
  RenderingParam.dest p = Some d →
  RenderingParam.image_param p g image = Some prm →
  0 ≤ Camera.tile_size (Game.camera g) → in_square (Game.camera g) (DrawParam.dest prm).
Proof.
  unfold RenderingParam.image_param. intros Hd Hp Ht. rewrite Hd in Hp.
  destruct (Rendering.camera_character g) as [c|] eqn:Hc; [|done]. simpl in Hp.
  destruct (Rendering.in_view _ _ _ _ _) eqn:Hv; [|done].
  destruct (camera_dest g c (Destination.x d) (Destination.y d) Hc) as [pt Hpt].
  rewrite Hpt in Hp. simpl in Hp.
  assert (DrawParam.dest prm = pt) as ->
    by (destruct (RenderingParam.rect p), (RenderingParam.target p); injection Hp as <-; done).
  exact (dest_in_square g c _ _ _ pt Hc Hv Ht Hpt).
Qed.

Lemma inject_Z_nonzero z : z ≠ 0 → ¬ (inject_Z z == 0)%Q.
Proof. intros Hz Hq. apply Hz. change 0%Q with (inject_Z 0) in Hq. by apply inject_Z_injective. Qed.

(** [draw_image] with a source rectangle and a target size draws
    exactly that rectangle of the image (its source rectangle, in the
    image's pixels, is the rectangle asked for) scaled to exactly the
    target size, whatever the size of the image. *)
Theorem image_param_scale p g image prm r t :
  RenderingParam.image_param p g image = Some prm →
  RenderingParam.rect p = Some r → RenderingParam.target p = Some t →
  ¬ (RectSetting.rect_width r == 0)%Q → ¬ (RectSetting.rect_height r == 0)%Q →
  Image.width image ≠ 0 → Image.height image ≠ 0 →
  let '(sx, sy, sw, sh) := DrawParam.src prm in
  (sx * inject_Z (Image.width image) == RectSetting.rect_x r ∧
   sy * inject_Z (Image.height image) == RectSetting.rect_y r ∧
   (DrawParam.scale prm).1 * (sw * inject_Z (Image.width image)) == TargetSize.target_width t ∧
   (DrawParam.scale prm).2 * (sh * inject_Z (Image.height image)) == TargetSize.target_height t)%Q.
Proof.
  unfold RenderingParam.image_param. intros Hp Hr Ht Hw Hh Hiw Hih.
  apply inject_Z_nonzero in Hiw, Hih. rewrite Hr, Ht in Hp.
  destruct (Rendering.camera_character g); [|done]. simpl in Hp.
  destruct (RenderingParam.dest p) as [d|]; simpl in Hp;
    [destruct (Rendering.in_view _ _ _ _ _); [|done]; simpl in Hp|];
    injection Hp as <-; simpl; repeat split; field; auto.
Qed.

(** C31: the image cache only holds decoded files: from a cache that agrees
    with the resource directory, [get] returns the file's image, caches
    it (a hit leaves the cache as it is) and keeps the cache in agreement,
    and fails exactly when the file does not load. *)
Theorem cache_get_spec files key s :
  Frame.image_caches s ⊆ files →
  match files !! key with
  | Some image =>
      cache_get files key s =
        Drawn image (Frame.mk (<[key:=image]> (Frame.image_caches s)) (Frame.screen s)) ∧
      <[key:=image]> (Frame.image_caches s) ⊆ files
  | None => cache_get files key s = LoadError key
  end.
Proof.
  intros Hs. unfold cache_get, gets, mbind, render_bind, mret, render_ret. simpl.
  destruct (Frame.image_caches s !! key) as [i|] eqn:Hk.
  - rewrite (lookup_weaken _ _ _ _ Hk Hs). rewrite decide_True by done. simpl.
    rewrite Hk, insert_id by done. split; [by destruct s|done].
  - rewrite decide_False by apply is_Some_None. unfold image_new.
    destruct (files !! key) as [i|] eqn:Hf; [|done]. simpl.
    rewrite lookup_insert_eq. split; [done|]. by apply insert_subseteq_l.
Qed.

(** Whatever the cache holds, [get] leaves the screen alone and either
    returns an image or fails to load. *)
Lemma cache_get_screen files key s :
  (∃ image c, cache_get files key s = Drawn image (Frame.mk c (Frame.screen s))) ∨
  cache_get files key s = LoadError key.
Proof.
  unfold cache_get, gets, mbind, render_bind, mret, render_ret. simpl.
  destruct (Frame.image_caches s !! key) as [i|] eqn:Hk.
  - rewrite decide_True by done. simpl. rewrite Hk. left. exists i, (Frame.image_caches s). by destruct s.
  - rewrite decide_False by apply is_Some_None. unfold image_new.
    destruct (files !! key) as [i|]; [|by right]. simpl. rewrite lookup_insert_eq. left. by eexists _, _.
Qed.

(** ** What draws keep *)

(** [m] keeps the property [P] of every call on screen. *)
Definition keeps (P : Drawable.t * DrawParam.t → Prop) {A} (m : render A) : Prop :=
  ∀ s a s', m s = Drawn a s' → Forall P (Frame.screen s) → Forall P (Frame.screen s').

(** [m] does not panic, whatever the frame. *)
Definition no_crash {A} (m : render A) : Prop := ∀ s, m s ≠ Crash.

Create HintDb draw discriminated.

Section Keeps.
Variable P : Drawable.t * DrawParam.t → Prop.

Lemma keeps_ret {A} (a : A) : keeps P (mret a).
Proof. by intros s b s' [= _ <-]. Qed.

Lemma keeps_bind {A B} (m : render A) (f : A → render B) :
  keeps P m → (∀ a, keeps P (f a)) → keeps P (m ≫= f).
Proof.
  intros Hm Hf s b s'. unfold mbind, render_bind.
  destruct (m s) as [a s1| | |] eqn:E; try discriminate.
  intros H Hs. exact (Hf a s1 b s' H (Hm s a s1 E Hs)).
Qed.

Lemma keeps_for_each {A} (l : list A) (f : A → render unit) :
  (∀ x, keeps P (f x)) → keeps P (for_each l f).
Proof. intros Hf. induction l as [|x l IH]; simpl; [apply keeps_ret|]. by apply keeps_bind. Qed.

Lemma keeps_draw d p : P (d, p) → keeps P (graphics_draw d p).
Proof. intros Hp s a s' [= _ <-] Hs. simpl. apply Forall_app. split; [done|by constructor]. Qed.

Lemma keeps_clear : keeps P graphics_clear.
Proof. intros s a s' [= _ <-] _. constructor. Qed.

Lemma keeps_unwrap {A} (o : option A) : keeps P (unwrap_r o).
Proof. intros s a s'. unfold unwrap_r. destruct o; [by intros [= _ <-]|discriminate]. Qed.

Lemma keeps_of_res {A} (r : res A) : keeps P (of_res r).
Proof. intros s a s'. unfold of_res. destruct r; [by intros [= _ <-]|discriminate..]. Qed.

Lemma keeps_i32_rem a b : keeps P (i32_rem a b).
Proof. unfold i32_rem. case_decide; [intros ??? Hc; discriminate Hc|apply keeps_ret]. Qed.

Lemma keeps_i32_div a b : keeps P (i32_div a b).
Proof. unfold i32_div. case_decide; [intros ??? Hc; discriminate Hc|apply keeps_ret]. Qed.

Lemma keeps_cache_get files key : keeps P (cache_get files key).
Proof.
  intros s a s' H Hs. destruct (cache_get_screen files key s) as [(i & c & E)|E];
    rewrite E in H; [|discriminate]. by injection H as _ <-.
Qed.

Lemma keeps_rendering_draw d map_id x y g :
  (∀ p, Rendering.draw_param g map_id x y = Some p → P (d, p)) →
  keeps P (Rendering.draw d map_id x y g).
Proof.
  unfold Rendering.draw. intros Hp. destruct (Rendering.draw_param _ _ _ _) eqn:E;
    [apply keeps_draw; by apply Hp|apply keeps_ret].
Qed.

Lemma keeps_draw_image p g path image :
  (∀ prm, RenderingParam.image_param p g image = Some prm → P (Drawable.Image path, prm)) →
  keeps P (RenderingParam.draw_image p g path image).
Proof.
  unfold RenderingParam.draw_image. intros Hp. destruct (RenderingParam.image_param _ _ _) eqn:E;
    [apply keeps_draw; by apply Hp|apply keeps_ret].
Qed.
End Keeps.

#[export] Hint Resolve keeps_ret keeps_draw keeps_clear keeps_unwrap keeps_of_res keeps_i32_rem
  keeps_i32_div keeps_cache_get : draw.

Lemma no_crash_ret {A} (a : A) : no_crash (mret a).
Proof. by intros s. Qed.

Lemma no_crash_bind {A B} (m : render A) (f : A → render B) :
  no_crash m → (∀ a, no_crash (f a)) → no_crash (m ≫= f).
Proof.
  intros Hm Hf s. specialize (Hm s). unfold mbind, render_bind.
  destruct (m s); [apply Hf|discriminate|contradiction|discriminate].
Qed.

Lemma no_crash_for_each {A} (l : list A) (f : A → render unit) :
  (∀ x, x ∈ l → no_crash (f x)) → no_crash (for_each l f).
Proof.
  intros Hf. induction l as [|x l IH]; simpl; [apply no_crash_ret|].
  apply no_crash_bind; [apply Hf; left|intros _; apply IH; intros y Hy; apply Hf; by right].
Qed.

Lemma no_crash_draw d p : no_crash (graphics_draw d p).
Proof. by intros s. Qed.

Lemma no_crash_clear : no_crash graphics_clear.
Proof. by intros s. Qed.

Lemma no_crash_unwrap {A} (o : option A) : is_Some o → no_crash (unwrap_r o).
Proof. by intros [a ->] s. Qed.

Lemma no_crash_i32_rem a b : 0 < b → no_crash (i32_rem a b).
Proof. intros Hb. unfold i32_rem. rewrite decide_False by lia. apply no_crash_ret. Qed.

Lemma no_crash_i32_div a b : 0 < b → no_crash (i32_div a b).
Proof. intros Hb. unfold i32_div. rewrite decide_False by lia. apply no_crash_ret. Qed.

Lemma no_crash_cache_get files key : no_crash (cache_get files key).
Proof. intros s. by destruct (cache_get_screen files key s) as [(i & c & ->)| ->]. Qed.

Lemma no_crash_rendering_draw d map_id x y g : no_crash (Rendering.draw d map_id x y g).
Proof. unfold Rendering.draw. by destruct (Rendering.draw_param _ _ _ _). Qed.

Lemma no_crash_draw_image p g path image : no_crash (RenderingParam.draw_image p g path image).
Proof. unfold RenderingParam.draw_image. by destruct (RenderingParam.image_param _ _ _). Qed.

#[export] Hint Resolve no_crash_ret no_crash_draw no_crash_clear no_crash_i32_rem no_crash_i32_div
  no_crash_cache_get no_crash_rendering_draw no_crash_draw_image : draw.

(** A loop whose every body only draws draws all their calls, in order. *)
Lemma for_each_draws {A} (l : list A) (f : A → render unit) (out : A → list (Drawable.t * DrawParam.t)) s :
  (∀ x s, f x s = Drawn tt (Frame.mk (Frame.image_caches s) (Frame.screen s ++ out x))) →
  for_each l f s = Drawn tt (Frame.mk (Frame.image_caches s) (Frame.screen s ++ mjoin (out <$> l))).
Proof.
  intros Hf. revert s. induction l as [|x l IH]; intros s; simpl.
  - rewrite app_nil_r. by destruct s.
  - unfold mbind at 1, render_bind at 1. rewrite Hf, IH. simpl. by rewrite app_assoc.
Qed.

Lemma lookup_enumerate {A} (l : list A) i x : l !! i = Some x → (i, x) ∈ enumerate l.
Proof.
  intros Hi. apply (list_elem_of_lookup_2 _ i). unfold enumerate. rewrite lookup_zip_with.
  rewrite lookup_seq_lt by (by apply lookup_lt_Some in Hi). simpl. by rewrite Hi.
Qed.

(** ** Concrete draws *)

(** Character 1 at (5, 8) on map 0, followed by a camera that shows two
    tiles around it, 64 pixels each, inside a border of 10. *)
Definition view_game : Game.t :=
  { empty_game with
      Game.characters := {[1 := npc_at 1 (Position.mk 0 5 8)]};
      Game.camera := Camera.mk 1 2 64 10 }.


Definition sample_files : gmap string Image.t := {["/a.png" := Image.mk 8 8]}.

Lemma cache_get_spec_witness :
  Frame.image_caches (Frame.mk ∅ []) ⊆ sample_files ∧
  match sample_files !! "/a.png" with
  | Some image =>
      cache_get sample_files "/a.png" (Frame.mk ∅ []) =
        Drawn image (Frame.mk (<["/a.png":=image]> (Frame.image_caches (Frame.mk ∅ [])))
                       (Frame.screen (Frame.mk ∅ []))) ∧
      <["/a.png":=image]> (Frame.image_caches (Frame.mk ∅ [])) ⊆ sample_files
  | None => cache_get sample_files "/a.png" (Frame.mk ∅ []) = LoadError "/a.png"
  end.
Proof. split; [apply map_empty_subseteq|apply cache_get_spec, map_empty_subseteq]. Defined.
