(* ===== verification/Scenes.v ===== *)
(** * Scenes: the input-handling half of the presentation layer

    Models the scene stack of src/src/scene.rs and the [update] and
    [key_down_event] handlers of the seven scenes (src/src/scenes/*.rs),
    which decide when the entry points of [Game] are called; the drawing
    half ([draw], rendering.rs, ui/) is in [Rendering] and [SceneDraw].
    [Data] (data.rs) is the registry with the two flags the scenes share;
    its image cache is threaded by the draws.
    Each scene's handler returns the scene's new state and a [Transition];
    the stack replaces its top by the new state and then applies the
    transition ([SceneStack::do_transition]).  The stack [Vec] is kept top
    first.  The frame's [update] of [Game] and the re-entrant calls take
    the fuel [fuel] of [Engine]. *)

From S2P Require Import Prelude Stats TurnQueue World Spatial Command Novel Floor Shop Turn Engine.

(** data.rs:7-48, without the image cache. *)
Module Data.
Record t := mk {
  game : Game.t;
  target_finish : bool;
  action_id : option Z;
}.

(** data.rs:16-23 *)
Definition new (game : Game.t) : t := mk game false None.
End Data.

(** The keys the scenes read (ggez [KeyCode]). *)
Inductive Key := KeyW | KeyA | KeyS | KeyD | KeyQ | KeyE | KeyN | Escape | OtherKey.

(** The scenes and their state (scenes/*.rs).  The action and ability
    menus keep, beside the ids of their entries, the text of each entry,
    made once when the menu opens; their meshes are constants. *)
Inductive Scene :=
| Level
| Novel (current_item : nat)
| Action (character_id : Z) (current_item : nat) (action_ids : list Z) (action_texts : list string)
    (waiting : bool)
| Target (character_id action_id : Z) (position : Position.t)
| SelectAbility (character_id : Z) (current_item : nat) (action_ids : list Z) (action_texts : list string)
| ShopMenu (current_item : nat)
| Pause.

(** scene.rs:21-26 *)
Inductive Transition :=
| TNone
| TPop
| TPush (s : Scene)
| TReplace (s : Scene).

Abbreviation handled := (Data.t * Scene * Transition)%type.

Section Scenes.
Variable fuel : nat.
Implicit Types (d : Data.t).

Definition set_game d (g : Game.t) : Data.t := { d with Data.game := g }.

(** An entry point of [Game] called on [data.game]. *)
Definition with_game d (m : res Game.t) : res Data.t := g ← m; Ok (set_game d g).

(** The frame's [data.game.update(delta)]. *)
Definition frame d (delta : Q) : res Data.t := with_game d (game_update fuel delta (Data.game d)).

(** action_scene.rs:28-50 and select_ability_scene.rs:22-35: the actions
    of the character's action list that resolve to an action record. *)
Definition menu_action_ids (character_id : Z) (g : Game.t) : list Z :=
  match Game.characters g !! character_id with
  | Some c =>
      omap (λ ca, action_id ← CharacterAction.action_id <$> Game.character_actions g !! ca;
                  _ ← Game.actions g !! action_id; Some action_id)
        (Character.character_action_ids c)
  | None => []
  end.

(** The text of each of those entries, pushed in the same loop: the
    action's card (action_scene.rs:34-43) or its name
    (select_ability_scene.rs:28). *)
Definition menu_action_texts (text : Action.t → string) (character_id : Z) (g : Game.t) : list string :=
  match Game.characters g !! character_id with
  | Some c =>
      omap (λ ca, action_id ← CharacterAction.action_id <$> Game.character_actions g !! ca;
                  text <$> Game.actions g !! action_id)
        (Character.character_action_ids c)
  | None => []
  end.

(** [format!("{:?}", target_kind)]. *)
Definition target_kind_debug (k : TargetKind.t) : string :=
  match k with
  | TargetKind.None => "None"
  | TargetKind.Character => "Character"
  | TargetKind.Position => "Position"
  end.

(** action_scene.rs:34-43 *)
Definition action_card (a : Action.t) : string :=
  " Name: " +:+ Action.name a +:+ " " +:+ nl +:+
  " Description: " +:+ Action.description a +:+ " " +:+ nl +:+
  " Targe: " +:+ target_kind_debug (Action.target_kind a) +:+ " " +:+ nl +:+
  " Cost: Hp(" +:+ pretty (default 0 (Action.hp a)) +:+ ") / MP(" +:+
  pretty (default 0 (Action.mp a)) +:+ ") " +:+ nl +:+
  " Range: " +:+ pretty (Action.range a) +:+ " " +:+ nl +:+
  " Cooldown: " +:+ pretty (Action.cooldown a).

(** action_scene.rs:24-67: the menu opens on its first entry, not
    waiting. *)
Definition action_scene_new (g : Game.t) (character_id : Z) : Scene :=
  Action character_id 0 (menu_action_ids character_id g) (menu_action_texts action_card character_id g)
    false.

(** select_ability_scene.rs:18-51 *)
Definition select_ability_scene_new (g : Game.t) (character_id : Z) : Scene :=
  SelectAbility character_id 0 (menu_action_ids character_id g)
    (menu_action_texts Action.name character_id g).

(** target_scene.rs:21-34: the cursor starts on the character
    ([unwrap]). *)
Definition target_new d (character_id action_id : Z) : res Scene :=
  position ← unwrap (Character.position <$> Game.characters (Data.game d) !! character_id);
  Ok (Target character_id action_id position).

(** The choices offered by the dialogue. *)
Definition offered d : option (list string) :=
  NovelSystem.current (Game.novel_system (Data.game d)) ≫= CurrentScript.select.

(** The number of items of the open shop (shop_scene.rs:161-169). *)
Definition shop_len d : nat :=
  let g := Data.game d in
  default 0%nat (cur ← ShopSystem.current (Game.shop_system g);
                 c ← Game.characters g !! CurrentShop.shop_character_id cur;
                 shop ← Character.shop c;
                 Some (length (Shop.items shop))).

(** [Down] on a list of [m] items wraps to the top (novel_scene.rs:172-187,
    shop_scene.rs:159-175). *)
Definition wrap_down (i m : nat) : nat := if decide (i + 1 < m)%nat then S i else 0%nat.

(** [Up] stops at the top. *)
Definition up (i : nat) : nat := if decide (1 ≤ i)%nat then i - 1 else i.

(** A menu laid out in columns of [row]: [W] and [S] move by one, [A] and
    [D] by a column, all within the [len] items (action_scene.rs:127-151,
    select_ability_scene.rs:115-139). *)
Definition menu_move (row len : nat) (k : Key) (i : nat) : nat :=
  match k with
  | KeyW => up i
  | KeyA => if decide (row ≤ i)%nat then i - row else i
  | KeyS => if decide (i + 1 < len)%nat then S i else i
  | KeyD => if decide (i + row < len)%nat then i + row else i
  | _ => i
  end.

(** level_scene.rs:27-35 *)
Definition level_update d (delta : Q) : res handled :=
  if bool_decide (is_Some (NovelSystem.current (Game.novel_system (Data.game d))))
  then Ok (d, Level, TPush (Novel 0))
  else d ← frame d delta; Ok (d, Level, TNone).

(** level_scene.rs:205-258: a step of the player whose turn it is. *)
Definition player_step d (dx dy : Z) : res Data.t :=
  let g := Data.game d in
  match Turn.kind <$> TurnSystem.current_turn (Game.turn_system g) with
  | Some (TurnKind.Character character_id) =>
      '(g, r) ← move_command character_id dx dy g;
      match r with
      | inr command => Ok (set_game d (add_player_command character_id command g))
      | inl _ => Ok (set_game d g)
      end
  | _ => Ok d
  end.

(** level_scene.rs:197-291 *)
Definition level_key d (k : Key) : res handled :=
  let g := Data.game d in
  if TurnSystem.waiting_input (Game.turn_system g) then
    match k with
    | KeyW => d ← player_step d 0 (-1); Ok (d, Level, TNone)
    | KeyA => d ← player_step d (-1) 0; Ok (d, Level, TNone)
    | KeyS => d ← player_step d 0 1; Ok (d, Level, TNone)
    | KeyD => d ← player_step d 1 0; Ok (d, Level, TNone)
    | KeyE =>
        match Turn.kind <$> TurnSystem.current_turn (Game.turn_system g) with
        | Some (TurnKind.Character character_id) =>
            Ok (d, Level, TPush (action_scene_new g character_id))
        | _ => Ok (d, Level, TNone)
        end
    | Escape => Ok (d, Level, TPush Pause)
    | _ => Ok (d, Level, TNone)
    end
  else
    match k with
    | Escape => Ok (d, Level, TPush Pause)
    | _ => Ok (d, Level, TNone)
    end.

(** novel_scene.rs:28-47 *)
Definition novel_update_scene d (i : nat) (delta : Q) : res handled :=
  let g := Data.game d in
  if bool_decide (is_Some (ShopSystem.current (Game.shop_system g))) then Ok (d, Novel i, TPush (ShopMenu 0)) else
  match NovelSystem.current (Game.novel_system g) with
  | None => Ok (d, Novel i, TPop)
  | Some cur =>
      if CurrentScript.waiting_select_ability cur
      then Ok (d, Novel i, TPush (select_ability_scene_new g (CurrentScript.character_id cur)))
      else d ← frame d delta; Ok (d, Novel i, TNone)
  end.

(** novel_scene.rs:194-217: confirm a choice in range, or read on. *)
Definition novel_confirm d (i : nat) : res Data.t :=
  match offered d with
  | Some sel =>
      if decide (i < length sel)%nat
      then with_game d (select (hooks_at fuel) fuel i (Data.game d))
      else Ok d
  | None => with_game d (run (hooks_at fuel) fuel (Data.game d))
  end.

(** novel_scene.rs:154-226 *)
Definition novel_key d (i : nat) (k : Key) : res handled :=
  match k with
  | KeyW => Ok (d, Novel (if decide (0 < i)%nat then i - 1 else i), TNone)
  | KeyS => Ok (d, Novel (wrap_down i (default 0%nat (length <$> offered d))), TNone)
  | KeyE =>
      d ← novel_confirm d i;
      if bool_decide (is_Some (NovelSystem.current (Game.novel_system (Data.game d))))
      then Ok (d, Novel i, TNone) else Ok (d, Novel i, TPop)
  | Escape => Ok (d, Novel i, TPush Pause)
  | _ => Ok (d, Novel i, TNone)
  end.

(** action_scene.rs:71-79 *)
Definition action_update d (cid : Z) (i : nat) (ids : list Z) (texts : list string) (waiting : bool) : res handled :=
  if waiting then
    if Data.target_finish d then Ok (d, Action cid i ids texts false, TPop)
    else Ok (d, Action cid i ids texts false, TNone)
  else Ok (d, Action cid i ids texts waiting, TNone).

(** action_scene.rs:119-177 *)
Definition action_key d (cid : Z) (i : nat) (ids : list Z) (texts : list string) (waiting : bool)
    (k : Key) : res handled :=
  match k with
  | KeyQ => Ok ({ d with Data.action_id := None }, Action cid i ids texts waiting, TPop)
  | KeyE =>
      match ids !! i with
      | Some aid =>
          let d := { d with Data.target_finish := false } in
          s ← target_new d cid aid;
          Ok (d, Action cid i ids texts true, TPush s)
      | None => Ok (d, Action cid i ids texts waiting, TNone)
      end
  | _ => Ok (d, Action cid (menu_move 4 (length ids) k i) ids texts waiting, TNone)
  end.

(** target_scene.rs:98-125: the command of the chosen action at the
    cursor, handed to the scheduler. *)
Definition target_confirm d (cid aid : Z) (position : Position.t) : res handled :=
  let g := Data.game d in
  target_kind ← unwrap (Action.target_kind <$> Game.actions g !! aid);
  let target := match target_kind with
                | TargetKind.None => Some Target.None
                | TargetKind.Character => Target.Character <$> character_at_position position g
                | TargetKind.Position => Some (Target.Position position)
                end in
  match target with
  | Some target =>
      '(g, r) ← command_new g cid aid target;
      match r with
      | inr command =>
          Ok ({| Data.game := add_player_command cid command g; Data.target_finish := true;
                 Data.action_id := Data.action_id d |}, Target cid aid position, TPop)
      | inl _ => Ok (set_game d g, Target cid aid position, TNone)
      end
  | None => Ok (d, Target cid aid position, TNone)
  end.

(** target_scene.rs:67-135 *)
Definition target_key d (cid aid : Z) (p : Position.t) (k : Key) : res handled :=
  match k with
  | KeyW => Ok (d, Target cid aid { p with Position.y ::= λ y, y - 1 }, TNone)
  | KeyA => Ok (d, Target cid aid { p with Position.x ::= λ x, x - 1 }, TNone)
  | KeyS => Ok (d, Target cid aid { p with Position.y ::= Z.add 1 }, TNone)
  | KeyD => Ok (d, Target cid aid { p with Position.x ::= Z.add 1 }, TNone)
  | KeyQ => Ok ({ d with Data.target_finish := false }, Target cid aid p, TPop)
  | KeyE => target_confirm d cid aid p
  | _ => Ok (d, Target cid aid p, TNone)
  end.

(** select_ability_scene.rs:55-69 *)
Definition select_ability_update d (cid : Z) (i : nat) (ids : list Z) (texts : list string) (delta : Q) : res handled :=
  match CurrentScript.waiting_select_ability <$> NovelSystem.current (Game.novel_system (Data.game d)) with
  | Some true => d ← frame d delta; Ok (d, SelectAbility cid i ids texts, TNone)
  | _ => Ok (d, SelectAbility cid i ids texts, TPop)
  end.

(** select_ability_scene.rs:107-157; [cancel_select_ability] is empty. *)
Definition select_ability_key d (cid : Z) (i : nat) (ids : list Z) (texts : list string) (k : Key) : res handled :=
  match k with
  | KeyQ => Ok (d, SelectAbility cid i ids texts, TNone)
  | KeyE =>
      d ← with_game d (select_ability (hooks_at fuel) fuel i (Data.game d));
      Ok (d, SelectAbility cid i ids texts, TNone)
  | Escape => Ok (d, SelectAbility cid i ids texts, TPush Pause)
  | _ => Ok (d, SelectAbility cid (menu_move 5 (length ids) k i) ids texts, TNone)
  end.

(** shop_scene.rs:21-29 *)
Definition shop_update d (i : nat) (delta : Q) : res handled :=
  d ← frame d delta;
  if bool_decide (ShopSystem.current (Game.shop_system (Data.game d)) = None)
  then Ok (d, ShopMenu i, TPop) else Ok (d, ShopMenu i, TNone).

(** shop_scene.rs:141-198 *)
Definition shop_key d (i : nat) (k : Key) : res handled :=
  match k with
  | KeyW => Ok (d, ShopMenu (if decide (0 < i)%nat then i - 1 else i), TNone)
  | KeyS => Ok (d, ShopMenu (wrap_down i (shop_len d)), TNone)
  | KeyQ =>
      d ← with_game d (close_shop (hooks_at fuel) fuel (Data.game d));
      if bool_decide (ShopSystem.current (Game.shop_system (Data.game d)) = None)
      then Ok (d, ShopMenu i, TPop) else Ok (d, ShopMenu i, TNone)
  | KeyE => Ok (set_game d (buy_item i (Data.game d)), ShopMenu i, TNone)
  | Escape => Ok (d, ShopMenu i, TPush Pause)
  | _ => Ok (d, ShopMenu i, TNone)
  end.

(** pause_scene.rs:37-76 *)
Definition pause_key d (k : Key) : res handled :=
  match k with
  | KeyQ | Escape => Ok (d, Pause, TPop)
  | KeyN => Ok (set_game d (new_player_character (Data.game d)), Pause, TPop)
  | _ => Ok (d, Pause, TNone)
  end.

(** [Scene::update] of each scene. *)
Definition scene_update d (delta : Q) (s : Scene) : res handled :=
  match s with
  | Level => level_update d delta
  | Novel i => novel_update_scene d i delta
  | Action cid i ids texts w => action_update d cid i ids texts w
  | Target cid aid p => Ok (d, s, TNone)
  | SelectAbility cid i ids texts => select_ability_update d cid i ids texts delta
  | ShopMenu i => shop_update d i delta
  | Pause => Ok (d, Pause, TNone)
  end.

(** [Scene::key_down_event] of each scene. *)
Definition scene_key d (k : Key) (s : Scene) : res handled :=
  match s with
  | Level => level_key d k
  | Novel i => novel_key d i k
  | Action cid i ids texts w => action_key d cid i ids texts w k
  | Target cid aid p => target_key d cid aid p k
  | SelectAbility cid i ids texts => select_ability_key d cid i ids texts k
  | ShopMenu i => shop_key d i k
  | Pause => pause_key d k
  end.

(** scene.rs:39-53, on a stack kept top first. *)
Definition do_transition (tr : Transition) (stack : list Scene) : list Scene :=
  match tr with
  | TNone => stack
  | TPop => tail stack
  | TPush s => s :: stack
  | TReplace s => [s]
  end.

(** The events of main.rs:189-211. *)
Inductive Event :=
| Frame (delta : Q)
| KeyDown (k : Key).

(** scene.rs:55-97: the top scene handles the event, is replaced by its
    new state, and the transition is applied. *)
Definition stack_event (e : Event) (st : Data.t * list Scene) : res (Data.t * list Scene) :=
  let '(d, stack) := st in
  match stack with
  | [] => Ok (d, [])
  | top :: rest =>
      '(d, top, tr) ← (match e with
                       | Frame delta => scene_update d delta top
                       | KeyDown k => scene_key d k top
                       end : res handled);
      Ok (d, do_transition tr (top :: rest))
  end.

(** A sequence of events. *)
Fixpoint run_events (es : list Event) (st : Data.t * list Scene) : res (Data.t * list Scene) :=
  match es with
  | [] => Ok st
  | e :: es => st ← stack_event e st; run_events es st
  end.
End Scenes.

(** ** Theorems: the scene stack *)

(** The level scene is at the bottom of the stack and nowhere else. *)
Definition stack_ok (stack : list Scene) : Prop :=
  ∃ rest, stack = rest ++ [Level] ∧ Forall (λ s, s ≠ Level) rest.

(** What a handler may do: keep the level scene a level scene and no other,
    never replace the stack, never pop the level scene, never push one. *)
Definition handled_ok (s s' : Scene) (tr : Transition) : Prop :=
  (s = Level ↔ s' = Level) ∧
  match tr with
  | TNone => True
  | TPop => s ≠ Level
  | TPush x => x ≠ Level
  | TReplace _ => False
  end.

Section StackSafety.
Variable fuel : nat.

Ltac handled_ok_tac :=
  repeat match goal with
  | H : (_ ≫= _) = Ok _ |- _ => apply bind_eq_Ok in H as (? & ? & H)
  | H : Ok _ = Ok _ |- _ => injection H as H
  | H : (_, _) = (_, _) |- _ => injection H as H
  | p : (_ * _)%type |- _ => destruct p
  | H : (match ?x with _ => _ end) = Ok _ |- _ => destruct x eqn:?
  | H : (if ?b then _ else _) = Ok _ |- _ => destruct b eqn:?
  | H : Panic = Ok _ |- _ => discriminate H
  end; subst; unfold handled_ok; split; try done.

Lemma scene_update_ok d delta s d' s' tr :
  scene_update fuel d delta s = Ok (d', s', tr) → handled_ok s s' tr.
Proof.
  destruct s; cbn [scene_update];
    unfold level_update, novel_update_scene, action_update, select_ability_update, shop_update,
      select_ability_scene_new;
    intros H; handled_ok_tac.
Qed.

Lemma scene_key_ok d k s d' s' tr :
  scene_key fuel d k s = Ok (d', s', tr) → handled_ok s s' tr.
Proof.
  destruct s; cbn [scene_key];
    unfold level_key, novel_key, action_key, target_key, target_confirm, target_new,
      select_ability_key, shop_key, pause_key, action_scene_new;
    intros H; destruct k; handled_ok_tac.
Qed.

Lemma do_transition_ok s s' rest tr :
  stack_ok (s :: rest) → handled_ok s s' tr → stack_ok (do_transition tr (s' :: rest)).
Proof.
  intros (r & Hst & Hr) [Hl Htr].
  destruct r as [|x r]; simpl in Hst; injection Hst as -> ->.
  - assert (s' = Level) as -> by (by apply Hl).
    destruct tr as [| |x|x]; simpl; try done.
    + exists []. split; [done|constructor].
    + exists [x]. split; [done|by constructor].
  - apply Forall_cons in Hr as [Hx Hr].
    assert (s' ≠ Level) by (intros ?; by apply Hx, Hl).
    destruct tr; simpl; try done.
    + by exists (s' :: r); split; [|constructor].
    + by exists r.
    + by exists (s :: s' :: r); split; [|repeat constructor].
Qed.

Lemma stack_event_ok e d stack d' stack' :
  stack_ok stack → stack_event fuel e (d, stack) = Ok (d', stack') → stack_ok stack'.
Proof.
  intros Hok. destruct stack as [|s rest]; [by destruct Hok as ([|] & ? & _)|]. cbn.
  intros H. apply bind_eq_Ok in H as ([[d1 s1] tr] & Hh & [= <- <-]).
  apply (do_transition_ok s); [done|].
  destruct e; [eapply scene_update_ok|eapply scene_key_ok]; exact Hh.
Qed.

Lemma stack_ok_shape stack :
  stack_ok stack → stack ≠ [] ∧ last stack = Some Level ∧ Forall (λ s, s ≠ Level) (removelast stack).
Proof.
  intros (r & -> & Hr). rewrite last_app, removelast_app, app_nil_r by done. split; [by destruct r|done].
Qed.

(** C10: whatever frames and keys arrive, the scene stack that starts with
    the level scene keeps it at the bottom and nowhere else: no scene
    pops it, replaces the stack or pushes another level scene, so the
    stack is never empty and [update] always reaches a scene. *)
Theorem scene_stack_safe es d d' stack :
  run_events fuel es (d, [Level]) = Ok (d', stack) →
  stack ≠ [] ∧ last stack = Some Level ∧ Forall (λ s, s ≠ Level) (removelast stack).
Proof.
  assert (H0 : stack_ok [Level]) by (exists []; split; [done|constructor]).
  revert H0. generalize [Level] as st. generalize d as d0.
  induction es as [|e es IH]; intros d0 st Hok H; cbn [run_events] in H.
  - injection H as -> ->. by apply stack_ok_shape.
  - apply bind_eq_Ok in H as ([d1 st1] & He & H).
    eapply IH; [|exact H]. by eapply stack_event_ok.
Qed.
End StackSafety.

(** ** Theorems: the dialogue and ability menus *)

Section Menus.
Variable fuel : nat.

(** C20: the dialogue scene calls [select_option] only with a choice that
    is offered: on [E] it either reads on with [novel_run] when no choice
    is offered, or selects the highlighted choice when it is in range, or
    does nothing; so the skipping of an out-of-range answer by [select] is
    not reachable from the keyboard (novel_scene.rs:194-217). *)
Theorem novel_confirm_in_range d i d' s tr :
  novel_key fuel d i KeyE = Ok (d', s, tr) →
  (offered d = None ∧ run (hooks_at fuel) fuel (Data.game d) = Ok (Data.game d')) ∨
  (∃ sel, offered d = Some sel ∧
     ((i < length sel)%nat ∧ select (hooks_at fuel) fuel i (Data.game d) = Ok (Data.game d') ∨
      (length sel ≤ i)%nat ∧ d' = d)).
Proof.
  unfold novel_key, novel_confirm, with_game. intros H.
  apply bind_eq_Ok in H as (d1 & Hc & H).
  assert (d' = d1) as -> by (case_bool_decide; by injection H).
  destruct (offered d) as [sel|] eqn:Ho.
  - right. exists sel. split; [done|]. case_decide.
    + left. split; [done|]. apply bind_eq_Ok in Hc as (g & Hg & [= <-]). exact Hg.
    + right. split; [lia|]. by injection Hc.
  - left. split; [done|]. apply bind_eq_Ok in Hc as (g & Hg & [= <-]). exact Hg.
Qed.
End Menus.

(** ** Theorems: the menus' cursors *)

(** A menu cursor designates an entry, or the top of an empty menu. *)
Definition cursor_ok (i : nat) (ids : list Z) : Prop := (i < length ids)%nat ∨ i = 0%nat.

Definition scene_wf (s : Scene) : Prop :=
  match s with
  | Action _ i ids texts _ | SelectAbility _ i ids texts => cursor_ok i ids ∧ length texts = length ids
  | _ => True
  end.

Lemma menu_texts_length text character_id g :
  length (menu_action_texts text character_id g) = length (menu_action_ids character_id g).
Proof.
  unfold menu_action_texts, menu_action_ids.
  destruct (Game.characters g !! character_id); [|done]. apply omap_length_eq. intros ca.
  destruct (Game.character_actions g !! ca); simpl; [|done].
  destruct (Game.actions g !! _); simpl; [split; intros; by eexists|done].
Qed.


Lemma menu_move_ok row k i ids :
  (0 < row)%nat → cursor_ok i ids → cursor_ok (menu_move row (length ids) k i) ids.
Proof.
  unfold cursor_ok, menu_move, up. intros Hr Hi.
  destruct k; repeat case_decide; lia.
Qed.

Section Cursors.
Variable fuel : nat.

Definition transition_wf (tr : Transition) : Prop :=
  match tr with TPush x | TReplace x => scene_wf x | _ => True end.

Ltac wf_tac :=
  repeat match goal with
  | H : (_ ≫= _) = Ok _ |- _ => apply bind_eq_Ok in H as (? & ? & H)
  | H : Ok _ = Ok _ |- _ => injection H as H
  | H : (_, _) = (_, _) |- _ => injection H as H
  | p : (_ * _)%type |- _ => destruct p
  | H : (match ?x with _ => _ end) = Ok _ |- _ => destruct x eqn:?
  | H : (if ?b then _ else _) = Ok _ |- _ => destruct b eqn:?
  | H : Panic = Ok _ |- _ => discriminate H
  | H : _ ∧ _ |- _ => destruct H
  end; subst; cbn [scene_wf transition_wf] in *; repeat split;
    try apply menu_move_ok; try apply menu_texts_length; try lia; try (right; reflexivity); try done;
    try (unfold cursor_ok, up in *; repeat case_decide; lia).

Lemma scene_update_wf d delta s d' s' tr :
  scene_wf s → scene_update fuel d delta s = Ok (d', s', tr) → scene_wf s' ∧ transition_wf tr.
Proof.
  destruct s; cbn [scene_update];
    unfold level_update, novel_update_scene, action_update, select_ability_update, shop_update,
      select_ability_scene_new;
    intros Hs H; wf_tac.
Qed.

Lemma scene_key_wf d k s d' s' tr :
  scene_wf s → scene_key fuel d k s = Ok (d', s', tr) → scene_wf s' ∧ transition_wf tr.
Proof.
  destruct s; cbn [scene_key];
    unfold level_key, novel_key, action_key, target_key, target_confirm, target_new,
      select_ability_key, shop_key, pause_key, action_scene_new;
    intros Hs H; destruct k; wf_tac.
Qed.

(** C11: every menu on the stack keeps its cursor on an entry (or at the
    top of an empty menu), whatever frames and keys arrive: the menus
    open at 0 and [W], [A], [S], [D] stay within the list
    (action_scene.rs:127-151, select_ability_scene.rs:115-139). *)
Theorem scenes_wf es d d' stack :
  run_events fuel es (d, [Level]) = Ok (d', stack) → Forall scene_wf stack.
Proof.
  assert (H0 : Forall scene_wf [Level]) by repeat constructor.
  revert H0. generalize [Level] as st. generalize d as d0.
  induction es as [|e es IH]; intros d0 st Hok H; cbn [run_events] in H.
  - by injection H as -> ->.
  - apply bind_eq_Ok in H as ([d1 st1] & He & H). eapply IH; [|exact H].
    destruct st as [|s rest]; cbn in He; [by injection He as <- <-|].
    apply Forall_cons in Hok as [Hs Hrest].
    apply bind_eq_Ok in He as ([[d2 s2] tr] & Hh & [= <- <-]).
    assert (Hw : scene_wf s2 ∧ transition_wf tr)
      by (destruct e; [eapply scene_update_wf|eapply scene_key_wf]; eassumption).
    destruct Hw as [Hs2 Htr]. destruct tr; cbn in *; repeat constructor; auto.
Qed.

(** Hence [E] on a menu that is not empty always finds an action. *)
Lemma menu_confirm_finds i ids : cursor_ok i ids → ids ≠ [] → is_Some (ids !! i).
Proof.
  intros [Hi| ->] Hne; [by apply lookup_lt_is_Some|].
  destruct ids; [done|]. by eexists.
Qed.
End Cursors.

(** ** Theorems: the ability menu *)

(** C21: the ability menu does not guard an empty menu: whatever the
    registry, when the dialogue's ability question has [ForgetSkill] as the
    first step of its answer and the character has no action, the menu
    opens with no entry, and [E] on it still calls [select_ability(0)]
    (select_ability_scene.rs:145-148), whose [ForgetSkill] panics in
    [Vec::remove] (novel.rs:222-229). *)
Theorem empty_ability_menu_panics fuel d cur script rest c :
  NovelSystem.current (Game.novel_system (Data.game d)) = Some cur →
  CurrentScript.command_id cur = None →
  NovelSystem.scripts (Game.novel_system (Data.game d)) !! CurrentScript.id cur = Some script →
  node_at script (CurrentScript.p cur) =
    Ok (Some (ScriptKind.SelectAbility (ScriptKind.ForgetSkill :: rest))) →
  Game.characters (Data.game d) !! CurrentScript.character_id cur = Some c →
  Character.character_action_ids c = [] →
  select_ability_scene_new (Data.game d) (CurrentScript.character_id cur) =
    SelectAbility (CurrentScript.character_id cur) 0 [] [] ∧
  scene_key (S fuel) d KeyE (select_ability_scene_new (Data.game d) (CurrentScript.character_id cur))
    = Panic.
Proof.
  intros Hc Hcmd Hs Hn Hl Hids.
  assert (Hnew : select_ability_scene_new (Data.game d) (CurrentScript.character_id cur) =
                 SelectAbility (CurrentScript.character_id cur) 0 [] []).
  { unfold select_ability_scene_new, menu_action_ids, menu_action_texts. by rewrite Hl, Hids. }
  split; [exact Hnew|]. rewrite Hnew. cbn [scene_key select_ability_key].
  unfold with_game, select_ability. rewrite Hc.
  erewrite (run_forget_panics _ fuel _ _ script c 0); [done|reflexivity|exact Hcmd|exact Hs| | |exact Hl|].
  - cbn. rewrite (node_at_app _ _ _ _ Hn). reflexivity.
  - reflexivity.
  - rewrite Hids. cbn. lia.
Qed.

(** ** Concrete runs *)

(** The registry of [player_game] with the scene data of [Data::new]. *)
Definition start_data : Data.t := Data.new player_game.

(** A frame (the player's turn comes up), the pause menu, and a new
    character from it. *)
Definition pause_events : list Event := [Frame 0; KeyDown Escape; KeyDown KeyN].

Lemma scene_stack_safe_witness :
  match run_events 4 pause_events (start_data, [Level]) with
  | Ok (d', stack) => stack ≠ [] ∧ last stack = Some Level ∧ Forall (λ s, s ≠ Level) (removelast stack)
  | _ => False
  end.
Proof.
  destruct (run_events 4 pause_events (start_data, [Level])) as [[d' stack]| |] eqn:E;
    [exact (scene_stack_safe 4 pause_events start_data d' stack E)|vm_compute in E; discriminate..].
Defined.

Lemma scenes_wf_witness :
  match run_events 4 [Frame 0; KeyDown KeyE; KeyDown KeyS] (start_data, [Level]) with
  | Ok (d', stack) => Forall scene_wf stack
  | _ => False
  end.
Proof.
  destruct (run_events 4 [Frame 0; KeyDown KeyE; KeyDown KeyS] (start_data, [Level]))
    as [[d' stack]| |] eqn:E; [exact (scenes_wf 4 _ start_data d' stack E)|vm_compute in E; discriminate..].
Defined.

Lemma novel_confirm_in_range_witness :
  match novel_key 4 (Data.mk novel_game false None) 0 KeyE with
  | Ok (d', s, tr) =>
      (offered (Data.mk novel_game false None) = None ∧
       run (hooks_at 4) 4 novel_game = Ok (Data.game d')) ∨
      (∃ sel, offered (Data.mk novel_game false None) = Some sel ∧
         ((0 < length sel)%nat ∧ select (hooks_at 4) 4 0 novel_game = Ok (Data.game d') ∨
          (length sel ≤ 0)%nat ∧ d' = Data.mk novel_game false None))
  | _ => False
  end.
Proof.
  destruct (novel_key 4 (Data.mk novel_game false None) 0 KeyE) as [[[d' s] tr]| |] eqn:E;
    [exact (novel_confirm_in_range 4 _ 0 d' s tr E)|vm_compute in E; discriminate..].
Defined.

(** A dialogue that asks player 1 to pick an ability to forget. *)
Definition forget_script : Script.t :=
  Script.mk 4 [ScriptKind.SelectAbility [ScriptKind.ForgetSkill]].

(** Player 1 has no action left, and the dialogue waits for its choice. *)
Definition unskilled_data : Data.t :=
  Data.mk { player_game with
              Game.characters ::= <[1 := player_template 1 []]>;
              Game.novel_system := NovelSystem.mk false {[ 4 := forget_script ]}
                (Some (CurrentScript.mk 4 1 1 [0%nat] [] None None true None None)) }
    false None.


Lemma empty_ability_menu_panics_witness :
  select_ability_scene_new (Data.game unskilled_data) 1 = SelectAbility 1 0 [] [] ∧
  scene_key 4 unskilled_data KeyE (select_ability_scene_new (Data.game unskilled_data) 1) = Panic ∧
  (st ← run_events 4 [Frame 0; Frame 0] (unskilled_data, [Level]); Ok st.2) =
    Ok [SelectAbility 1 0 [] []; Novel 0; Level] ∧
  run_events 4 [Frame 0; Frame 0; KeyDown KeyE] (unskilled_data, [Level]) = Panic.
Proof.
  destruct (empty_ability_menu_panics 3 unskilled_data
              (CurrentScript.mk 4 1 1 [0%nat] [] None None true None None) forget_script []
              (player_template 1 [])) as [H1 H2]; try reflexivity.
  split_and!; [exact H1|exact H2|vm_compute; reflexivity|vm_compute; reflexivity].
Defined.

