(* ===== verification/SceneDraw.v ===== *)
(** * SceneDraw: what the scenes draw, and the event loop

    Models the [draw] method of every scene (src/src/scenes/*.rs), the
    stack's [draw] (scene.rs:73-83), [MainState::new] once the tables are
    loaded (main.rs:157-186) and the loop ggez runs over [MainState]
    (main.rs:189-211): the keys that arrived, then [update], then [draw].
    A draw reads the registry and writes the frame and the image cache;
    the dialogue scene's draw also moves its cursor back to the top when no
    choice is offered (novel_scene.rs:147-149), which changes what a later
    [E] selects.

    The theorems show that every image of the level scene lies inside the
    bordered square, that the level scene's draw does not panic on a
    registry whose sprites and animations are complete, that the shop
    shows one more copy of an item after buying it, and that after every
    frame of the loop a dialogue that offers no choice has the cursors of
    its scenes back at 0, whatever keys came before. *)

From S2P Require Import Prelude Stats TurnQueue World Spatial Command Novel Floor Shop Turn Engine Scenes Rendering.

(** ** The tables only the draws read (game.rs:28-31) *)

Module TileSheet.
Record t := mk { file_path : string; tile_width : Z; tile_height : Z }.
End TileSheet.

Module SpriteSheet.
Record t := mk {
  id : Z;
  image_path : string;
  animation : gmap string (list Z);
  frame_height : Z;
  frame_width : Z;
  frame_per_row : Z;
}.
End SpriteSheet.

Module SpriteSequence.
Record t := mk { id : Z; images : list string }.
End SpriteSequence.

(** [Game::tile_sheets], [Game::sprite_sheets] and [Game::sprite_sequences]. *)
Module Assets.
Record t := mk {
  tile_sheets : gmap Z TileSheet.t;
  sprite_sheets : gmap Z SpriteSheet.t;
  sprite_sequences : gmap Z SpriteSequence.t;
}.
End Assets.

(** main.rs:85-89: the data and the scene stack. *)
Definition MainState : Type := (Data.t * list Scene)%type.

(** [start..=end] over i32. *)
Definition range_incl (a b : Z) : list Z := seqZ a (b - a + 1).

(** The menus' rectangles. *)
Definition menu_bg : Drawable.t := Drawable.Rectangle DrawMode.Fill 0 0 256 64 (Color.mk 0 0 127 127).
Definition menu_highlight : Drawable.t :=
  Drawable.Rectangle (DrawMode.Stroke 4) 0 0 256 64 (Color.from_rgb 255 255 0).

(** The [k]-th row of a list menu: [((k + 1) * 64) as f32]. *)
Definition list_row (k : nat) : Q * Q := (0%Q, inject_Z (Z.of_nat ((k + 1) * 64))).

(** The cell of entry [k] in a menu of columns of [row] cells of [w] by
    [h]: [(k / row * w) as f32, (k % row * h) as f32]. *)
Definition menu_cell (row w h k : nat) : Q * Q :=
  (inject_Z (Z.of_nat (k / row * w)), inject_Z (Z.of_nat (k `mod` row * h))).

Section SceneDraw.
Variable files : gmap string Image.t.
Variable assets : Assets.t.

(** level_scene.rs:50-81: the tile [id] at [(x, y)] of map [map_id]. *)
Definition draw_tile (g : Game.t) (map_id x y id : Z) : render unit :=
  match Game.tiles g !! id with
  | Some tile =>
      match Tile.kind tile with
      | TileKind.TileSheet sheet_id tile_x tile_y =>
          match Assets.tile_sheets assets !! sheet_id with
          | Some sheet =>
              image ← cache_get files (TileSheet.file_path sheet);
              RenderingParam.draw_image
                (RenderingParam.set_target_size 64 64
                   (RenderingParam.set_rect
                      (inject_Z (TileSheet.tile_width sheet * tile_x))
                      (inject_Z (TileSheet.tile_height sheet * tile_y))
                      (inject_Z (TileSheet.tile_width sheet)) (inject_Z (TileSheet.tile_height sheet))
                      (RenderingParam.set_dest map_id (inject_Z x) (inject_Z y) RenderingParam.default)))
                g (TileSheet.file_path sheet) image
          | None => mret ()
          end
      | TileKind.Image s =>
          image ← cache_get files s;
          RenderingParam.draw_image
            (RenderingParam.set_target_size 64 64
               (RenderingParam.set_dest map_id (inject_Z x) (inject_Z y) RenderingParam.default))
            g s image
      end
  | None => mret ()
  end.

(** level_scene.rs:41-86: the tiles within [extend] of the camera
    character; a row or column outside the map (negative included) is
    skipped. *)
Definition draw_tiles (g : Game.t) (c : Character.t) : render unit :=
  let cam := Game.camera g in
  let p := Character.position c in
  match Game.tile_maps g !! Position.map_id p with
  | Some map =>
      for_each (range_incl (Position.y p - Camera.extend cam) (Position.y p + Camera.extend cam)) (λ y,
        match get_i32 (TileMap.tiles map) y with
        | Some rows =>
            for_each (range_incl (Position.x p - Camera.extend cam) (Position.x p + Camera.extend cam)) (λ x,
              match get_i32 rows x with
              | Some id => draw_tile g (Position.map_id p) x y id
              | None => mret ()
              end)
        | None => mret ()
        end)
  | None => mret ()
  end.

Definition teleportation_image : string := "/images/teleportation.png".

(** level_scene.rs:87-93 *)
Definition draw_teleportations (g : Game.t) : render unit :=
  for_each (map_to_list (Game.teleportations g)) (λ '(_, t),
    image ← cache_get files teleportation_image;
    RenderingParam.draw_image
      (RenderingParam.set_target_size 64 64
         (RenderingParam.set_position (Teleportation.position t) RenderingParam.default))
      g teleportation_image image).

(** level_scene.rs:96-106 *)
Definition current_character_id (g : Game.t) : option Z :=
  match Turn.kind <$> TurnSystem.current_turn (Game.turn_system g) with
  | Some (TurnKind.Character id) => Some id
  | _ => None
  end.

(** level_scene.rs:107-131: a character that is not hidden, at its
    position plus its animation offset, and the highlight of the one
    whose turn it is. *)
Definition draw_character (g : Game.t) (current : option Z) (id : Z) (c : Character.t) : render unit :=
  if Character.hidden c then mret () else
  avatar ← unwrap_r (CharacterSprite.avatar <$> Game.character_sprites g !! Character.character_sprite_id c);
  image ← cache_get files avatar;
  RenderingParam.draw_image
    (RenderingParam.set_target_size 64 64
       (RenderingParam.set_dest (Position.map_id (Character.position c))
          (inject_Z (Position.x (Character.position c)) + Character.offset_x c)
          (inject_Z (Position.y (Character.position c)) + Character.offset_y c)
          RenderingParam.default))
    g avatar image;;
  if bool_decide (current = Some id) then Rendering.draw_character_border c g else mret ().

(** level_scene.rs:139-144 and 162-168: the frame at [percentage] of an
    animation, the last one from the end on; an empty animation panics
    ([len() - 1] underflows, then the index is out of bounds). *)
Definition frame_at {A} (frames : list A) (percentage : Q) : render A :=
  let i := to_usize (inject_Z (Z.of_nat (length frames)) * percentage) in
  if decide (length frames ≤ i)%nat then unwrap_r (frames !! (length frames - 1)%nat)
  else unwrap_r (frames !! i).

(** level_scene.rs:133-177 *)
Definition draw_animation (g : Game.t) (sa : AnimationEffect.t) : render unit :=
  match AnimationEffect.animation sa with
  | Animation.SpriteSheet id name =>
      sheet ← unwrap_r (Assets.sprite_sheets assets !! id);
      image ← cache_get files (SpriteSheet.image_path sheet);
      frames ← unwrap_r (SpriteSheet.animation sheet !! name);
      frame_index ← frame_at frames (AnimationEffect.percentage sa);
      column ← i32_rem frame_index (SpriteSheet.frame_per_row sheet);
      row ← i32_div frame_index (SpriteSheet.frame_per_row sheet);
      RenderingParam.draw_image
        (RenderingParam.set_target_size 64 64
           (RenderingParam.set_rect
              (inject_Z (column * SpriteSheet.frame_width sheet))
              (inject_Z (row * SpriteSheet.frame_height sheet))
              (inject_Z (SpriteSheet.frame_width sheet)) (inject_Z (SpriteSheet.frame_height sheet))
              (RenderingParam.set_position (AnimationEffect.position sa) RenderingParam.default)))
        g (SpriteSheet.image_path sheet) image
  | Animation.SpriteSequence id =>
      sequence ← unwrap_r (Assets.sprite_sequences assets !! id);
      path ← frame_at (SpriteSequence.images sequence) (AnimationEffect.percentage sa);
      image ← cache_get files path;
      RenderingParam.draw_image
        (RenderingParam.set_target_size 64 64
           (RenderingParam.set_position (AnimationEffect.position sa) RenderingParam.default))
        g path image
  end.

(** level_scene.rs:37-195 *)
Definition level_draw (g : Game.t) : render unit :=
  match Rendering.camera_character g with
  | Some c =>
      draw_tiles g c;;
      draw_teleportations g;;
      for_each (map_to_list (Game.characters g)) (λ '(id, ch),
        draw_character g (current_character_id g) id ch);;
      for_each (map_to_list (Game.sprite_animations g)) (λ '(_, sa), draw_animation g sa);;
      Rendering.draw_border g;;
      StatsUi.draw_at c 720 0
  | None => mret ()
  end.

(** novel_scene.rs:49-152: the background, the last line, the choices and
    the highlight; with no choice offered the cursor goes back to 0. *)
Definition novel_draw (g : Game.t) (i : nat) : render nat :=
  if NovelSystem.pause (Game.novel_system g) then mret i else
  match NovelSystem.current (Game.novel_system g) with
  | Some cur =>
      (match CurrentScript.background cur with
       | Some (Background.Color r gr b a) =>
           graphics_draw (Drawable.Rectangle DrawMode.Fill 0 0 1280 720 (Color.mk r gr b a))
             DrawParam.default
       | Some (Background.Image s) =>
           _ ← cache_get files s; graphics_draw (Drawable.Image s) DrawParam.default
       | _ => mret ()
       end);;
      (match last (CurrentScript.history cur) with
       | Some s =>
           graphics_draw menu_bg (DrawParam.at_point (0, 0)%Q);;
           graphics_draw (Drawable.Text s) (DrawParam.at_point (0, 0)%Q)
       | None => mret ()
       end);;
      match CurrentScript.select cur with
      | Some select =>
          for_each (enumerate select) (λ '(k, s),
            graphics_draw menu_bg (DrawParam.at_point (list_row k));;
            graphics_draw (Drawable.Text s) (DrawParam.at_point (list_row k)));;
          graphics_draw menu_highlight (DrawParam.at_point (list_row i));;
          mret i
      | None => mret 0%nat
      end
  | None => mret i
  end.

(** The drawing of the action and ability menus (action_scene.rs:83-110,
    select_ability_scene.rs:72-102): each entry's button and text in its
    cell, then the highlight on the cell of the cursor. *)
Definition menu_draw (row w h : nat) (button highlight : Drawable.t) (i : nat) (texts : list string)
    : render unit :=
  for_each (enumerate texts) (λ '(k, text),
    graphics_draw button (DrawParam.at_point (menu_cell row w h k));;
    graphics_draw (Drawable.Text text) (DrawParam.at_point (menu_cell row w h k)));;
  graphics_draw highlight (DrawParam.at_point (menu_cell row w h i)).

(** action_scene.rs:9-11 and 51-57 *)
Definition action_button : Drawable.t :=
  Drawable.Rectangle DrawMode.Fill 0 0 240 180 (Color.from_rgb 0 127 127).
Definition action_highlight : Drawable.t :=
  Drawable.Rectangle (DrawMode.Stroke 4) 0 0 240 180 (Color.from_rgb 255 255 0).

(** action_scene.rs:81-117: the cards in columns of four, unless a target
    is being chosen. *)
Definition action_draw (i : nat) (texts : list string) (waiting : bool) : render unit :=
  if waiting then mret () else menu_draw 4 240 180 action_button action_highlight i texts.

(** target_scene.rs:42-65: the cursor's tile and the stats of the
    character under it. *)
Definition target_draw (g : Game.t) (position : Position.t) : render unit :=
  Rendering.draw_at_position (Drawable.Rectangle DrawMode.Fill 0 0 64 64 (Color.mk 0 0 0 127)) position g;;
  match character_at_position position g with
  | Some id => c ← unwrap_r (Game.characters g !! id); StatsUi.draw_at c 720 360
  | None => mret ()
  end.

(** select_ability_scene.rs:36-42 and 87-93 *)
Definition ability_button : Drawable.t :=
  Drawable.Rectangle DrawMode.Fill 0 0 256 128 (Color.from_rgb 0 127 127).
Definition ability_highlight : Drawable.t :=
  Drawable.Rectangle (DrawMode.Stroke 4) 0 0 256 128 (Color.from_rgb 255 255 0).

(** select_ability_scene.rs:71-105: the names in columns of five. *)
Definition select_ability_draw (i : nat) (texts : list string) : render unit :=
  menu_draw 5 256 128 ability_button ability_highlight i texts.

(** shop_scene.rs:39-45: the goods of the open shop. *)
Definition shop_items (g : Game.t) (cur : CurrentShop.t) : option (list ShopItem.t) :=
  c ← Game.characters g !! CurrentShop.shop_character_id cur;
  shop ← Character.shop c;
  Some (Shop.items shop).

(** shop_scene.rs:101-106: how many entries of the item the buyer holds. *)
Definition owned (g : Game.t) (cur : CurrentShop.t) (item_id : Z) : nat :=
  default 0%nat ((λ c, length (filter (λ it, CharacterItem.item_id it = item_id) (Character.items c)))
                   <$> Game.characters g !! CurrentShop.character_id cur).

(** shop_scene.rs:31-139 *)
Definition shop_draw (g : Game.t) (i : nat) : render unit :=
  match ShopSystem.current (Game.shop_system g) with
  | Some cur =>
      (match shop_items g cur with
       | Some items =>
           for_each (enumerate items) (λ '(k, s),
             graphics_draw menu_bg (DrawParam.at_point (list_row k));;
             name ← unwrap_r (Item.name <$> Game.items g !! ShopItem.item_id s);
             graphics_draw (Drawable.Text name) (DrawParam.at_point (list_row k)))
       | None => mret ()
       end);;
      graphics_draw menu_highlight (DrawParam.at_point (list_row i));;
      match shop_items g cur ≫= (λ items, items !! i) with
      | Some item =>
          graphics_draw menu_bg (DrawParam.at_point (0, 0)%Q);;
          description ← unwrap_r (Item.description <$> Game.items g !! ShopItem.item_id item);
          graphics_draw
            (Drawable.Text ("You have: " +:+ pretty (Z.of_nat (owned g cur (ShopItem.item_id item))) +:+
                            " " +:+ nl +:+ "Description: " +:+ description))
            (DrawParam.at_point (0, 0)%Q)
      | None => mret ()
      end
  | None => mret ()
  end.

(** pause_scene.rs:23-35 *)
Definition pause_draw : render unit :=
  graphics_draw (Drawable.Rectangle DrawMode.Fill 0 0 1280 720 (Color.mk 0 0 0 127)) DrawParam.default;;
  graphics_draw (Drawable.Text "Press N to create new character") DrawParam.default.

(** [Scene::draw] of each scene. *)
Definition scene_draw (g : Game.t) (s : Scene) : render Scene :=
  match s with
  | Level => level_draw g;; mret Level
  | Novel i => i ← novel_draw g i; mret (Novel i)
  | Action _ i _ texts waiting => action_draw i texts waiting;; mret s
  | Target _ _ position => target_draw g position;; mret s
  | SelectAbility _ i _ texts => select_ability_draw i texts;; mret s
  | ShopMenu i => shop_draw g i;; mret s
  | Pause => pause_draw;; mret s
  end.

(** scene.rs:76-78: every scene, bottom first, on the stack kept top
    first. *)
Fixpoint draw_bottom_up (g : Game.t) (stack : list Scene) : render (list Scene) :=
  match stack with
  | [] => mret []
  | s :: rest => rest ← draw_bottom_up g rest; s ← scene_draw g s; mret (s :: rest)
  end.

(** scene.rs:73-83 *)
Definition stack_draw (g : Game.t) (stack : list Scene) : render (list Scene) :=
  graphics_clear;; draw_bottom_up g stack.

Variable fuel : nat.

(** One event of the ggez loop over [MainState] (main.rs:189-211): a key
    goes to the top scene; a frame is [update], then [draw]. *)
Definition main_event (e : Event) (st : MainState) : render MainState :=
  match e with
  | KeyDown k => of_res (stack_event fuel (KeyDown k) st)
  | Frame delta =>
      '(d, stack) ← of_res (stack_event fuel (Frame delta) st);
      stack ← stack_draw (Data.game d) stack;
      mret (d, stack)
  end.

Fixpoint run_main (es : list Event) (st : MainState) : render MainState :=
  match es with
  | [] => mret st
  | e :: es => st ← main_event e st; run_main es st
  end.
End SceneDraw.

(** main.rs:157-186 once the tables are loaded: [Data::new(game)] and a
    stack holding the level scene. *)
Definition main_state_new (g : Game.t) : MainState := (Data.new g, [Level]).

(** An image on screen lies in the bordered square. *)
Definition image_in_square (cam : Camera.t) (call : Drawable.t * DrawParam.t) : Prop :=
  match call.1 with
  | Drawable.Image _ => in_square cam (DrawParam.dest call.2)
  | _ => True
  end.

(** An animation the level scene can draw: its sheet and frames, or its
    sequence, exist, the frames are not empty and the rows are not
    empty. *)
Definition animation_ok (assets : Assets.t) (sa : AnimationEffect.t) : Prop :=
  match AnimationEffect.animation sa with
  | Animation.SpriteSheet id name =>
      ∃ sheet frames, Assets.sprite_sheets assets !! id = Some sheet ∧
        SpriteSheet.animation sheet !! name = Some frames ∧ frames ≠ [] ∧
        0 < SpriteSheet.frame_per_row sheet
  | Animation.SpriteSequence id =>
      ∃ sequence, Assets.sprite_sequences assets !! id = Some sequence ∧
        SpriteSequence.images sequence ≠ []
  end.

(** The registry is complete for the level scene: every visible
    character has its sprite, every running animation can be drawn. *)
Definition level_wf (assets : Assets.t) (g : Game.t) : Prop :=
  map_Forall (λ _ c, Character.hidden c = false →
                     is_Some (Game.character_sprites g !! Character.character_sprite_id c))
    (Game.characters g) ∧
  map_Forall (λ _ sa, animation_ok assets sa) (Game.sprite_animations g).

(** ** Theorems: the level scene *)

Ltac keeps_step :=
  match goal with
  | |- keeps _ (_ ≫= _) => apply keeps_bind; [|intros ?]
  | |- keeps _ (for_each _ _) => apply keeps_for_each; intros ?
  | |- keeps _ (match ?x with _ => _ end) => destruct x
  | |- keeps _ (if ?b then _ else _) => destruct b
  | |- keeps _ (RenderingParam.draw_image _ _ _ _) => apply keeps_draw_image; intros ??
  | |- keeps _ (Rendering.draw _ _ _ _ _) => apply keeps_rendering_draw; intros ??
  | |- keeps _ (graphics_draw _ _) => apply keeps_draw
  | |- keeps _ _ => solve [eauto with draw]
  end.

Ltac no_crash_step :=
  match goal with
  | |- no_crash (_ ≫= _) => apply no_crash_bind; [|intros ?]
  | |- no_crash (match ?x with _ => _ end) => destruct x eqn:?
  | |- no_crash (if ?b then _ else _) => destruct b eqn:?
  | |- no_crash _ => solve [eauto with draw]
  end.

Lemma no_crash_frame_at {A} (frames : list A) p : frames ≠ [] → no_crash (frame_at frames p).
Proof.
  intros Hne. unfold frame_at. destruct frames as [|x l]; [done|].
  case_decide; apply no_crash_unwrap, lookup_lt_is_Some; simpl in *; lia.
Qed.

Lemma no_crash_unwrap_bind {A B} (a : A) (f : A → render B) :
  no_crash (f a) → no_crash (unwrap_r (Some a) ≫= f).
Proof. intros H s. exact (H s). Qed.

Section Level.
Variable files : gmap string Image.t.
Variable assets : Assets.t.

(** C13: every image the level scene draws (tiles, teleporters,
    characters and animations) lies inside the square that the map's
    border outlines, whatever the registry: the culling of
    [draw_image] lets through only positions at most [extend] tiles from
    the camera character, and the camera transform maps those into the
    square. *)
Theorem level_draw_in_square g :
  0 ≤ Camera.tile_size (Game.camera g) →
  keeps (image_in_square (Game.camera g)) (level_draw files assets g).
Proof.
  intros Ht. unfold level_draw, draw_tiles, draw_tile, draw_teleportations, draw_character,
    draw_animation, frame_at, Rendering.draw_border, Rendering.draw_character_border, StatsUi.draw_at.
  repeat keeps_step; try exact I; (eapply image_param_in_square; [|eassumption|exact Ht]; reflexivity).
Qed.

(** C12: the level scene's draw does not panic on a registry in which
    every visible character has a sprite and every running animation has
    its sheet (with the named frames, not empty, and rows that are not
    empty) or its sequence (not empty): its [unwrap]s, the frame index
    clamped to the last frame and the [%] and [/] by [frame_per_row] are
    then all defined, whatever the tiles, the camera and the image files;
    the draw ends in a frame or in a file that does not load. *)
Theorem level_draw_safe g : level_wf assets g → no_crash (level_draw files assets g).
Proof.
  intros [Hsprites Hanims]. unfold level_draw.
  destruct (Rendering.camera_character g); [|apply no_crash_ret].
  unfold draw_tiles, draw_tile, draw_teleportations, Rendering.draw_border, StatsUi.draw_at.
  apply no_crash_bind; [repeat (no_crash_step || (apply no_crash_for_each; intros ? _))|intros _].
  apply no_crash_bind; [apply no_crash_for_each; intros [? ?] _; repeat no_crash_step|intros _].
  apply no_crash_bind; [|intros _].
  { apply no_crash_for_each. intros [id ch] Hin%elem_of_map_to_list. unfold draw_character.
    destruct (Character.hidden ch) eqn:Hh; [apply no_crash_ret|].
    destruct (Hsprites id ch Hin Hh) as [sprite ->]. apply no_crash_unwrap_bind.
    repeat no_crash_step. }
  apply no_crash_bind; [|intros _; repeat no_crash_step].
  apply no_crash_for_each. intros [id sa] Hin%elem_of_map_to_list.
  pose proof (Hanims id sa Hin) as Hok. unfold animation_ok in Hok. unfold draw_animation.
  destruct (AnimationEffect.animation sa) as [sid name|qid].
  - destruct Hok as (sheet & frames & -> & Hf & Hne & Hrow). apply no_crash_unwrap_bind.
    apply no_crash_bind; [apply no_crash_cache_get|intros ?]. rewrite Hf. apply no_crash_unwrap_bind.
    apply no_crash_bind; [by apply no_crash_frame_at|intros ?]. repeat no_crash_step.
  - destruct Hok as (sequence & -> & Hne). apply no_crash_unwrap_bind.
    apply no_crash_bind; [by apply no_crash_frame_at|intros ?]. repeat no_crash_step.
Qed.
End Level.

(** ** Theorems: the menus *)


(** ** Theorems: the shop *)

Lemma shop_item_id_items g cur i :
  shop_item_id (CurrentShop.shop_character_id cur) i g =
  ShopItem.item_id <$> (shop_items g cur ≫= λ items, items !! i).
Proof.
  unfold shop_item_id, shop_items.
  destruct (Game.characters g !! _) as [c|]; simpl; [|done]. by destruct (Character.shop c).
Qed.

(** C30: the shop panel counts what was bought: after [E] buys the
    highlighted item (a buyer is registered), the shop still offers the
    same item under the cursor, and the "You have" count the panel shows
    for it is one more than before (shop_scene.rs:101-106 counts the
    buyer's entries of the item, and [buy_item] pushes one entry). *)
Theorem shop_owned_after_buy g i cur item :
  ShopSystem.current (Game.shop_system g) = Some cur →
  shop_items g cur ≫= (λ items, items !! i) = Some item →
  is_Some (Game.characters g !! CurrentShop.character_id cur) →
  shop_items (buy_item i g) cur ≫= (λ items, items !! i) = Some item ∧
  owned (buy_item i g) cur (ShopItem.item_id item) = S (owned g cur (ShopItem.item_id item)).
Proof.
  intros Hcur Hitem [c Hc]. split.
  - pose proof (buy_item_proj Character.shop i g (CurrentShop.shop_character_id cur)
                  (λ _ _, eq_refl)) as Hshop.
    unfold shop_items in *.
    destruct (Game.characters g !! CurrentShop.shop_character_id cur) as [v|] eqn:E1;
      simpl in Hitem; [|discriminate].
    destruct (Game.characters (buy_item i g) !! CurrentShop.shop_character_id cur) as [v'|] eqn:E2;
      rewrite ?E1, ?E2 in Hshop; simpl in Hshop; [|discriminate].
    injection Hshop as Hs. simpl. by rewrite Hs.
  - assert (Hid : shop_item_id (CurrentShop.shop_character_id cur) i g = Some (ShopItem.item_id item))
      by (rewrite shop_item_id_items, Hitem; done).
    assert (Hb : Game.characters (buy_item i g) !! CurrentShop.character_id cur =
                 Some (receive_item (ShopItem.item_id item) c))
      by (unfold buy_item; rewrite Hcur; cbv beta iota; rewrite Hid; cbv beta iota; rewrite Hc;
          apply lookup_insert_eq).
    assert (Hitems : Character.items (receive_item (ShopItem.item_id item) c) =
                     Character.items c ++ [CharacterItem.mk (ShopItem.item_id item) 1]) by reflexivity.
    unfold owned. rewrite Hb, Hc. cbn [fmap option_fmap option_map default].
    rewrite Hitems, filter_app, length_app, filter_cons_True, filter_nil by done. unfold id.
    cbn [length]. lia.
Qed.

(** ** Theorems: the event loop *)

Section Loop.
Variable files : gmap string Image.t.
Variable assets : Assets.t.
Variable fuel : nat.

(** The dialogue of [g] runs unpaused and offers no choice. *)
Definition reading (g : Game.t) : Prop :=
  NovelSystem.pause (Game.novel_system g) = false ∧
  ∃ cur, NovelSystem.current (Game.novel_system g) = Some cur ∧ CurrentScript.select cur = None.

Lemma scene_draw_reset g sc s sc' s' i :
  reading g → scene_draw files assets g sc s = Drawn sc' s' → sc' = Novel i → i = 0%nat.
Proof.
  intros (Hp & cur & Hc & Hsel).
  destruct sc; cbn [scene_draw]; unfold mbind, render_bind, mret, render_ret;
    case_match; intros Hd; try discriminate; injection Hd as <- _; try discriminate.
  match goal with H : context [novel_draw] |- _ => revert H end.
  unfold novel_draw. rewrite Hp, Hc, Hsel. unfold mbind, render_bind, mret, render_ret.
  repeat case_match; congruence.
Qed.

Lemma draw_bottom_up_reset g stack s stack' s' i :
  reading g → draw_bottom_up files assets g stack s = Drawn stack' s' → Novel i ∈ stack' → i = 0%nat.
Proof.
  intros Hr. revert s stack' s'. induction stack as [|sc stack IH]; intros s stack' s' H;
    cbn [draw_bottom_up] in H; unfold mbind, render_bind, mret, render_ret in H.
  - injection H as <- _. intros Hi. by apply elem_of_nil in Hi.
  - destruct (draw_bottom_up files assets g stack s) as [rest s1| | |] eqn:E1; try discriminate.
    destruct (scene_draw files assets g sc s1) as [sc1 s2| | |] eqn:E2; try discriminate.
    injection H as <- _. intros [Hi|Hi]%elem_of_cons;
      [eapply scene_draw_reset; [exact Hr|exact E2|symmetry; exact Hi]|by eapply IH].
Qed.

(** The last event of a run of the loop. *)
Lemma run_main_snoc es e st s r s' :
  run_main files assets fuel (es ++ [e]) st s = Drawn r s' →
  ∃ st1 s1, run_main files assets fuel es st s = Drawn st1 s1 ∧
    main_event files assets fuel e st1 s1 = Drawn r s'.
Proof.
  revert st s. induction es as [|e0 es IH]; intros st s H; cbn [app run_main] in H |- *;
    unfold mbind, render_bind, mret, render_ret in H |- *.
  - destruct (main_event files assets fuel e st s) as [st1 s1| | |] eqn:E; try discriminate.
    injection H as <- <-. by exists st, s.
  - destruct (main_event files assets fuel e0 st s) as [st1 s1| | |]; try discriminate. by apply IH.
Qed.

(** C22: the dialogue scene moves its cursor back to the first choice in
    [draw] (novel_scene.rs:147-149), not when a choice is made: at the end
    of every frame of the program's loop, whatever keys and frames came
    before, if the dialogue runs unpaused and offers no choice, every
    dialogue scene on the stack has its cursor at 0.  Between two frames
    the key handler keeps the cursor, so the answer a later [E] picks
    depends on whether a frame was drawn in between. *)
Theorem novel_cursor_reset_by_draw es delta st s d' stack s' i :
  run_main files assets fuel (es ++ [Frame delta]) st s = Drawn (d', stack) s' →
  reading (Data.game d') → Novel i ∈ stack → i = 0%nat.
Proof.
  intros H Hr. destruct (run_main_snoc _ _ _ _ _ _ H) as ([d1 st1] & s1 & _ & Hm).
  cbn [main_event] in Hm. unfold of_res, mbind, render_bind, mret, render_ret in Hm.
  destruct (stack_event fuel (Frame delta) (d1, st1)) as [[d2 st2]| |]; try discriminate.
  destruct (stack_draw files assets (Data.game d2) st2 s1) as [st3 s3| | |] eqn:E; try discriminate.
  injection Hm as <- <- _. unfold stack_draw, mbind, render_bind, graphics_clear, modify in E.
  by eapply draw_bottom_up_reset.
Qed.
End Loop.

(** ** Concrete runs *)

(** Two choices in a row: "x" or "y", then "p" or "q". *)
Definition choice_script : Script.t :=
  Script.mk 5 [ScriptKind.Select [("x", [ScriptKind.Text "b"]); ("y", [ScriptKind.Text "c"])];
               ScriptKind.Select [("p", [ScriptKind.Text "P"]); ("q", [ScriptKind.Text "Q"])]].

(** The dialogue waits at the first choice; the scheduler is paused, as
    [start_novel] leaves it. *)
Definition choice_game : Game.t :=
  { empty_game with
      Game.turn_system ::= (λ ts, { ts with TurnSystem.pause := true });
      Game.novel_system := NovelSystem.mk false {[5 := choice_script]}
        (Some (CurrentScript.mk 5 0 0 [0%nat] [] (Some ["x"; "y"]) None false None None)) }.

Definition no_assets : Assets.t := Assets.mk ∅ ∅ ∅.

(** The last line of the dialogue after a run of the loop. *)
Definition last_line (r : drawn (Data.t * list Scene)) : option string :=
  match r with
  | Drawn st _ => NovelSystem.current (Game.novel_system (Data.game st.1)) ≫= λ cur,
                  last (CurrentScript.history cur)
  | _ => None
  end.

(** The consequence of [novel_cursor_reset_by_draw] on a run: after
    choosing "y" with [S] and [E], then reading on with [E], the second
    choice takes the first answer "p" if a frame was drawn in between, and
    the second answer "q" if the keys came within one frame. *)
Example novel_answer_depends_on_frame :
  last_line (run_main ∅ no_assets 4
               [Frame 0; KeyDown KeyS; KeyDown KeyE; Frame 0; KeyDown KeyE; KeyDown KeyE]
               (main_state_new choice_game) (Frame.mk ∅ [])) = Some "P"%string ∧
  last_line (run_main ∅ no_assets 4
               [Frame 0; KeyDown KeyS; KeyDown KeyE; KeyDown KeyE; KeyDown KeyE]
               (main_state_new choice_game) (Frame.mk ∅ [])) = Some "Q"%string.
Proof. split; vm_compute; reflexivity. Qed.

(** The registry of [view_game] with the sprite of its character and a
    map of three by three tiles of grass. *)
Definition grass : Tile.t := Tile.mk true (TileKind.Image "/grass.png").

Definition render_game : Game.t :=
  { view_game with
      Game.character_sprites := {[2 := CharacterSprite.mk 2 "/demon.png" ∅]};
      Game.tiles := {[1 := grass]};
      Game.tile_maps := {[0 := TileMap.mk 0 [[1; 1; 1]; [1; 1; 1]; [1; 1; 1]]]} }.

Definition render_files : gmap string Image.t :=
  {["/grass.png" := Image.mk 32 32; "/demon.png" := Image.mk 64 64]}.

Lemma level_draw_in_square_witness :
  0 ≤ Camera.tile_size (Game.camera render_game) ∧
  keeps (image_in_square (Game.camera render_game)) (level_draw render_files no_assets render_game).
Proof.
  assert (Ht : 0 ≤ Camera.tile_size (Game.camera render_game)) by (vm_compute; discriminate).
  split; [exact Ht|exact (level_draw_in_square render_files no_assets render_game Ht)].
Defined.

Lemma level_draw_safe_witness :
  level_wf no_assets render_game ∧ no_crash (level_draw render_files no_assets render_game).
Proof.
  assert (Hwf : level_wf no_assets render_game).
  { split; [|apply map_Forall_empty]. apply map_Forall_singleton. intros _. vm_compute. by eexists. }
  split; [exact Hwf|exact (level_draw_safe render_files no_assets render_game Hwf)].
Defined.


Lemma shop_owned_after_buy_witness :
  shop_items (buy_item 0 shop_game) (CurrentShop.mk 1 2) ≫= (λ items, items !! 0%nat) =
    Some (ShopItem.mk 7 (Some 1)) ∧
  owned (buy_item 0 shop_game) (CurrentShop.mk 1 2) 7 = S (owned shop_game (CurrentShop.mk 1 2) 7).
Proof.
  exact (shop_owned_after_buy shop_game 0 (CurrentShop.mk 1 2) (ShopItem.mk 7 (Some 1))
           eq_refl eq_refl ltac:(vm_compute; by eexists)).
Defined.


Lemma novel_cursor_reset_by_draw_witness :
  match run_main ∅ no_assets 4 ([Frame 0; KeyDown KeyS; KeyDown KeyE] ++ [Frame 0])
          (main_state_new choice_game) (Frame.mk ∅ []) with
  | Drawn (d', stack) _ => reading (Data.game d') ∧ Novel 0 ∈ stack ∧ ∀ i, Novel i ∈ stack → i = 0%nat
  | _ => False
  end.
Proof.
  destruct (run_main ∅ no_assets 4 ([Frame 0; KeyDown KeyS; KeyDown KeyE] ++ [Frame 0])
              (main_state_new choice_game) (Frame.mk ∅ [])) as [[d' stack] s'| | |] eqn:E;
    [|vm_compute in E; discriminate..].
  pose proof E as E'. vm_compute in E'. injection E' as Hd Hs _.
  assert (Hr : reading (Data.game d')) by (rewrite <-Hd; split; [reflexivity|eexists; split; reflexivity]).
  split_and!; [exact Hr|rewrite <-Hs; left|].
  intros i. exact (novel_cursor_reset_by_draw ∅ no_assets 4 _ 0 _ _ d' stack s' i E Hr).
Defined.
